(** * Binding layer of the Calendar bridge: ownership adapters, sequence
    adapter, call trampolines and the relocatability gate

  Shallow embedding of [src/sys/cxx/gen0.cxx] and
  [src/sys/include/autocxxgen_ffi.h].

  The bridge functions are one-line calls into the C++ standard library
  ([std::unique_ptr], [std::shared_ptr], [std::weak_ptr], [std::vector]),
  so each module below first gives the standard's semantics of the members
  the bridge calls, as state transformers over an explicit heap, and then
  the bridge functions on top of them, one definition per source function.
  The shared handles and observers are embedded twice: in module [Shared]
  with the counts of the standard's description, and in module [RefCount]
  with the reference-count words of the library, which wrap around, and
  with the handles of both kinds in one storage space.

  Conventions.
  - A pointer is an [option]: [None] is [nullptr].
  - A function taking a pointer or reference to handle storage takes the
    location ([slot]) of that storage; a location with no live handle
    object is absent from the store.
  - A computation is a function [State -> option (A * State)]; [None] is
    behaviour the C++ standard leaves undefined (the caller broke the
    contract), never a reported error: the bridge is [noexcept] throughout.
  - [operator new] does not fail in the model (in the code a failure
    terminates the process, it is not a result). *)

From stdpp Require Import base option list gmap strings.
From Stdlib Require Import ZArith Lia.

Set Default Proof Using "Type".

(** ** Locations *)

Definition addr := nat.   (* address of a native object on the C++ heap *)
Definition slot := nat.   (* address of caller-owned storage *)

(** ** A state-and-undefinedness monad *)

Section Monad.
Context {S : Type}.

Definition M (A : Type) : Type := S → option (A * S).

Definition ret {A} (a : A) : M A := λ st, Some (a, st).

Definition bind {A B} (m : M A) (k : A → M B) : M B :=
  λ st, match m st with
        | Some (a, st') => k a st'
        | None => None
        end.

Definition undefined {A} : M A := λ _, None.

Definition gets {A} (f : S → A) : M A := λ st, Some (f st, st).

Definition modify (f : S → S) : M unit := λ st, Some (tt, f st).

(** The state a computation ends in, when it is defined. *)
Definition exec {A} (m : M A) (st : S) : option S := snd <$> m st.

(** The value a computation returns, when it is defined. *)
Definition eval {A} (m : M A) (st : S) : option A := fst <$> m st.
End Monad.

Arguments M : clear implicits.

Notation "'let*' x ':=' m 'in' k" := (bind m (λ x, k))
  (at level 10, x name, m at level 100, k at level 200, only parsing).
Notation "m ';;' k" := (bind m (λ _, k))
  (at level 100, k at level 200, right associativity, only parsing).

(** ** The relocatability gate (gen0.cxx, lines 83-118 and 157-159) *)

Module Relocatable.

(** What the nested name [T::IsRelocatable] denotes, when it denotes a
    type at all. *)
Inductive nested_type :=
| std_true_type
| std_false_type
| unrelated_type.

(** The facts about a C++ type [T] that the trait inspects. *)
Record cxx_type := {
  nested_IsRelocatable : option nested_type;
  is_trivially_move_constructible : bool;
  is_trivially_destructible : bool
}.

(** [detail::is_detected<detail::detect_IsRelocatable, T>]: the alias
    [typename T::IsRelocatable] is well-formed. *)
Definition is_detected_IsRelocatable (T : cxx_type) : bool :=
  match nested_IsRelocatable T with
  | Some _ => true
  | None => false
  end.

(** [std::is_same<X, std::true_type>]. *)
Definition is_same_true_type (X : nested_type) : bool :=
  match X with
  | std_true_type => true
  | _ => false
  end.

(** [detail::get_IsRelocatable<T>]; only instantiated when the nested name
    exists ([std::conditional] names it without instantiating it). *)
Definition get_IsRelocatable (T : cxx_type) : bool :=
  match nested_IsRelocatable T with
  | Some X => is_same_true_type X
  | None => false
  end.

(** [rust::IsRelocatable<T>::value]. *)
Definition IsRelocatable (T : cxx_type) : bool :=
  if is_detected_IsRelocatable T
  then get_IsRelocatable T
  else is_trivially_move_constructible T && is_trivially_destructible T.

(** The outcome of translating the unit. *)
Inductive build := Compiles | Rejected (message : string).

(** The [static_assert] of lines 157-159, for whatever [::c_uint] names. *)
Definition static_assert_c_uint (c_uint : cxx_type) : build :=
  if IsRelocatable c_uint
  then Compiles
  else Rejected "type c_uint should be trivially move constructible and trivially destructible in C++ to be used as an argument of `GetTimeDateString` or return value of `GetDayOfWeek`, `GetMonth`, `GetYear` in Rust".

(** [typedef unsigned int c_uint;] (autocxxgen_ffi.h, line 36): a scalar
    has no nested names and is trivial. *)
Definition unsigned_int : cxx_type :=
  {| nested_IsRelocatable := None;
     is_trivially_move_constructible := true;
     is_trivially_destructible := true |}.

(** The two ways the specification names for a type to qualify. *)
Definition opts_in (T : cxx_type) : Prop :=
  nested_IsRelocatable T = Some std_true_type.

Definition trivially_movable (T : cxx_type) : Prop :=
  is_trivially_move_constructible T = true ∧
  is_trivially_destructible T = true.

(** A trivial type that declares [using IsRelocatable = std::false_type]. *)
Definition opted_out_trivial : cxx_type :=
  {| nested_IsRelocatable := Some std_false_type;
     is_trivially_move_constructible := true;
     is_trivially_destructible := true |}.

(** A type with a user-provided destructor and no nested name. *)
Definition owns_resource : cxx_type :=
  {| nested_IsRelocatable := None;
     is_trivially_move_constructible := true;
     is_trivially_destructible := false |}.

End Relocatable.


(** ** Exclusive handles: [std::unique_ptr<T>] (gen0.cxx, lines 290-312,
    352-374 and 431-447) *)

Module Unique.

(** What the storage of a handle looks like to a later call once
    [~unique_ptr()] has run on it. The source does not fix this: the
    standard ends the object's lifetime and leaves any later use undefined,
    libstdc++ and libc++ store a null pointer, the Microsoft library leaves
    the old pointer in place. The model is parametric in it. *)
Inductive after_destructor :=
| LifetimeEnds
| ResetsToNull
| KeepsPointer.

Record State := {
  handles : gmap slot (option addr);  (* the live [unique_ptr] objects *)
  deleted : list addr;                (* delete-expressions run, latest first *)
  next_addr : addr                    (* allocation cursor of [operator new] *)
}.

Definition set_handles (f : gmap slot (option addr) → gmap slot (option addr))
    (st : State) : State :=
  {| handles := f (handles st);
     deleted := deleted st;
     next_addr := next_addr st |}.

(** How often the referent at [p] has been destroyed. *)
Definition destructions (p : addr) (st : State) : nat :=
  length (filter (λ q, q = p) (deleted st)).

(** *** The standard library's side *)

(** [::new (h) std::unique_ptr<T>(p)]; the default constructor is [p = None].
    Placement new does not look at what the storage held. *)
Definition unique_ptr_new (h : slot) (p : option addr) : M State unit :=
  modify (set_handles <[h := p]>).

(** The stored pointer of the handle object at [h]. *)
Definition stored_pointer (h : slot) : M State (option addr) :=
  λ st, match handles st !! h with
        | Some p => Some (p, st)
        | None => None
        end.

(** [new rust::MaybeUninit<T>]: fresh storage, no constructor run. *)
Definition new_MaybeUninit : M State addr :=
  λ st, Some (next_addr st,
              {| handles := handles st;
                 deleted := deleted st;
                 next_addr := S (next_addr st) |}).

(** [std::default_delete<T>::operator()]: [delete p], which runs [~T()] and
    frees the storage. *)
Definition default_delete (p : addr) : M State unit :=
  modify (λ st, {| handles := handles st;
                   deleted := p :: deleted st;
                   next_addr := next_addr st |}).

(** [unique_ptr::get() const]. *)
Definition unique_ptr_get (h : slot) : M State (option addr) :=
  stored_pointer h.

(** [unique_ptr::release()]. *)
Definition unique_ptr_release (h : slot) : M State (option addr) :=
  let* p := stored_pointer h in
  modify (set_handles <[h := None]>) ;;
  ret p.

Section Destructor.
Variable residue : after_destructor.

Definition end_lifetime (h : slot) : M State unit :=
  match residue with
  | LifetimeEnds => modify (set_handles (delete h))
  | ResetsToNull => modify (set_handles <[h := None]>)
  | KeepsPointer => ret tt
  end.

(** [unique_ptr::~unique_ptr()]: if [get() != nullptr], [get_deleter()(get())]. *)
Definition unique_ptr_destroy (h : slot) : M State unit :=
  let* p := stored_pointer h in
  match p with
  | Some a => default_delete a
  | None => ret tt
  end ;;
  end_lifetime h.

(** *** The bridge's side *)

(** [rust::deleter_if<B>::operator()], instantiated at [T = unique_ptr<_>]:
    [ptr->~T()] when [B], nothing otherwise. *)
Definition deleter_if (B : bool) (ptr : slot) : M State unit :=
  if B then unique_ptr_destroy ptr else ret tt.

(** [detail::is_complete<T>::value] for the two bound types; lines 290 and
    352 assert both. *)
Definition is_complete_RE_Calendar : bool := true.
Definition is_complete_tm : bool := true.

Definition cxxbridge1_unique_ptr_RE_Calendar_null (ptr : slot) : M State unit :=
  unique_ptr_new ptr None.

Definition cxxbridge1_unique_ptr_RE_Calendar_uninit (ptr : slot) : M State addr :=
  let* uninit := new_MaybeUninit in
  unique_ptr_new ptr (Some uninit) ;;
  ret uninit.

Definition cxxbridge1_unique_ptr_RE_Calendar_raw (ptr : slot) (raw : option addr)
    : M State unit :=
  unique_ptr_new ptr raw.

Definition cxxbridge1_unique_ptr_RE_Calendar_get (ptr : slot) : M State (option addr) :=
  unique_ptr_get ptr.

Definition cxxbridge1_unique_ptr_RE_Calendar_release (ptr : slot)
    : M State (option addr) :=
  unique_ptr_release ptr.

Definition cxxbridge1_unique_ptr_RE_Calendar_drop (ptr : slot) : M State unit :=
  deleter_if is_complete_RE_Calendar ptr.

Definition cxxbridge1_unique_ptr_tm_null (ptr : slot) : M State unit :=
  unique_ptr_new ptr None.

Definition cxxbridge1_unique_ptr_tm_uninit (ptr : slot) : M State addr :=
  let* uninit := new_MaybeUninit in
  unique_ptr_new ptr (Some uninit) ;;
  ret uninit.

Definition cxxbridge1_unique_ptr_tm_raw (ptr : slot) (raw : option addr)
    : M State unit :=
  unique_ptr_new ptr raw.

Definition cxxbridge1_unique_ptr_tm_get (ptr : slot) : M State (option addr) :=
  unique_ptr_get ptr.

Definition cxxbridge1_unique_ptr_tm_release (ptr : slot) : M State (option addr) :=
  unique_ptr_release ptr.

Definition cxxbridge1_unique_ptr_tm_drop (ptr : slot) : M State unit :=
  deleter_if is_complete_tm ptr.

Definition cxxbridge1_unique_ptr_std_vector_tm_null (ptr : slot) : M State unit :=
  unique_ptr_new ptr None.

Definition cxxbridge1_unique_ptr_std_vector_tm_raw (ptr : slot) (raw : option addr)
    : M State unit :=
  unique_ptr_new ptr raw.

Definition cxxbridge1_unique_ptr_std_vector_tm_get (ptr : slot)
    : M State (option addr) :=
  unique_ptr_get ptr.

Definition cxxbridge1_unique_ptr_std_vector_tm_release (ptr : slot)
    : M State (option addr) :=
  unique_ptr_release ptr.

Definition cxxbridge1_unique_ptr_std_vector_tm_drop (ptr : slot) : M State unit :=
  unique_ptr_destroy ptr.

(** *** The double-drop scenario

    [drop(h)], then [release(h)] when [released] is set, then [drop(h)]
    again. The result is the state before and the state after the second
    drop, when every step is defined. *)
Definition drop_twice (released : bool) (h : slot) : M State (State * State) :=
  cxxbridge1_unique_ptr_RE_Calendar_drop h ;;
  (if released
   then cxxbridge1_unique_ptr_RE_Calendar_release h ;; ret tt
   else ret tt) ;;
  let* before := gets id in
  cxxbridge1_unique_ptr_RE_Calendar_drop h ;;
  let* after := gets id in
  ret (before, after).

(** The second drop of the scenario is a no-op: it is defined and runs no
    destructor. *)
Definition second_drop_is_noop (released : bool) (h : slot) (st : State) : Prop :=
  ∃ before after,
    eval (drop_twice released h) st = Some (before, after) ∧
    deleted after = deleted before.

End Destructor.

(** A heap with one owning handle at location 0 for the object at 7. *)
Definition one_owner : State :=
  {| handles := {[ 0 := Some 7 ]}; deleted := []; next_addr := 8 |}.

End Unique.

(** ** Shared handles and observers: [std::shared_ptr<T>] and
    [std::weak_ptr<T>] (gen0.cxx, lines 314-350 and 376-412)

    This module follows the standard's description of the two class
    templates: a control block has a number of owners and a number of
    observers, both natural numbers, and the live [shared_ptr] and
    [weak_ptr] objects are kept in a store each. It serves the properties
    of single calls and short sequences of them. What depends on the width
    of the counters, or on a call that constructs a handle over one of the
    other kind, is stated over module [RefCount] below. *)

Module Shared.

Definition block_id := nat.

(** Both handle kinds are two words (lines 314 and 334): the stored pointer
    and the control block they share ownership of. *)
Record handle := {
  stored : option addr;
  owner : option block_id
}.

#[global] Instance handle_eq_dec : EqDecision handle.
Proof. solve_decision. Defined.

Definition empty_handle : handle := {| stored := None; owner := None |}.

Record control_block := {
  managed : addr;      (* the pointer the deleter will be called on *)
  use_count : nat;     (* shared handles owning the block *)
  weak_count : nat     (* observers of the block *)
}.

#[global] Instance control_block_eq_dec : EqDecision control_block.
Proof. solve_decision. Defined.

Record State := {
  shared : gmap slot handle;              (* the live [shared_ptr] objects *)
  weak : gmap slot handle;                (* the live [weak_ptr] objects *)
  blocks : gmap block_id control_block;   (* the live control blocks *)
  deleted : list addr;                    (* delete-expressions run, latest first *)
  next_addr : addr;
  next_block : block_id
}.

Definition set_shared (f : gmap slot handle → gmap slot handle) (st : State) : State :=
  {| shared := f (shared st); weak := weak st; blocks := blocks st;
     deleted := deleted st; next_addr := next_addr st; next_block := next_block st |}.

Definition set_weak (f : gmap slot handle → gmap slot handle) (st : State) : State :=
  {| shared := shared st; weak := f (weak st); blocks := blocks st;
     deleted := deleted st; next_addr := next_addr st; next_block := next_block st |}.

Definition set_blocks (f : gmap block_id control_block → gmap block_id control_block)
    (st : State) : State :=
  {| shared := shared st; weak := weak st; blocks := f (blocks st);
     deleted := deleted st; next_addr := next_addr st; next_block := next_block st |}.

(** How often the referent at [p] has been destroyed. *)
Definition destructions (p : addr) (st : State) : nat :=
  length (filter (λ q, q = p) (deleted st)).

(** *** The standard library's side *)

Definition shared_at (h : slot) : M State handle :=
  λ st, match shared st !! h with
        | Some x => Some (x, st)
        | None => None
        end.

Definition weak_at (h : slot) : M State handle :=
  λ st, match weak st !! h with
        | Some x => Some (x, st)
        | None => None
        end.

Definition block_at (c : block_id) : M State control_block :=
  λ st, match blocks st !! c with
        | Some b => Some (b, st)
        | None => None
        end.

(** [new rust::MaybeUninit<T>]. *)
Definition new_MaybeUninit : M State addr :=
  λ st, Some (next_addr st,
              {| shared := shared st; weak := weak st; blocks := blocks st;
                 deleted := deleted st; next_addr := S (next_addr st);
                 next_block := next_block st |}).

(** The control block [shared_ptr(T* p)] allocates: one owner, no observer. *)
Definition new_control_block (p : addr) : M State block_id :=
  λ st, Some (next_block st,
              {| shared := shared st; weak := weak st;
                 blocks := <[next_block st :=
                             {| managed := p; use_count := 1; weak_count := 0 |}]>
                           (blocks st);
                 deleted := deleted st; next_addr := next_addr st;
                 next_block := S (next_block st) |}).

(** The deleter of [shared_ptr(T* p)]: [delete p]. *)
Definition delete_managed (p : addr) : M State unit :=
  modify (λ st, {| shared := shared st; weak := weak st; blocks := blocks st;
                   deleted := p :: deleted st; next_addr := next_addr st;
                   next_block := next_block st |}).

(** One more owner of the block of [x], if it has one. *)
Definition add_use (x : handle) : M State unit :=
  match owner x with
  | None => ret tt
  | Some c =>
      let* b := block_at c in
      modify (set_blocks <[c := {| managed := managed b;
                                   use_count := S (use_count b);
                                   weak_count := weak_count b |}]>)
  end.

(** One more observer of the block of [x], if it has one. *)
Definition add_weak (x : handle) : M State unit :=
  match owner x with
  | None => ret tt
  | Some c =>
      let* b := block_at c in
      modify (set_blocks <[c := {| managed := managed b;
                                   use_count := use_count b;
                                   weak_count := S (weak_count b) |}]>)
  end.

(** One owner fewer. The last owner deletes the managed object; the block
    itself goes when no observer is left either. *)
Definition release_use (x : handle) : M State unit :=
  match owner x with
  | None => ret tt
  | Some c =>
      let* b := block_at c in
      match use_count b with
      | 0 => undefined
      | 1 =>
          delete_managed (managed b) ;;
          match weak_count b with
          | 0 => modify (set_blocks (delete c))
          | S _ => modify (set_blocks <[c := {| managed := managed b;
                                                use_count := 0;
                                                weak_count := weak_count b |}]>)
          end
      | S n => modify (set_blocks <[c := {| managed := managed b;
                                            use_count := n;
                                            weak_count := weak_count b |}]>)
      end
  end.

(** One observer fewer. *)
Definition release_weak (x : handle) : M State unit :=
  match owner x with
  | None => ret tt
  | Some c =>
      let* b := block_at c in
      match weak_count b, use_count b with
      | 0, _ => undefined
      | 1, 0 => modify (set_blocks (delete c))
      | S n, _ => modify (set_blocks <[c := {| managed := managed b;
                                               use_count := use_count b;
                                               weak_count := n |}]>)
      end
  end.

(** [::new (h) std::shared_ptr<T>()]. *)
Definition shared_ptr_new_empty (h : slot) : M State unit :=
  modify (set_shared <[h := empty_handle]>).

(** [::new (h) std::shared_ptr<T>(p)], for a raw pointer [p]. *)
Definition shared_ptr_new_raw (h : slot) (p : addr) : M State unit :=
  let* c := new_control_block p in
  modify (set_shared <[h := {| stored := Some p; owner := Some c |}]>).

(** [::new (h) std::shared_ptr<T>(self)]: the copy constructor. *)
Definition shared_ptr_new_copy (self h : slot) : M State unit :=
  let* x := shared_at self in
  add_use x ;;
  modify (set_shared <[h := x]>).

(** [shared_ptr::get() const]. *)
Definition shared_ptr_get (self : slot) : M State (option addr) :=
  let* x := shared_at self in
  ret (stored x).

(** [shared_ptr::~shared_ptr()]; the handle's lifetime ends. *)
Definition shared_ptr_destroy (self : slot) : M State unit :=
  let* x := shared_at self in
  release_use x ;;
  modify (set_shared (delete self)).

(** [::new (h) std::weak_ptr<T>()]. *)
Definition weak_ptr_new_empty (h : slot) : M State unit :=
  modify (set_weak <[h := empty_handle]>).

(** [::new (h) std::weak_ptr<T>(self)]: the copy constructor. *)
Definition weak_ptr_new_copy (self h : slot) : M State unit :=
  let* x := weak_at self in
  add_weak x ;;
  modify (set_weak <[h := x]>).

(** [::new (h) std::weak_ptr<T>(shared)]: the converting constructor. *)
Definition weak_ptr_new_from_shared (sh h : slot) : M State unit :=
  let* x := shared_at sh in
  add_weak x ;;
  modify (set_weak <[h := x]>).

(** [weak_ptr::lock() const]: an empty [shared_ptr] when [expired()], a
    [shared_ptr] sharing this observer's block otherwise. The result is a
    temporary, returned here as a value. *)
Definition weak_ptr_lock (w : slot) : M State handle :=
  let* x := weak_at w in
  match owner x with
  | None => ret empty_handle
  | Some c =>
      let* b := block_at c in
      match use_count b with
      | 0 => ret empty_handle
      | S _ => add_use x ;; ret x
      end
  end.

(** [::new (h) std::shared_ptr<T>(std::move(tmp))]: the move constructor
    takes over the temporary's share, the counts do not change. *)
Definition shared_ptr_new_move (h : slot) (tmp : handle) : M State unit :=
  modify (set_shared <[h := tmp]>).

(** [weak_ptr::~weak_ptr()]; the handle's lifetime ends. *)
Definition weak_ptr_destroy (self : slot) : M State unit :=
  let* x := weak_at self in
  release_weak x ;;
  modify (set_weak (delete self)).

(** *** The bridge's side *)

Definition cxxbridge1_shared_ptr_RE_Calendar_null (ptr : slot) : M State unit :=
  shared_ptr_new_empty ptr.

Definition cxxbridge1_shared_ptr_RE_Calendar_uninit (ptr : slot) : M State addr :=
  let* uninit := new_MaybeUninit in
  shared_ptr_new_raw ptr uninit ;;
  ret uninit.

Definition cxxbridge1_shared_ptr_RE_Calendar_clone (self ptr : slot) : M State unit :=
  shared_ptr_new_copy self ptr.

Definition cxxbridge1_shared_ptr_RE_Calendar_get (self : slot) : M State (option addr) :=
  shared_ptr_get self.

Definition cxxbridge1_shared_ptr_RE_Calendar_drop (self : slot) : M State unit :=
  shared_ptr_destroy self.

Definition cxxbridge1_weak_ptr_RE_Calendar_null (ptr : slot) : M State unit :=
  weak_ptr_new_empty ptr.

Definition cxxbridge1_weak_ptr_RE_Calendar_clone (self ptr : slot) : M State unit :=
  weak_ptr_new_copy self ptr.

Definition cxxbridge1_weak_ptr_RE_Calendar_downgrade (sh wk : slot) : M State unit :=
  weak_ptr_new_from_shared sh wk.

Definition cxxbridge1_weak_ptr_RE_Calendar_upgrade (wk sh : slot) : M State unit :=
  let* tmp := weak_ptr_lock wk in
  shared_ptr_new_move sh tmp.

Definition cxxbridge1_weak_ptr_RE_Calendar_drop (self : slot) : M State unit :=
  weak_ptr_destroy self.

(** The [tm] instances (lines 376-412) are the same text at another type. *)

Definition cxxbridge1_shared_ptr_tm_null (ptr : slot) : M State unit :=
  shared_ptr_new_empty ptr.

Definition cxxbridge1_shared_ptr_tm_uninit (ptr : slot) : M State addr :=
  let* uninit := new_MaybeUninit in
  shared_ptr_new_raw ptr uninit ;;
  ret uninit.

Definition cxxbridge1_shared_ptr_tm_clone (self ptr : slot) : M State unit :=
  shared_ptr_new_copy self ptr.

Definition cxxbridge1_shared_ptr_tm_get (self : slot) : M State (option addr) :=
  shared_ptr_get self.

Definition cxxbridge1_shared_ptr_tm_drop (self : slot) : M State unit :=
  shared_ptr_destroy self.

Definition cxxbridge1_weak_ptr_tm_null (ptr : slot) : M State unit :=
  weak_ptr_new_empty ptr.

Definition cxxbridge1_weak_ptr_tm_clone (self ptr : slot) : M State unit :=
  weak_ptr_new_copy self ptr.

Definition cxxbridge1_weak_ptr_tm_downgrade (sh wk : slot) : M State unit :=
  weak_ptr_new_from_shared sh wk.

Definition cxxbridge1_weak_ptr_tm_upgrade (wk sh : slot) : M State unit :=
  let* tmp := weak_ptr_lock wk in
  shared_ptr_new_move sh tmp.

Definition cxxbridge1_weak_ptr_tm_drop (self : slot) : M State unit :=
  weak_ptr_destroy self.

(** *** The shared handles of one referent *)

(** The handles at [hs] are the shared handles of the object at [a]: each
    holds [a] and owns block [c], and the block counts exactly them. *)
Definition owners (a : addr) (c : block_id) (observers : nat) (hs : list slot)
    (st : State) : Prop :=
  NoDup hs ∧
  Forall (λ h, shared st !! h = Some {| stored := Some a; owner := Some c |}) hs ∧
  blocks st !! c =
    Some {| managed := a; use_count := length hs; weak_count := observers |}.

(** The empty heap, and the heap after [uninit] at location 0. *)
Definition empty_heap : State :=
  {| shared := ∅; weak := ∅; blocks := ∅; deleted := [];
     next_addr := 0; next_block := 0 |}.

Definition one_handle : State :=
  default empty_heap (exec (cxxbridge1_shared_ptr_RE_Calendar_uninit 0) empty_heap).


(** A heap with a null shared handle at 0 and a null observer at 1. *)
Definition null_handles : State :=
  default empty_heap
    (exec (cxxbridge1_shared_ptr_RE_Calendar_null 0 ;;
           cxxbridge1_weak_ptr_RE_Calendar_null 1) empty_heap).

End Shared.

(** ** The sequence adapter: [std::vector<tm>] (gen0.cxx, lines 414-430) *)

Module Sequence.

(** [struct tm] of [<ctime>]: nine [int] members. *)
Record tm := {
  tm_sec : Z; tm_min : Z; tm_hour : Z;
  tm_mday : Z; tm_mon : Z; tm_year : Z;
  tm_wday : Z; tm_yday : Z; tm_isdst : Z
}.

(** A pointer to an element of a vector. *)
Record element := {
  of_vector : addr;
  position : nat
}.

Record State := {
  vectors : gmap addr (list tm);   (* the live vectors, by address *)
  records : gmap slot tm;          (* the live [tm] objects in caller storage *)
  next_addr : addr
}.

Definition set_vectors (f : gmap addr (list tm) → gmap addr (list tm))
    (st : State) : State :=
  {| vectors := f (vectors st); records := records st; next_addr := next_addr st |}.

Definition set_records (f : gmap slot tm → gmap slot tm) (st : State) : State :=
  {| vectors := vectors st; records := f (records st); next_addr := next_addr st |}.

(** *** The standard library's side *)

Definition vector_at_address (v : addr) : M State (list tm) :=
  λ st, match vectors st !! v with
        | Some l => Some (l, st)
        | None => None
        end.

Definition record_at (p : slot) : M State tm :=
  λ st, match records st !! p with
        | Some x => Some (x, st)
        | None => None
        end.

(** [new std::vector<tm>()]. *)
Definition new_vector : M State addr :=
  λ st, Some (next_addr st,
              {| vectors := <[next_addr st := []]> (vectors st);
                 records := records st;
                 next_addr := S (next_addr st) |}).

(** [vector::size() const]. *)
Definition vector_size (v : addr) : M State nat :=
  let* l := vector_at_address v in
  ret (length l).

(** [vector::operator[](pos)]: undefined unless [pos < size()]. *)
Definition vector_subscript (v : addr) (pos : nat) : M State element :=
  let* l := vector_at_address v in
  if decide (pos < length l)
  then ret {| of_vector := v; position := pos |}
  else undefined.

(** [vector::push_back(tm&&)]. *)
Definition vector_push_back (v : addr) (x : tm) : M State unit :=
  let* l := vector_at_address v in
  modify (set_vectors <[v := l ++ [x]]>).

(** [vector::back()]: undefined on an empty vector. *)
Definition vector_back (v : addr) : M State tm :=
  let* l := vector_at_address v in
  match last l with
  | Some x => ret x
  | None => undefined
  end.

(** [vector::pop_back()]: undefined on an empty vector. *)
Definition vector_pop_back (v : addr) : M State unit :=
  let* l := vector_at_address v in
  match l with
  | [] => undefined
  | _ :: _ => modify (set_vectors <[v := removelast l]>)
  end.

(** [::new (p) tm(x)]. *)
Definition placement_new_tm (p : slot) (x : tm) : M State unit :=
  modify (set_records <[p := x]>).

(** [rust::destroy(ptr)]: [ptr->~tm()]; the object's lifetime ends. *)
Definition destroy (ptr : slot) : M State unit :=
  record_at ptr ;;
  modify (set_records (delete ptr)).

(** Reading through an element pointer. *)
Definition element_value (e : element) : M State tm :=
  let* l := vector_at_address (of_vector e) in
  match l !! position e with
  | Some x => ret x
  | None => undefined
  end.

(** *** The bridge's side *)

Definition cxxbridge1_std_vector_tm_new : M State addr :=
  new_vector.

Definition cxxbridge1_std_vector_tm_size (s : addr) : M State nat :=
  vector_size s.

Definition cxxbridge1_std_vector_tm_get_unchecked (s : addr) (pos : nat)
    : M State element :=
  vector_subscript s pos.

(** [std::move] of a [tm] leaves the source as it is; the source is then
    destroyed. *)
Definition cxxbridge1_std_vector_tm_push_back (v : addr) (value : slot)
    : M State unit :=
  let* x := record_at value in
  vector_push_back v x ;;
  destroy value.

Definition cxxbridge1_std_vector_tm_pop_back (v : addr) (out : slot)
    : M State unit :=
  let* x := vector_back v in
  placement_new_tm out x ;;
  vector_pop_back v.

(** *** Appending a run of values

    The caller builds each value in storage of its own and hands that
    storage to [push_back]. *)
Fixpoint push_all (v : addr) (xs : list (slot * tm)) : M State unit :=
  match xs with
  | [] => ret tt
  | (p, x) :: rest =>
      placement_new_tm p x ;;
      cxxbridge1_std_vector_tm_push_back v p ;;
      push_all v rest
  end.

Definition empty_heap : State :=
  {| vectors := ∅; records := ∅; next_addr := 0 |}.

Definition noon : tm :=
  {| tm_sec := 0%Z; tm_min := 0%Z; tm_hour := 12%Z;
     tm_mday := 17%Z; tm_mon := 7%Z; tm_year := 201%Z;
     tm_wday := 0%Z; tm_yday := 228%Z; tm_isdst := 0%Z |}.

Definition midnight : tm :=
  {| tm_sec := 0%Z; tm_min := 0%Z; tm_hour := 0%Z;
     tm_mday := 18%Z; tm_mon := 7%Z; tm_year := 201%Z;
     tm_wday := 1%Z; tm_yday := 229%Z; tm_isdst := 0%Z |}.

End Sequence.

(** ** Call trampolines (gen0.cxx, lines 183-262; autocxxgen_ffi.h,
    lines 42-43) *)

Module Trampoline.

(** [typedef unsigned int c_uint;]. The trampolines only copy such values,
    so no arithmetic on them is modelled. *)
Definition c_uint := Z.

(** The native object's member functions, which the bridge calls and does
    not define. The pointers to members in the trampolines fix their types. *)
Class Native (Calendar float : Type) := {
  GetCurrentGameTime : Calendar → float;
  GetDay : Calendar → float;
  GetDayName : Calendar → string;
  GetDayOfWeek : Calendar → c_uint;
  GetDaysPassed : Calendar → float;
  GetHour : Calendar → float;
  GetHoursPassed : Calendar → float;
  GetMonth : Calendar → c_uint;
  GetMonthName : Calendar → string;
  GetTimescale : Calendar → float;
  GetYear : Calendar → c_uint
}.

Record State := {
  uints : gmap slot c_uint;     (* the live [c_uint] objects in caller storage *)
  strings : gmap addr string;   (* the live [std::string] objects on the heap *)
  next_addr : addr
}.

(** Every address at or past the allocation cursor is unused. *)
Definition allocator_ok (st : State) : Prop :=
  ∀ a, next_addr st ≤ a → strings st !! a = None.

(** A temporary [std::unique_ptr<std::string>], as a value. *)
Definition unique_ptr_string := option addr.

(** [::new (p) c_uint(x)]. *)
Definition placement_new_c_uint (p : slot) (x : c_uint) : M State unit :=
  modify (λ st, {| uints := <[p := x]> (uints st);
                   strings := strings st;
                   next_addr := next_addr st |}).

(** [std::make_unique<std::string>(text)]: a fresh heap object holding a
    copy of [text]. *)
Definition make_unique_string (text : string) : M State unique_ptr_string :=
  λ st, Some (Some (next_addr st),
              {| uints := uints st;
                 strings := <[next_addr st := text]> (strings st);
                 next_addr := S (next_addr st) |}).

(** [unique_ptr::release()] on a temporary: the stored pointer, and the
    temporary as it is left. *)
Definition release_temporary (u : unique_ptr_string)
    : option addr * unique_ptr_string :=
  (u, None).

(** [unique_ptr::~unique_ptr()] on a temporary, at the end of the full
    expression. *)
Definition destroy_temporary (u : unique_ptr_string) : M State unit :=
  match u with
  | Some a => modify (λ st, {| uints := uints st;
                               strings := delete a (strings st);
                               next_addr := next_addr st |})
  | None => ret tt
  end.

Section Calls.
Context {Calendar float : Type} `{!Native Calendar float}.

(** autocxxgen_ffi.h *)

Definition GetDayName_autocxx_wrapper (autocxx_gen_this : Calendar)
    : M State unique_ptr_string :=
  make_unique_string (GetDayName autocxx_gen_this).

Definition GetMonthName_autocxx_wrapper (autocxx_gen_this : Calendar)
    : M State unique_ptr_string :=
  make_unique_string (GetMonthName autocxx_gen_this).

(** gen0.cxx *)

Definition RE_cxxbridge1_Calendar_GetCurrentGameTime (self : Calendar) : M State float :=
  ret (GetCurrentGameTime self).

Definition RE_cxxbridge1_Calendar_GetDay (self : Calendar) : M State float :=
  ret (GetDay self).

Definition cxxbridge1_GetDayName_autocxx_wrapper (autocxx_gen_this : Calendar)
    : M State (option addr) :=
  let* tmp := GetDayName_autocxx_wrapper autocxx_gen_this in
  let (p, tmp') := release_temporary tmp in
  destroy_temporary tmp' ;;
  ret p.

Definition RE_cxxbridge1_Calendar_GetDayOfWeek (self : Calendar) (return_ : slot)
    : M State unit :=
  placement_new_c_uint return_ (GetDayOfWeek self).

Definition RE_cxxbridge1_Calendar_GetDaysPassed (self : Calendar) : M State float :=
  ret (GetDaysPassed self).

Definition RE_cxxbridge1_Calendar_GetHour (self : Calendar) : M State float :=
  ret (GetHour self).

Definition RE_cxxbridge1_Calendar_GetHoursPassed (self : Calendar) : M State float :=
  ret (GetHoursPassed self).

Definition RE_cxxbridge1_Calendar_GetMonth (self : Calendar) (return_ : slot)
    : M State unit :=
  placement_new_c_uint return_ (GetMonth self).

Definition cxxbridge1_GetMonthName_autocxx_wrapper (autocxx_gen_this : Calendar)
    : M State (option addr) :=
  let* tmp := GetMonthName_autocxx_wrapper autocxx_gen_this in
  let (p, tmp') := release_temporary tmp in
  destroy_temporary tmp' ;;
  ret p.

Definition RE_cxxbridge1_Calendar_GetTimescale (self : Calendar) : M State float :=
  ret (GetTimescale self).

Definition RE_cxxbridge1_Calendar_GetYear (self : Calendar) (return_ : slot)
    : M State unit :=
  placement_new_c_uint return_ (GetYear self).

End Calls.

(** A stand-in for the native object: a calendar frozen at one date, with
    an integer standing in for each [float] result. *)
Record frozen_calendar := {
  day_of_week : c_uint;
  month : c_uint;
  year : c_uint;
  day_name : string;
  month_name : string;
  minutes : Z
}.

#[global] Instance frozen_native : Native frozen_calendar Z := {|
  GetCurrentGameTime := minutes;
  GetDay := minutes;
  GetDayName := day_name;
  GetDayOfWeek := day_of_week;
  GetDaysPassed := minutes;
  GetHour := minutes;
  GetHoursPassed := minutes;
  GetMonth := month;
  GetMonthName := month_name;
  GetTimescale := minutes;
  GetYear := year
|}.

Definition sundas : frozen_calendar :=
  {| day_of_week := 0%Z; month := 7%Z; year := 201%Z;
     day_name := "Sundas"; month_name := "Last Seed"; minutes := 720%Z |}.

Definition empty_heap : State :=
  {| uints := ∅; strings := ∅; next_addr := 0 |}.

End Trampoline.


(** ** Shared handles and observers, with the library's counters
    (gen0.cxx, lines 314-350 and 376-412)

    Module [Shared] above follows the standard's description: a number of
    owners, a number of observers, and handles of each kind in a store of
    their own. This module follows what runs:
    - the two reference counts of a control block are machine words, 32
      bits wide ([_Atomic_word], an [int], in libstdc++; [_Atomic_counter_t],
      an [unsigned long], in the MSVC library). They are incremented
      without an overflow check, and wrap around;
    - the weak word starts at one: the owners together hold one share of
      the control block, which the last of them gives up after it has
      destroyed the managed object. The block is freed when the weak word
      reaches zero;
    - the caller's storage is one address space. A placement [new] writes
      the new handle over whatever the location held, without running a
      destructor, and a member function called on a location that holds a
      handle of the other kind, or none, is undefined. *)

Module RefCount.

Definition block_id := nat.

(** Both handle kinds are two words (lines 314 and 334): the stored pointer
    and the control block. *)
Record handle := {
  stored : option addr;
  owner : option block_id
}.

Definition empty_handle : handle := {| stored := None; owner := None |}.

(** What a location of the caller's storage holds. *)
Inductive object :=
| shared_ptr (x : handle)
| weak_ptr (x : handle).

Definition handle_of (o : object) : handle :=
  match o with
  | shared_ptr x => x
  | weak_ptr x => x
  end.

(** The counter words. *)
Definition count_modulus : Z := 4294967296.

Definition increment (n : Z) : Z := ((n + 1) mod count_modulus)%Z.

Definition decrement (n : Z) : Z := ((n - 1) mod count_modulus)%Z.

Record control_block := {
  managed : addr;   (* the pointer the deleter will be called on *)
  uses : Z;         (* the use word: one for each owner *)
  weaks : Z         (* the weak word: one for each observer, one for the owners *)
}.

Definition with_uses (n : Z) (b : control_block) : control_block :=
  {| managed := managed b; uses := n; weaks := weaks b |}.

Definition with_weaks (n : Z) (b : control_block) : control_block :=
  {| managed := managed b; uses := uses b; weaks := n |}.

Record State := {
  storage : gmap slot object;             (* the live handle objects *)
  blocks : gmap block_id control_block;   (* the live control blocks *)
  deleted : list addr;                    (* delete-expressions run, latest first *)
  next_addr : addr;
  next_block : block_id
}.

Definition set_storage (f : gmap slot object → gmap slot object) (st : State) : State :=
  {| storage := f (storage st); blocks := blocks st; deleted := deleted st;
     next_addr := next_addr st; next_block := next_block st |}.

Definition set_blocks (f : gmap block_id control_block → gmap block_id control_block)
    (st : State) : State :=
  {| storage := storage st; blocks := f (blocks st); deleted := deleted st;
     next_addr := next_addr st; next_block := next_block st |}.

(** How often the referent at [p] has been destroyed. *)
Definition destructions (p : addr) (st : State) : nat :=
  length (filter (λ q, q = p) (deleted st)).

(** *** The standard library's side *)

(** The [shared_ptr] a reference or [this] pointer designates. *)
Definition shared_at (h : slot) : M State handle :=
  λ st, match storage st !! h with
        | Some (shared_ptr x) => Some (x, st)
        | _ => None
        end.

(** The [weak_ptr] a reference or [this] pointer designates. *)
Definition weak_at (h : slot) : M State handle :=
  λ st, match storage st !! h with
        | Some (weak_ptr x) => Some (x, st)
        | _ => None
        end.

Definition block_at (c : block_id) : M State control_block :=
  λ st, match blocks st !! c with
        | Some b => Some (b, st)
        | None => None
        end.

(** [new rust::MaybeUninit<T>]. *)
Definition new_MaybeUninit : M State addr :=
  λ st, Some (next_addr st,
              {| storage := storage st; blocks := blocks st;
                 deleted := deleted st; next_addr := S (next_addr st);
                 next_block := next_block st |}).

(** The control block [shared_ptr(T* p)] allocates: both words are one. *)
Definition new_control_block (p : addr) : M State block_id :=
  λ st, Some (next_block st,
              {| storage := storage st;
                 blocks := <[next_block st :=
                             {| managed := p; uses := 1; weaks := 1 |}]>
                           (blocks st);
                 deleted := deleted st; next_addr := next_addr st;
                 next_block := S (next_block st) |}).

(** The deleter of [shared_ptr(T* p)]: [delete p]. *)
Definition delete_managed (p : addr) : M State unit :=
  modify (λ st, {| storage := storage st; blocks := blocks st;
                   deleted := p :: deleted st; next_addr := next_addr st;
                   next_block := next_block st |}).

(** [_M_add_ref_copy]: the use word goes up by one (copying an owner). *)
Definition add_ref_copy (x : handle) : M State unit :=
  match owner x with
  | None => ret tt
  | Some c =>
      let* b := block_at c in
      modify (set_blocks <[c := with_uses (increment (uses b)) b]>)
  end.

(** [_M_weak_add_ref]: the weak word goes up by one (copying or making an
    observer). *)
Definition weak_add_ref (x : handle) : M State unit :=
  match owner x with
  | None => ret tt
  | Some c =>
      let* b := block_at c in
      modify (set_blocks <[c := with_weaks (increment (weaks b)) b]>)
  end.

(** [_M_weak_release]: the weak word goes down by one; the block is freed
    when it reads zero afterwards. *)
Definition weak_release_block (c : block_id) : M State unit :=
  let* b := block_at c in
  if (decrement (weaks b) =? 0)%Z
  then modify (set_blocks (delete c))
  else modify (set_blocks <[c := with_weaks (decrement (weaks b)) b]>).

(** [_M_release]: the use word goes down by one; when it reads zero
    afterwards the managed object is deleted and the owners' share of the
    block is given up. *)
Definition release (x : handle) : M State unit :=
  match owner x with
  | None => ret tt
  | Some c =>
      let* b := block_at c in
      modify (set_blocks <[c := with_uses (decrement (uses b)) b]>) ;;
      if (decrement (uses b) =? 0)%Z
      then delete_managed (managed b) ;; weak_release_block c
      else ret tt
  end.

Definition weak_release (x : handle) : M State unit :=
  match owner x with
  | None => ret tt
  | Some c => weak_release_block c
  end.

(** [_M_add_ref_lock_nothrow]: the use word goes up by one unless it reads
    zero. *)
Definition add_ref_lock_nothrow (c : block_id) : M State bool :=
  let* b := block_at c in
  if (uses b =? 0)%Z
  then ret false
  else modify (set_blocks <[c := with_uses (increment (uses b)) b]>) ;; ret true.

(** [::new (h) std::shared_ptr<T>()]. *)
Definition shared_ptr_new_empty (h : slot) : M State unit :=
  modify (set_storage <[h := shared_ptr empty_handle]>).

(** [::new (h) std::shared_ptr<T>(p)], for a raw pointer [p]. *)
Definition shared_ptr_new_raw (h : slot) (p : addr) : M State unit :=
  let* c := new_control_block p in
  modify (set_storage <[h := shared_ptr {| stored := Some p; owner := Some c |}]>).

(** [::new (h) std::shared_ptr<T>(self)]: the copy constructor. *)
Definition shared_ptr_new_copy (self h : slot) : M State unit :=
  let* x := shared_at self in
  add_ref_copy x ;;
  modify (set_storage <[h := shared_ptr x]>).

(** [shared_ptr::get() const]. *)
Definition shared_ptr_get (self : slot) : M State (option addr) :=
  let* x := shared_at self in
  ret (stored x).

(** [shared_ptr::~shared_ptr()]; the handle's lifetime ends. *)
Definition shared_ptr_destroy (self : slot) : M State unit :=
  let* x := shared_at self in
  release x ;;
  modify (set_storage (delete self)).

(** [::new (h) std::weak_ptr<T>()]. *)
Definition weak_ptr_new_empty (h : slot) : M State unit :=
  modify (set_storage <[h := weak_ptr empty_handle]>).

(** [::new (h) std::weak_ptr<T>(self)]: the copy constructor. *)
Definition weak_ptr_new_copy (self h : slot) : M State unit :=
  let* x := weak_at self in
  weak_add_ref x ;;
  modify (set_storage <[h := weak_ptr x]>).

(** [::new (h) std::weak_ptr<T>(shared)]: the converting constructor. *)
Definition weak_ptr_new_from_shared (sh h : slot) : M State unit :=
  let* x := shared_at sh in
  weak_add_ref x ;;
  modify (set_storage <[h := weak_ptr x]>).

(** [weak_ptr::lock() const]: a [shared_ptr] sharing this observer's block
    when the use word could be raised, an empty one otherwise. The new
    handle stores the observer's pointer if the use word does not read zero
    after it was raised (libstdc++; the MSVC library stores it without
    looking again). The result is a temporary, returned here as a value. *)
Definition weak_ptr_lock (w : slot) : M State handle :=
  let* x := weak_at w in
  match owner x with
  | None => ret empty_handle
  | Some c =>
      let* locked := add_ref_lock_nothrow c in
      if locked : bool
      then
        let* b := block_at c in
        ret {| stored := if (uses b =? 0)%Z then None else stored x;
               owner := Some c |}
      else ret empty_handle
  end.

(** [::new (h) std::shared_ptr<T>(std::move(tmp))]: the move constructor
    takes over the temporary's share, the counts do not change. *)
Definition shared_ptr_new_move (h : slot) (tmp : handle) : M State unit :=
  modify (set_storage <[h := shared_ptr tmp]>).

(** [weak_ptr::~weak_ptr()]; the handle's lifetime ends. *)
Definition weak_ptr_destroy (self : slot) : M State unit :=
  let* x := weak_at self in
  weak_release x ;;
  modify (set_storage (delete self)).

(** *** The bridge's side: the [RE::Calendar] instance (lines 314-350) *)

Definition cxxbridge1_shared_ptr_RE_Calendar_null (ptr : slot) : M State unit :=
  shared_ptr_new_empty ptr.

Definition cxxbridge1_shared_ptr_RE_Calendar_uninit (ptr : slot) : M State addr :=
  let* uninit := new_MaybeUninit in
  shared_ptr_new_raw ptr uninit ;;
  ret uninit.

Definition cxxbridge1_shared_ptr_RE_Calendar_clone (self ptr : slot) : M State unit :=
  shared_ptr_new_copy self ptr.

Definition cxxbridge1_shared_ptr_RE_Calendar_get (self : slot) : M State (option addr) :=
  shared_ptr_get self.

Definition cxxbridge1_shared_ptr_RE_Calendar_drop (self : slot) : M State unit :=
  shared_ptr_destroy self.

Definition cxxbridge1_weak_ptr_RE_Calendar_null (ptr : slot) : M State unit :=
  weak_ptr_new_empty ptr.

Definition cxxbridge1_weak_ptr_RE_Calendar_clone (self ptr : slot) : M State unit :=
  weak_ptr_new_copy self ptr.

Definition cxxbridge1_weak_ptr_RE_Calendar_downgrade (shared weak : slot) : M State unit :=
  weak_ptr_new_from_shared shared weak.

Definition cxxbridge1_weak_ptr_RE_Calendar_upgrade (weak shared : slot) : M State unit :=
  let* tmp := weak_ptr_lock weak in
  shared_ptr_new_move shared tmp.

Definition cxxbridge1_weak_ptr_RE_Calendar_drop (self : slot) : M State unit :=
  weak_ptr_destroy self.

(** *** The bridge's side: the [tm] instance (lines 376-412) *)

Definition cxxbridge1_shared_ptr_tm_null (ptr : slot) : M State unit :=
  shared_ptr_new_empty ptr.

Definition cxxbridge1_shared_ptr_tm_uninit (ptr : slot) : M State addr :=
  let* uninit := new_MaybeUninit in
  shared_ptr_new_raw ptr uninit ;;
  ret uninit.

Definition cxxbridge1_shared_ptr_tm_clone (self ptr : slot) : M State unit :=
  shared_ptr_new_copy self ptr.

Definition cxxbridge1_shared_ptr_tm_get (self : slot) : M State (option addr) :=
  shared_ptr_get self.

Definition cxxbridge1_shared_ptr_tm_drop (self : slot) : M State unit :=
  shared_ptr_destroy self.

Definition cxxbridge1_weak_ptr_tm_null (ptr : slot) : M State unit :=
  weak_ptr_new_empty ptr.

Definition cxxbridge1_weak_ptr_tm_clone (self ptr : slot) : M State unit :=
  weak_ptr_new_copy self ptr.

Definition cxxbridge1_weak_ptr_tm_downgrade (shared weak : slot) : M State unit :=
  weak_ptr_new_from_shared shared weak.

Definition cxxbridge1_weak_ptr_tm_upgrade (weak shared : slot) : M State unit :=
  let* tmp := weak_ptr_lock weak in
  shared_ptr_new_move shared tmp.

Definition cxxbridge1_weak_ptr_tm_drop (self : slot) : M State unit :=
  weak_ptr_destroy self.

(** *** Scripts of calls *)

(** The two types the bridge instantiates the handles at. *)
Inductive instance := RE_Calendar | tm.

Inductive call :=
| Null (ptr : slot)
| Uninit (ptr : slot)
| Clone (self ptr : slot)
| Get (self : slot)
| Drop (self : slot)
| WeakNull (ptr : slot)
| WeakClone (self ptr : slot)
| Downgrade (shared weak : slot)
| Upgrade (weak shared : slot)
| WeakDrop (self : slot).

(** One call of the bridge function of instance [T]. *)
Definition perform (T : instance) (c : call) : M State unit :=
  match T, c with
  | RE_Calendar, Null ptr => cxxbridge1_shared_ptr_RE_Calendar_null ptr
  | RE_Calendar, Uninit ptr => cxxbridge1_shared_ptr_RE_Calendar_uninit ptr ;; ret tt
  | RE_Calendar, Clone self ptr => cxxbridge1_shared_ptr_RE_Calendar_clone self ptr
  | RE_Calendar, Get self => cxxbridge1_shared_ptr_RE_Calendar_get self ;; ret tt
  | RE_Calendar, Drop self => cxxbridge1_shared_ptr_RE_Calendar_drop self
  | RE_Calendar, WeakNull ptr => cxxbridge1_weak_ptr_RE_Calendar_null ptr
  | RE_Calendar, WeakClone self ptr => cxxbridge1_weak_ptr_RE_Calendar_clone self ptr
  | RE_Calendar, Downgrade sh wk => cxxbridge1_weak_ptr_RE_Calendar_downgrade sh wk
  | RE_Calendar, Upgrade wk sh => cxxbridge1_weak_ptr_RE_Calendar_upgrade wk sh
  | RE_Calendar, WeakDrop self => cxxbridge1_weak_ptr_RE_Calendar_drop self
  | tm, Null ptr => cxxbridge1_shared_ptr_tm_null ptr
  | tm, Uninit ptr => cxxbridge1_shared_ptr_tm_uninit ptr ;; ret tt
  | tm, Clone self ptr => cxxbridge1_shared_ptr_tm_clone self ptr
  | tm, Get self => cxxbridge1_shared_ptr_tm_get self ;; ret tt
  | tm, Drop self => cxxbridge1_shared_ptr_tm_drop self
  | tm, WeakNull ptr => cxxbridge1_weak_ptr_tm_null ptr
  | tm, WeakClone self ptr => cxxbridge1_weak_ptr_tm_clone self ptr
  | tm, Downgrade sh wk => cxxbridge1_weak_ptr_tm_downgrade sh wk
  | tm, Upgrade wk sh => cxxbridge1_weak_ptr_tm_upgrade wk sh
  | tm, WeakDrop self => cxxbridge1_weak_ptr_tm_drop self
  end.

Fixpoint run (T : instance) (script : list call) : M State unit :=
  match script with
  | [] => ret tt
  | c :: rest => perform T c ;; run T rest
  end.

(** The location a call constructs a handle in, if it constructs one. *)
Definition target (c : call) : option slot :=
  match c with
  | Null ptr | Uninit ptr | Clone _ ptr | WeakNull ptr | WeakClone _ ptr
  | Downgrade _ ptr | Upgrade _ ptr => Some ptr
  | Get _ | Drop _ | WeakDrop _ => None
  end.

Definition constructed (script : list call) : list slot := omap target script.

(** The calls on observers that construct or destroy an observer. *)
Definition observer_call (c : call) : bool :=
  match c with
  | WeakNull _ | WeakClone _ _ | Downgrade _ _ | WeakDrop _ => true
  | _ => false
  end.

(** *** The shared handles of one referent *)

(** The handles outstanding after a script of clones and drops, from the
    handles outstanding before it: a clone reads an outstanding handle and
    constructs a new one in a location that holds none of them, a drop
    destroys an outstanding one. [None] when the script does otherwise. *)
Fixpoint outstanding (hs : list slot) (script : list call) : option (list slot) :=
  match script with
  | [] => Some hs
  | Clone self ptr :: rest =>
      if bool_decide (self ∈ hs) && bool_decide (ptr ∉ hs)
      then outstanding (ptr :: hs) rest
      else None
  | Drop self :: rest =>
      if bool_decide (self ∈ hs)
      then outstanding (filter (λ h, h ≠ self) hs) rest
      else None
  | _ :: _ => None
  end.

(** The largest number of handles outstanding at any time of the script. *)
Fixpoint peak (hs : list slot) (script : list call) : nat :=
  match script with
  | Clone _ ptr :: rest => length hs `max` peak (ptr :: hs) rest
  | Drop self :: rest => length hs `max` peak (filter (λ h, h ≠ self) hs) rest
  | _ => length hs
  end.

(** [N] clones, then drops. *)
Definition clones_then_drops (cs : list (slot * slot)) (ds : list slot) : list call :=
  map (λ c, Clone c.1 c.2) cs ++ map Drop ds.

(** The handles at [hs] are shared handles of the object at [a]: each holds
    [a] and owns block [c], whose use word counts them, as far as a word
    can, and whose weak word reads [w]. *)
Definition owners (a : addr) (c : block_id) (w : Z) (hs : list slot)
    (st : State) : Prop :=
  NoDup hs ∧
  Forall (λ h, storage st !! h =
                 Some (shared_ptr {| stored := Some a; owner := Some c |})) hs ∧
  blocks st !! c =
    Some {| managed := a; uses := Z.of_nat (length hs) mod count_modulus;
            weaks := w |}.

(** [n] clones of the handle at location 0, into the locations from
    [first] on. *)
Definition clones_of_0 (first n : nat) : list (slot * slot) :=
  (λ i, (0, i)) <$> seq first n.

(** *** The whole heap *)

(** The handle of [o] is a shared handle, or an observer, of block [c]. *)
Definition owns (c : block_id) (o : object) : bool :=
  match o with
  | shared_ptr x => bool_decide (owner x = Some c)
  | weak_ptr _ => false
  end.

Definition observes (c : block_id) (o : object) : bool :=
  match o with
  | shared_ptr _ => false
  | weak_ptr x => bool_decide (owner x = Some c)
  end.

(** How many live handle objects satisfy [p]. *)
Definition count (p : object → bool) (m : gmap slot object) : nat :=
  size (filter (λ kv, p kv.2 = true) m).

(** A handle is null, or shares a live block and holds the pointer the
    block manages. *)
Definition attached (st : State) (x : handle) : Prop :=
  x = empty_handle ∨
  ∃ c b, owner x = Some c ∧ blocks st !! c = Some b ∧ stored x = Some (managed b).

(** The owners' share in the weak word of a block. *)
Definition share (b : control_block) : Z := if (uses b =? 0)%Z then 0 else 1.

(** What holds of every heap the calls build while no word exceeds [K]:
    - every handle is attached;
    - the use word of a block is at least the number of its live owners and
      its weak word at least the number of its live observers plus the
      owners' share (more when a handle was overwritten without being
      dropped), and at least one;
    - the target of a block and the block itself were allocated;
    - the target of a block whose use word is not zero was not destroyed;
    - two blocks do not manage the same object;
    - nothing was destroyed twice, or before it was allocated. *)
Record sound (K : Z) (st : State) : Prop := {
  sound_bound : (0 ≤ K)%Z;
  sound_attached : ∀ h o, storage st !! h = Some o → attached st (handle_of o);
  sound_uses : ∀ (c : block_id) b, blocks st !! c = Some b →
                 (Z.of_nat (count (owns c) (storage st)) ≤ uses b ≤ K)%Z;
  sound_weaks : ∀ (c : block_id) b, blocks st !! c = Some b →
                  (Z.of_nat (count (observes c) (storage st)) + share b ≤ weaks b
                   ∧ 1 ≤ weaks b ≤ K)%Z;
  sound_allocated : ∀ (c : block_id) b, blocks st !! c = Some b →
                      managed b < next_addr st ∧ c < next_block st;
  sound_alive : ∀ (c : block_id) b, blocks st !! c = Some b → (0 < uses b)%Z →
                  managed b ∉ deleted st;
  sound_targets : ∀ (c1 c2 : block_id) b1 b2,
                    blocks st !! c1 = Some b1 → blocks st !! c2 = Some b2 →
                    managed b1 = managed b2 → c1 = c2;
  sound_once : NoDup (deleted st);
  sound_deleted : ∀ a : addr, a ∈ deleted st → a < next_addr st
}.

(** The owners' side of two heaps is the same: the same objects were
    destroyed, the same locations hold the same shared handles, and a block
    with a non-zero use word is still there, with its target and its use
    word. *)
Definition same_owners (st st' : State) : Prop :=
  deleted st' = deleted st ∧
  (∀ (h : slot) x, storage st' !! h = Some (shared_ptr x) ↔
                   storage st !! h = Some (shared_ptr x)) ∧
  ∀ (c : block_id) b, blocks st !! c = Some b → uses b ≠ 0%Z →
    ∃ b', blocks st' !! c = Some b' ∧ managed b' = managed b ∧ uses b' = uses b.

(** No location of [hs] holds a shared handle. *)
Definition no_shared_at (hs : list slot) (st : State) : Prop :=
  ∀ (h : slot) x, h ∈ hs → storage st !! h ≠ Some (shared_ptr x).

(** The empty heap, and the heap after [uninit] at location 0. *)
Definition empty_heap : State :=
  {| storage := ∅; blocks := ∅; deleted := [];
     next_addr := 0; next_block := 0 |}.

Definition one_handle : State :=
  {| storage := {[ 0 := shared_ptr {| stored := Some 0; owner := Some 0 |} ]};
     blocks := {[ 0 := {| managed := 0; uses := 1; weaks := 1 |} ]};
     deleted := []; next_addr := 1; next_block := 1 |}.

End RefCount.

(** ** Scripts of calls on exclusive handles *)

Module UniqueScript.
Import Unique.

(** The calls a holder of exclusive handles makes. [Transfer] hands the
    pointer of one handle to another, [release] followed by [raw]. *)
Inductive call :=
| Null (ptr : slot)
| Uninit (ptr : slot)
| Get (ptr : slot)
| Release (ptr : slot)
| Transfer (source target : slot)
| Drop (ptr : slot).

Definition perform (residue : after_destructor) (c : call) : M State unit :=
  match c with
  | Null ptr => cxxbridge1_unique_ptr_RE_Calendar_null ptr
  | Uninit ptr => cxxbridge1_unique_ptr_RE_Calendar_uninit ptr ;; ret tt
  | Get ptr => cxxbridge1_unique_ptr_RE_Calendar_get ptr ;; ret tt
  | Release ptr => cxxbridge1_unique_ptr_RE_Calendar_release ptr ;; ret tt
  | Transfer source target =>
      let* raw := cxxbridge1_unique_ptr_RE_Calendar_release source in
      cxxbridge1_unique_ptr_RE_Calendar_raw target raw
  | Drop ptr => cxxbridge1_unique_ptr_RE_Calendar_drop residue ptr
  end.

Fixpoint run (residue : after_destructor) (script : list call) : M State unit :=
  match script with
  | [] => ret tt
  | c :: rest => perform residue c ;; run residue rest
  end.

(** Exclusive ownership: a pointer held by a handle was allocated and not
    destroyed, no two handles hold the same pointer, and nothing was
    destroyed twice. *)
Definition exclusive (st : State) : Prop :=
  (∀ h a, handles st !! h = Some (Some a) → a < next_addr st ∧ a ∉ deleted st) ∧
  (∀ h1 h2 a,
     handles st !! h1 = Some (Some a) → handles st !! h2 = Some (Some a) →
     h1 = h2) ∧
  NoDup (deleted st) ∧
  (∀ a, a ∈ deleted st → a < next_addr st).

Definition empty_heap : State :=
  {| handles := ∅; deleted := []; next_addr := 0 |}.

End UniqueScript.

(** ** Draining a sequence *)

Module SequenceScript.
Import Sequence.

(** [n] calls of [pop_back] into the same caller storage, reading the value
    out of that storage after each call; the values in the order popped. *)
Fixpoint pop_all (v : addr) (out : slot) (n : nat) : M State (list tm) :=
  match n with
  | 0 => ret []
  | S n =>
      cxxbridge1_std_vector_tm_pop_back v out ;;
      let* x := record_at out in
      let* rest := pop_all v out n in
      ret (x :: rest)
  end.

(** No vector lives at or past the allocation cursor. *)
Definition allocator_ok (st : State) : Prop :=
  ∀ a : addr, next_addr st ≤ a → vectors st !! a = None.

(** A heap with the vector [[noon]] at 3 and [midnight] in caller storage 0. *)
Definition one_vector : State :=
  {| vectors := {[ 3 := [noon] ]}; records := {[ 0 := midnight ]};
     next_addr := 4 |}.

End SequenceScript.

(** ** Raw storage, construction in place and destruction
    (autocxxgen_ffi.h, lines 11-33, 39-40 and 44-49; gen0.cxx, lines
    167-175, 244-247 and 265-288) *)

Module Storage.
Import Sequence.

(** A piece of storage: whether it came from [operator new], and the object
    living in it, if any. *)
Record storage (T : Type) := {
  from_new : bool;
  object : option T
}.
Arguments from_new {T} _.
Arguments object {T} _.

Record State (T : Type) := {
  cells : gmap addr (storage T);   (* the storage that exists *)
  destroyed : list addr;           (* destructor calls run, latest first *)
  next_addr : addr
}.
Arguments cells {T} _.
Arguments destroyed {T} _.
Arguments next_addr {T} _.

(** No storage exists at or past the allocation cursor. *)
Definition allocator_ok {T} (st : State T) : Prop :=
  ∀ a : addr, next_addr st ≤ a → cells st !! a = None.

Section Generic.
Context {T : Type}.

Definition storage_at (p : addr) : M (State T) (storage T) :=
  λ st, match cells st !! p with
        | Some s => Some (s, st)
        | None => None
        end.

Definition set_cells (f : gmap addr (storage T) → gmap addr (storage T))
    (st : State T) : State T :=
  {| cells := f (cells st); destroyed := destroyed st; next_addr := next_addr st |}.

(** [new_appropriately<T>()]: storage for one [T] from [operator new], no
    constructor run. *)
Definition new_appropriately : M (State T) addr :=
  λ st, Some (next_addr st,
              {| cells := <[next_addr st := {| from_new := true; object := None |}]>
                          (cells st);
                 destroyed := destroyed st;
                 next_addr := S (next_addr st) |}).

(** [delete_appropriately<T>(obj)]: the storage goes back to
    [operator delete], no destructor run. Undefined unless the storage came
    from [operator new] and was not given back yet. A null argument is not
    modelled. *)
Definition delete_appropriately (obj : addr) : M (State T) unit :=
  let* s := storage_at obj in
  if from_new s then modify (set_cells (delete obj)) else undefined.

(** [new (p) T(x)]: needs storage at [p]; what the storage held is not
    looked at. *)
Definition placement_new (p : addr) (x : T) : M (State T) unit :=
  let* s := storage_at p in
  modify (set_cells <[p := {| from_new := from_new s; object := Some x |}]>).

(** Reading the object at [p]: needs a live object there. *)
Definition object_at (p : addr) : M (State T) T :=
  let* s := storage_at p in
  match object s with
  | Some x => ret x
  | None => undefined
  end.

(** [p->~T()]: needs a live object at [p]; the storage stays. *)
Definition destructor (p : addr) : M (State T) unit :=
  let* s := storage_at p in
  match object s with
  | Some _ =>
      modify (λ st, {| cells := <[p := {| from_new := from_new s; object := None |}]>
                                (cells st);
                       destroyed := p :: destroyed st;
                       next_addr := next_addr st |})
  | None => undefined
  end.

End Generic.

(** [RE::Calendar::GetTime() const], which the bridge calls and does not
    define. *)
Class NativeTime (Calendar : Type) := {
  GetTime : Calendar → tm
}.

Section Calendar.
Context {Calendar : Type} `{!NativeTime Calendar}.

(** autocxxgen_ffi.h *)

Definition Calendar_autocxx_alloc_autocxx_wrapper_0xf17503e17c2ca26a
    : M (State Calendar) addr :=
  new_appropriately.

Definition Calendar_autocxx_free_autocxx_wrapper_0xf17503e17c2ca26a (arg0 : addr)
    : M (State Calendar) unit :=
  delete_appropriately arg0.

Definition Calendar_synthetic_destructor_0xf17503e17c2ca26a_autocxx_wrapper_0xf17503e17c2ca26a
    (arg0 : addr) : M (State Calendar) unit :=
  destructor arg0.

Definition GetTime_autocxx_wrapper_0xf17503e17c2ca26a (autocxx_gen_this : Calendar)
    (arg1 : addr) : M (State tm) unit :=
  placement_new arg1 (GetTime autocxx_gen_this).

(** gen0.cxx *)

Definition cxxbridge1_Calendar_autocxx_alloc_autocxx_wrapper_0xf17503e17c2ca26a
    : M (State Calendar) addr :=
  Calendar_autocxx_alloc_autocxx_wrapper_0xf17503e17c2ca26a.

Definition cxxbridge1_Calendar_autocxx_free_autocxx_wrapper_0xf17503e17c2ca26a
    (arg0 : addr) : M (State Calendar) unit :=
  Calendar_autocxx_free_autocxx_wrapper_0xf17503e17c2ca26a arg0.

Definition cxxbridge1_Calendar_synthetic_destructor_0xf17503e17c2ca26a_autocxx_wrapper_0xf17503e17c2ca26a
    (autocxx_gen_this : addr) : M (State Calendar) unit :=
  Calendar_synthetic_destructor_0xf17503e17c2ca26a_autocxx_wrapper_0xf17503e17c2ca26a
    autocxx_gen_this.

Definition cxxbridge1_GetTime_autocxx_wrapper_0xf17503e17c2ca26a
    (autocxx_gen_this : Calendar) (placement_return_type : addr)
    : M (State tm) unit :=
  GetTime_autocxx_wrapper_0xf17503e17c2ca26a autocxx_gen_this placement_return_type.

End Calendar.

(** autocxxgen_ffi.h *)

Definition tm_autocxx_alloc_autocxx_wrapper_0xf17503e17c2ca26a : M (State tm) addr :=
  new_appropriately.

Definition tm_autocxx_free_autocxx_wrapper_0xf17503e17c2ca26a (arg0 : addr)
    : M (State tm) unit :=
  delete_appropriately arg0.

(** Placement new of a [tm] at [autocxx_gen_this], move-constructed from the
    object [arg1] points to: moving a [tm] copies its members and leaves the
    source as it is. *)
Definition tm_new_synthetic_move_ctor_0xf17503e17c2ca26a_autocxx_wrapper_0xf17503e17c2ca26a
    (autocxx_gen_this arg1 : addr) : M (State tm) unit :=
  let* x := object_at arg1 in
  placement_new autocxx_gen_this x.

(** [new (autocxx_gen_this) tm(arg1)]. *)
Definition tm_new_synthetic_const_copy_ctor_0xf17503e17c2ca26a_autocxx_wrapper_0xf17503e17c2ca26a
    (autocxx_gen_this arg1 : addr) : M (State tm) unit :=
  let* x := object_at arg1 in
  placement_new autocxx_gen_this x.

(** gen0.cxx *)

Definition cxxbridge1_tm_autocxx_alloc_autocxx_wrapper_0xf17503e17c2ca26a
    : M (State tm) addr :=
  tm_autocxx_alloc_autocxx_wrapper_0xf17503e17c2ca26a.

Definition cxxbridge1_tm_autocxx_free_autocxx_wrapper_0xf17503e17c2ca26a
    (arg0 : addr) : M (State tm) unit :=
  tm_autocxx_free_autocxx_wrapper_0xf17503e17c2ca26a arg0.

Definition cxxbridge1_tm_new_synthetic_move_ctor_0xf17503e17c2ca26a_autocxx_wrapper_0xf17503e17c2ca26a
    (autocxx_gen_this other : addr) : M (State tm) unit :=
  tm_new_synthetic_move_ctor_0xf17503e17c2ca26a_autocxx_wrapper_0xf17503e17c2ca26a
    autocxx_gen_this other.

Definition cxxbridge1_tm_new_synthetic_const_copy_ctor_0xf17503e17c2ca26a_autocxx_wrapper_0xf17503e17c2ca26a
    (autocxx_gen_this other : addr) : M (State tm) unit :=
  tm_new_synthetic_const_copy_ctor_0xf17503e17c2ca26a_autocxx_wrapper_0xf17503e17c2ca26a
    autocxx_gen_this other.

(** Fetching the native time by value with the four wrappers: allocate,
    construct in place, read, give the storage back. *)
Definition fetch_time {Calendar : Type} `{!NativeTime Calendar} (self : Calendar)
    : M (State tm) tm :=
  let* p := cxxbridge1_tm_autocxx_alloc_autocxx_wrapper_0xf17503e17c2ca26a in
  cxxbridge1_GetTime_autocxx_wrapper_0xf17503e17c2ca26a self p ;;
  let* x := object_at p in
  cxxbridge1_tm_autocxx_free_autocxx_wrapper_0xf17503e17c2ca26a p ;;
  ret x.

(** A stand-in for the native object: a calendar that always reports noon. *)
Definition stopped_clock := unit.

#[global] Instance stopped_clock_time : NativeTime stopped_clock := {|
  GetTime := λ _, noon
|}.

Definition empty_heap {T} : State T :=
  {| cells := ∅; destroyed := []; next_addr := 0 |}.

(** A heap with a live [tm] in storage from [operator new] at 0 and raw
    storage of the caller's at 1. *)
Definition two_cells : State tm :=
  {| cells := {[ 0 := {| from_new := true; object := Some noon |};
                 1 := {| from_new := false; object := None |} ]};
     destroyed := []; next_addr := 2 |}.

End Storage.

(** ** Which allocation function is used (autocxxgen_ffi.h, lines 11-32;
    gen0.cxx, lines 120-138) *)

Module Allocation.

(** The facts about a class [T] that the selection inspects. Both are
    about a call expression, not about a declaration:
    [operator_new_call_ok] says that [T::operator new(n)], with a size as
    its only argument, is well-formed, and [operator_delete_call_ok] that
    [T::operator delete(p)], with a [T*] as its only argument, is. A class
    that declares a placement [operator new] only, or a sized
    [operator delete] only, has neither. *)
Record class_traits := {
  operator_new_call_ok : bool;
  operator_delete_call_ok : bool
}.

Inductive allocation_function :=
| class_operator_new
| global_operator_new.

Inductive deallocation_function :=
| class_operator_delete
| global_operator_delete.

(** The type of the second parameter, which tells the two overloads of
    [new_imp] and of [delete_imp] apart. *)
Inductive tag := tag_int | tag_long.

(** The overloads of [new_imp<T>] that exist: the one taking [int] has the
    return type [decltype(T::operator new(count))] and drops out of the
    overload set when that is ill-formed. *)
Definition new_imp (T : class_traits) (t : tag) : option allocation_function :=
  match t with
  | tag_int => if operator_new_call_ok T then Some class_operator_new else None
  | tag_long => Some global_operator_new
  end.

Definition delete_imp (T : class_traits) (t : tag) : option deallocation_function :=
  match t with
  | tag_int => if operator_delete_call_ok T then Some class_operator_delete else None
  | tag_long => Some global_operator_delete
  end.

(** A call with the argument [0], an [int]: the overload taking [int] is an
    exact match and wins when it exists. *)
Definition call_with_0 {A} (overloads : tag → option A) : option A :=
  match overloads tag_int with
  | Some f => Some f
  | None => overloads tag_long
  end.

Definition new_appropriately (T : class_traits) : option allocation_function :=
  call_with_0 (new_imp T).

Definition delete_appropriately (T : class_traits) : option deallocation_function :=
  call_with_0 (delete_imp T).

(** [rust::detail::operator_new<T>]: the partial specialisation is chosen
    when [decltype(T::operator new(sizeof(T)))] is well-formed, and is then
    [void *], the default of the second template parameter. *)
Definition operator_new_specialisation (T : class_traits)
    : option allocation_function :=
  if operator_new_call_ok T then Some class_operator_new else None.

Definition operator_new (T : class_traits) : allocation_function :=
  match operator_new_specialisation T with
  | Some f => f
  | None => global_operator_new
  end.

(** [rust::MaybeUninit<T>::operator new]. *)
Definition MaybeUninit_operator_new (T : class_traits) : allocation_function :=
  operator_new T.

(** The deallocation function that matches an allocation function. *)
Definition counterpart (f : allocation_function) : deallocation_function :=
  match f with
  | class_operator_new => class_operator_delete
  | global_operator_new => global_operator_delete
  end.

(** [struct tm] has no allocation function of its own: neither call is
    well-formed. *)
Definition plain_struct : class_traits :=
  {| operator_new_call_ok := false; operator_delete_call_ok := false |}.

End Allocation.

(** ** Making a native string (autocxxgen_ffi.h, line 38; gen0.cxx, lines
    162-165) *)

Module MakeString.
Import Trampoline.

(** A [rust::Str] is a view of text the caller owns; converting it to a
    [std::string] copies the text. *)
Definition autocxx_make_string_0xf17503e17c2ca26a (str : string)
    : M State unique_ptr_string :=
  make_unique_string str.

Definition cxxbridge1_autocxx_make_string_0xf17503e17c2ca26a (str_ : string)
    : M State (option addr) :=
  let* tmp := autocxx_make_string_0xf17503e17c2ca26a str_ in
  let (p, tmp') := release_temporary tmp in
  destroy_temporary tmp' ;;
  ret p.

End MakeString.

(** * Properties *)

(** ** The relocatability gate *)

Section RelocatableFacts.
Import Relocatable.

Lemma IsRelocatable_declared (T : cxx_type) (X : nested_type) :
  nested_IsRelocatable T = Some X → IsRelocatable T = is_same_true_type X.
Proof.
  intros HX. unfold IsRelocatable, is_detected_IsRelocatable, get_IsRelocatable.
  by rewrite HX.
Qed.

Lemma IsRelocatable_undeclared (T : cxx_type) :
  nested_IsRelocatable T = None →
  IsRelocatable T =
    is_trivially_move_constructible T && is_trivially_destructible T.
Proof.
  intros HX. unfold IsRelocatable, is_detected_IsRelocatable. by rewrite HX.
Qed.

Lemma static_assert_c_uint_spec (T : cxx_type) :
  static_assert_c_uint T = Compiles ↔ IsRelocatable T = true.
Proof.
  unfold static_assert_c_uint. destruct (IsRelocatable T); split; congruence.
Qed.

(** C7, as stated, fails: a trivially move-constructible and trivially
    destructible type that declares [IsRelocatable] as [std::false_type]
    meets the second alternative of the claim, and the predicate is false
    for it. *)
Lemma C7_opt_out_overrides_triviality :
  ¬ (IsRelocatable opted_out_trivial = true ↔
     opts_in opted_out_trivial ∨ trivially_movable opted_out_trivial).
Proof.
  intros [_ H].
  assert (IsRelocatable opted_out_trivial = true) as Hrel.
  { apply H. right. split; reflexivity. }
  vm_compute in Hrel. discriminate.
Qed.

(** C7, amended: the predicate holds exactly when the type declares
    [IsRelocatable] as [std::true_type], or declares no [IsRelocatable] and
    is trivially move-constructible and trivially destructible. The static
    assertion on [c_uint] compiles exactly when the predicate holds, so a
    type that neither opts in nor is trivial in both ways is rejected when
    the unit is built. *)
Theorem C7_IsRelocatable_characterised (T : cxx_type) :
  (IsRelocatable T = true ↔
     opts_in T ∨ (nested_IsRelocatable T = None ∧ trivially_movable T)) ∧
  (static_assert_c_uint T = Compiles ↔ IsRelocatable T = true) ∧
  (¬ opts_in T → ¬ trivially_movable T →
     ∃ message, static_assert_c_uint T = Rejected message).
Proof.
  unfold opts_in, trivially_movable. split_and!.
  - destruct (nested_IsRelocatable T) as [X|] eqn:HX.
    + rewrite (IsRelocatable_declared T X HX). split.
      * destruct X; simpl; intros ?; try discriminate. by left.
      * intros [[= ->]|[? _]]; [done|discriminate].
    + rewrite (IsRelocatable_undeclared T HX), andb_true_iff. split.
      * intros ?. by right.
      * intros [?|[_ ?]]; [discriminate|done].
  - apply static_assert_c_uint_spec.
  - intros Hopt Htriv. unfold static_assert_c_uint.
    destruct (IsRelocatable T) eqn:Hrel; [|by eexists].
    exfalso. destruct (nested_IsRelocatable T) as [X|] eqn:HX.
    + rewrite (IsRelocatable_declared T X HX) in Hrel.
      destruct X; try discriminate. by apply Hopt.
    + rewrite (IsRelocatable_undeclared T HX), andb_true_iff in Hrel.
      by apply Htriv.
Qed.

(** The gate at work: [unsigned int] passes, a type with a destructor of
    its own is turned away by the compiler. *)
Lemma C7_witness :
  static_assert_c_uint unsigned_int = Compiles ∧
  ¬ opts_in owns_resource ∧
  ¬ trivially_movable owns_resource ∧
  ∃ message, static_assert_c_uint owns_resource = Rejected message.
Proof.
  split; [reflexivity|].
  assert (¬ opts_in owns_resource) as Hopt by (intros [=]).
  assert (¬ trivially_movable owns_resource) as Htriv by (intros [_ [=]]).
  split; [exact Hopt|]. split; [exact Htriv|].
  exact (proj2 (proj2 (C7_IsRelocatable_characterised owns_resource)) Hopt Htriv).
Defined.

End RelocatableFacts.

(** ** Computations *)

Section MonadFacts.
Context {S A B : Type}.
Implicit Types (m : M S A) (k : A → M S B) (st : S).

Lemma bind_defined m k st a st' :
  m st = Some (a, st') → bind m k st = k a st'.
Proof. intros H. unfold bind. by rewrite H. Qed.

Lemma bind_undefined m k st :
  m st = None → bind m k st = None.
Proof. intros H. unfold bind. by rewrite H. Qed.

Lemma bind_inv m k st r :
  bind m k st = Some r → ∃ a st', m st = Some (a, st') ∧ k a st' = Some r.
Proof.
  unfold bind. destruct (m st) as [[a st']|]; [|done]. intros H.
  by exists a, st'.
Qed.

End MonadFacts.

(** ** Exclusive handles *)

Section UniqueFacts.
Import Unique.

Lemma unique_ptr_get_spec (h : slot) (st : State) :
  unique_ptr_get h st = (λ p, (p, st)) <$> handles st !! h.
Proof. unfold unique_ptr_get, stored_pointer. by destruct (handles st !! h). Qed.

Lemma unique_ptr_release_spec (h : slot) (st : State) :
  unique_ptr_release h st =
    (λ p, (p, set_handles <[h := None]> st)) <$> handles st !! h.
Proof.
  unfold unique_ptr_release, bind, stored_pointer.
  by destruct (handles st !! h).
Qed.

Ltac unique_unfold :=
  unfold second_drop_is_noop, eval, exec, drop_twice,
    cxxbridge1_unique_ptr_RE_Calendar_drop, cxxbridge1_unique_ptr_tm_drop,
    cxxbridge1_unique_ptr_std_vector_tm_drop,
    cxxbridge1_unique_ptr_RE_Calendar_release, cxxbridge1_unique_ptr_tm_release,
    cxxbridge1_unique_ptr_std_vector_tm_release,
    cxxbridge1_unique_ptr_RE_Calendar_get, cxxbridge1_unique_ptr_tm_get,
    cxxbridge1_unique_ptr_std_vector_tm_get,
    deleter_if, is_complete_RE_Calendar, is_complete_tm,
    unique_ptr_destroy, unique_ptr_release, unique_ptr_get, end_lifetime,
    default_delete, stored_pointer, bind, ret, modify, gets, set_handles.

Ltac unique_step H :=
  repeat (cbn; rewrite ?H, ?lookup_insert_eq, ?lookup_delete_eq).

(** A drop runs the destructor of the referent when the handle holds one,
    and nothing when the handle is null. *)
Lemma drop_destroys_referent (residue : after_destructor) (h : slot)
    (p : option addr) (st : State) :
  handles st !! h = Some p →
  ∃ st',
    exec (cxxbridge1_unique_ptr_RE_Calendar_drop residue h) st = Some st' ∧
    deleted st' = match p with
                  | Some a => a :: deleted st
                  | None => deleted st
                  end.
Proof.
  intros Hh. destruct residue, p; unique_unfold; unique_step Hh; eauto.
Qed.

(** A drop that follows a release finds the handle null. *)
Lemma drop_after_release (residue : after_destructor) (h : slot)
    (p : option addr) (st : State) :
  handles st !! h = Some p →
  ∃ st',
    exec (cxxbridge1_unique_ptr_RE_Calendar_release h ;;
          cxxbridge1_unique_ptr_RE_Calendar_drop residue h) st = Some st' ∧
    deleted st' = deleted st.
Proof.
  intros Hh. destruct residue, p; unique_unfold; unique_step Hh; eauto.
Qed.

Lemma second_drop_released (residue : after_destructor) (h : slot)
    (p : option addr) (st : State) :
  handles st !! h = Some p →
  second_drop_is_noop residue true h st ↔ residue ≠ LifetimeEnds.
Proof.
  intros Hh. destruct residue, p; unique_unfold; unique_step Hh;
    split; try done; try (intros _; eauto; fail);
    intros (? & ? & [=] & _).
Qed.

Lemma second_drop_not_released (residue : after_destructor) (h : slot)
    (p : option addr) (st : State) :
  handles st !! h = Some p →
  second_drop_is_noop residue false h st ↔
    residue = ResetsToNull ∨ (residue = KeepsPointer ∧ p = None).
Proof.
  intros Hh. destruct residue, p as [a|]; unique_unfold; unique_step Hh; split.
  all: try (intros _; eauto; fail).
  all: try (intros (? & ? & [=] & _); fail).
  all: try (intros [[=]|[[=] [=]]]; fail).
  all: try (intros _; by (left + right)).
  intros (before & after & [= <- <-] & Hd). cbn in Hd.
  exfalso. apply (f_equal length) in Hd. cbn in Hd. lia.
Qed.

(** The double drop of an owning handle, computed for each behaviour of
    the library's destructor. *)
Example double_drop_pointer_kept :
  deleted <$> exec (cxxbridge1_unique_ptr_RE_Calendar_drop KeepsPointer 0 ;;
                    cxxbridge1_unique_ptr_RE_Calendar_drop KeepsPointer 0)
                one_owner = Some [7; 7].
Proof. reflexivity. Qed.

Example double_drop_pointer_reset :
  deleted <$> exec (cxxbridge1_unique_ptr_RE_Calendar_drop ResetsToNull 0 ;;
                    cxxbridge1_unique_ptr_RE_Calendar_drop ResetsToNull 0)
                one_owner = Some [7].
Proof. reflexivity. Qed.

Example double_drop_lifetime_ended :
  exec (cxxbridge1_unique_ptr_RE_Calendar_drop LifetimeEnds 0 ;;
        cxxbridge1_unique_ptr_RE_Calendar_drop LifetimeEnds 0) one_owner = None.
Proof. reflexivity. Qed.

Example drop_release_drop :
  deleted <$> exec (cxxbridge1_unique_ptr_RE_Calendar_drop KeepsPointer 0 ;;
                    cxxbridge1_unique_ptr_RE_Calendar_release 0 ;;
                    cxxbridge1_unique_ptr_RE_Calendar_drop KeepsPointer 0)
                one_owner = Some [7].
Proof. reflexivity. Qed.

(** C3, as stated, fails. With a handle that owns an object: where the
    library's destructor resets or keeps the stored pointer, the second drop
    is a no-op although [release] ran in between; where it keeps the
    pointer, the second drop without a [release] destroys the object again;
    where a dropped handle may not be touched, the second drop without a
    [release] is undefined. *)
Lemma C3_release_between_drops_refuted :
  ¬ (second_drop_is_noop ResetsToNull true 0 one_owner ↔ true = false) ∧
  ¬ (second_drop_is_noop KeepsPointer true 0 one_owner ↔ true = false) ∧
  ¬ (second_drop_is_noop KeepsPointer false 0 one_owner ↔ false = false) ∧
  ¬ (second_drop_is_noop LifetimeEnds false 0 one_owner ↔ false = false).
Proof.
  assert (handles one_owner !! 0 = Some (Some 7)) as Hh by reflexivity.
  split_and!.
  - intros [H _]. by discriminate H; apply (second_drop_released _ _ _ _ Hh).
  - intros [H _]. by discriminate H; apply (second_drop_released _ _ _ _ Hh).
  - intros [_ H]. specialize (H eq_refl).
    apply (second_drop_not_released _ _ _ _ Hh) in H.
    by destruct H as [[=]|[_ [=]]].
  - intros [_ H]. specialize (H eq_refl).
    apply (second_drop_not_released _ _ _ _ Hh) in H.
    by destruct H as [[=]|[[=] _]].
Qed.

(** C3, amended: a drop runs the native destructor exactly when the handle
    holds a non-null pointer, and once; a drop that follows [release] is a
    no-op. So in the double-drop scenario the second drop is a no-op
    whenever [release] was called in between and touching a dropped handle
    is defined at all; with no [release] in between it is a no-op exactly
    when the first drop left a null pointer behind, that is, when the
    library's destructor resets the stored pointer or the handle was null
    from the start. The drops of the three instances are one computation. *)
Theorem C3_drop_destroys_iff_non_null (residue : after_destructor) (h : slot)
    (p : option addr) (st : State) :
  handles st !! h = Some p →
  (∃ st',
     exec (cxxbridge1_unique_ptr_RE_Calendar_drop residue h) st = Some st' ∧
     deleted st' = match p with
                   | Some a => a :: deleted st
                   | None => deleted st
                   end) ∧
  (∃ st',
     exec (cxxbridge1_unique_ptr_RE_Calendar_release h ;;
           cxxbridge1_unique_ptr_RE_Calendar_drop residue h) st = Some st' ∧
     deleted st' = deleted st) ∧
  (second_drop_is_noop residue true h st ↔ residue ≠ LifetimeEnds) ∧
  (second_drop_is_noop residue false h st ↔
     residue = ResetsToNull ∨ (residue = KeepsPointer ∧ p = None)) ∧
  cxxbridge1_unique_ptr_tm_drop residue h =
    cxxbridge1_unique_ptr_RE_Calendar_drop residue h ∧
  cxxbridge1_unique_ptr_std_vector_tm_drop residue h =
    cxxbridge1_unique_ptr_RE_Calendar_drop residue h.
Proof.
  intros Hh. split_and!.
  - by apply drop_destroys_referent.
  - by apply (drop_after_release residue h p).
  - by apply (second_drop_released residue h p).
  - by apply second_drop_not_released.
  - done.
  - done.
Qed.

Lemma C3_witness :
  handles one_owner !! 0 = Some (Some 7) ∧
  (∃ st',
     exec (cxxbridge1_unique_ptr_RE_Calendar_drop KeepsPointer 0) one_owner =
       Some st' ∧
     deleted st' = [7]) ∧
  (∃ st',
     exec (cxxbridge1_unique_ptr_RE_Calendar_release 0 ;;
           cxxbridge1_unique_ptr_RE_Calendar_drop KeepsPointer 0) one_owner =
       Some st' ∧
     deleted st' = []).
Proof.
  split; [reflexivity|].
  pose proof (C3_drop_destroys_iff_non_null KeepsPointer 0 (Some 7) one_owner
                eq_refl) as (Hdrop & Hrel & _).
  split; [exact Hdrop|exact Hrel].
Defined.

(** C4: [release] returns the stored pointer, leaves the handle null, so
    that [get] then returns the null pointer, and destroys nothing; on a
    null handle it returns the null pointer and the handle stays null. No
    other handle changes. The three instances agree. *)
Theorem C4_release_hands_over_the_pointer (h : slot) (p : option addr) (st : State) :
  handles st !! h = Some p →
  ∃ st',
    cxxbridge1_unique_ptr_RE_Calendar_release h st = Some (p, st') ∧
    cxxbridge1_unique_ptr_tm_release h st = Some (p, st') ∧
    cxxbridge1_unique_ptr_std_vector_tm_release h st = Some (p, st') ∧
    handles st' !! h = Some None ∧
    cxxbridge1_unique_ptr_RE_Calendar_get h st' = Some (None, st') ∧
    deleted st' = deleted st ∧
    next_addr st' = next_addr st ∧
    ∀ h', h' ≠ h → handles st' !! h' = handles st !! h'.
Proof.
  intros Hh. exists (set_handles <[h := None]> st).
  unique_unfold; unique_step Hh. split_and!; try done.
  intros h' Hne. by rewrite lookup_insert_ne.
Qed.

Lemma C4_witness :
  handles one_owner !! 0 = Some (Some 7) ∧
  ∃ st',
    cxxbridge1_unique_ptr_RE_Calendar_release 0 one_owner = Some (Some 7, st') ∧
    cxxbridge1_unique_ptr_RE_Calendar_get 0 st' = Some (None, st') ∧
    deleted st' = [].
Proof.
  split; [reflexivity|].
  destruct (C4_release_hands_over_the_pointer 0 (Some 7) one_owner eq_refl)
    as (st' & Hrel & _ & _ & _ & Hget & Hdel & _).
  exists st'. split; [exact Hrel|]. split; [exact Hget|exact Hdel].
Defined.

End UniqueFacts.

(** ** Shared handles and observers *)

Section SharedFacts.
Import Shared.

Lemma shared_ptr_get_spec (self : slot) (st : State) :
  shared_ptr_get self st = (λ x, (stored x, st)) <$> shared st !! self.
Proof.
  unfold shared_ptr_get, bind, shared_at. by destruct (shared st !! self).
Qed.

(** The [tm] instance is the same text at another type. *)
Lemma shared_tm_instance :
  cxxbridge1_shared_ptr_tm_null = cxxbridge1_shared_ptr_RE_Calendar_null ∧
  cxxbridge1_shared_ptr_tm_uninit = cxxbridge1_shared_ptr_RE_Calendar_uninit ∧
  cxxbridge1_shared_ptr_tm_clone = cxxbridge1_shared_ptr_RE_Calendar_clone ∧
  cxxbridge1_shared_ptr_tm_get = cxxbridge1_shared_ptr_RE_Calendar_get ∧
  cxxbridge1_shared_ptr_tm_drop = cxxbridge1_shared_ptr_RE_Calendar_drop ∧
  cxxbridge1_weak_ptr_tm_null = cxxbridge1_weak_ptr_RE_Calendar_null ∧
  cxxbridge1_weak_ptr_tm_clone = cxxbridge1_weak_ptr_RE_Calendar_clone ∧
  cxxbridge1_weak_ptr_tm_downgrade = cxxbridge1_weak_ptr_RE_Calendar_downgrade ∧
  cxxbridge1_weak_ptr_tm_upgrade = cxxbridge1_weak_ptr_RE_Calendar_upgrade ∧
  cxxbridge1_weak_ptr_tm_drop = cxxbridge1_weak_ptr_RE_Calendar_drop.
Proof. by split_and!. Qed.

End SharedFacts.

(** ** Shared handles and observers, with the library's counters *)

Section RefCountFacts.
Import RefCount.

(** *** The counter words *)

Lemma increment_small (n : Z) :
  (0 ≤ n)%Z → (n + 1 < count_modulus)%Z → increment n = (n + 1)%Z.
Proof. intros H0 H1. unfold increment. apply Z.mod_small. lia. Qed.

Lemma decrement_small (n : Z) :
  (0 < n)%Z → (n ≤ count_modulus)%Z → decrement n = (n - 1)%Z.
Proof. intros H0 H1. unfold decrement. apply Z.mod_small. lia. Qed.

Lemma increment_mod (n : Z) :
  increment (n mod count_modulus) = ((n + 1) mod count_modulus)%Z.
Proof. unfold increment. by apply Z.add_mod_idemp_l. Qed.

Lemma decrement_mod (n : Z) :
  decrement (n mod count_modulus) = ((n - 1) mod count_modulus)%Z.
Proof. unfold decrement. apply Zminus_mod_idemp_l. Qed.

Lemma decrement_increment (n : Z) :
  (0 ≤ n < count_modulus)%Z → decrement (increment n) = n.
Proof.
  intros Hn. unfold decrement, increment.
  rewrite Zminus_mod_idemp_l. replace (n + 1 - 1)%Z with n by lia.
  by apply Z.mod_small.
Qed.

(** *** The two instances are the same computation *)

Lemma perform_instance (T : instance) (c : call) :
  perform T c = perform RE_Calendar c.
Proof. by destruct T, c. Qed.

Lemma run_instance (T : instance) (script : list call) :
  run T script = run RE_Calendar script.
Proof.
  induction script as [|c rest IH]; [done|].
  cbn [run]. by rewrite IH, perform_instance.
Qed.

Lemma run_app (T : instance) (s1 s2 : list call) (st : State) :
  run T (s1 ++ s2) st = (run T s1 ;; run T s2) st.
Proof.
  revert st. induction s1 as [|c s1 IH]; intros st; [done|].
  cbn [run app]. unfold bind.
  destruct (perform T c st) as [[[] st1]|]; [|done]. by rewrite IH.
Qed.

(** *** What the library calls do to a block *)

Lemma add_ref_copy_spec (x : handle) (c : block_id) (b : control_block) (st : State) :
  owner x = Some c → blocks st !! c = Some b →
  add_ref_copy x st =
    Some (tt, set_blocks <[c := with_uses (increment (uses b)) b]> st).
Proof.
  intros Hc Hb. unfold add_ref_copy, bind, block_at, modify. by rewrite Hc, Hb.
Qed.

Lemma weak_add_ref_spec (x : handle) (c : block_id) (b : control_block) (st : State) :
  owner x = Some c → blocks st !! c = Some b →
  weak_add_ref x st =
    Some (tt, set_blocks <[c := with_weaks (increment (weaks b)) b]> st).
Proof.
  intros Hc Hb. unfold weak_add_ref, bind, block_at, modify. by rewrite Hc, Hb.
Qed.

Lemma weak_release_block_spec (c : block_id) (b : control_block) (st : State) :
  blocks st !! c = Some b →
  weak_release_block c st =
    Some (tt, set_blocks
                (if (decrement (weaks b) =? 0)%Z then delete c
                 else <[c := with_weaks (decrement (weaks b)) b]>) st).
Proof.
  intros Hb. unfold weak_release_block, bind, block_at, modify. rewrite Hb.
  by destruct (decrement (weaks b) =? 0)%Z.
Qed.

Lemma release_spec (x : handle) (c : block_id) (b : control_block) (st : State) :
  owner x = Some c → blocks st !! c = Some b → decrement (uses b) ≠ 0%Z →
  release x st =
    Some (tt, set_blocks <[c := with_uses (decrement (uses b)) b]> st).
Proof.
  intros Hc Hb Hu. unfold release, bind, block_at, modify, ret.
  rewrite Hc, Hb. by destruct (Z.eqb_spec (decrement (uses b)) 0).
Qed.

Lemma release_last_spec (x : handle) (c : block_id) (b : control_block) (st : State) :
  owner x = Some c → blocks st !! c = Some b → decrement (uses b) = 0%Z →
  release x st =
    Some (tt,
          {| storage := storage st;
             blocks := if (decrement (weaks b) =? 0)%Z then delete c (blocks st)
                       else <[c := {| managed := managed b; uses := 0;
                                      weaks := decrement (weaks b) |}]> (blocks st);
             deleted := managed b :: deleted st;
             next_addr := next_addr st; next_block := next_block st |}).
Proof.
  intros Hc Hb Hu. unfold release, bind, block_at, modify, delete_managed.
  rewrite Hc, Hb, Hu. cbn [Z.eqb]. unfold modify. cbv beta iota.
  rewrite (weak_release_block_spec c (with_uses 0 b)); [|apply lookup_insert_eq].
  unfold set_blocks. cbn [storage blocks deleted next_addr next_block weaks with_uses].
  do 2 f_equal. destruct (decrement (weaks b) =? 0)%Z.
  - by rewrite delete_insert_eq.
  - by rewrite insert_insert_eq.
Qed.

Lemma weak_ptr_lock_storage (w : slot) (st st' : State) (tmp : handle) :
  weak_ptr_lock w st = Some (tmp, st') → storage st' = storage st.
Proof.
  unfold weak_ptr_lock, add_ref_lock_nothrow, bind, weak_at, block_at, modify, ret.
  destruct (storage st !! w) as [[x|x]|]; try done.
  destruct (owner x) as [c|]; [|by intros [= _ <-]].
  destruct (blocks st !! c) as [b|]; [|done].
  destruct (uses b =? 0)%Z; [by intros [= _ <-]|].
  cbn. rewrite lookup_insert_eq. by intros [= _ <-].
Qed.

(** *** Lists of outstanding handles *)

Lemma filter_ne_absent (hs : list slot) (h : slot) :
  h ∉ hs → filter (λ x, x ≠ h) hs = hs.
Proof.
  induction hs as [|x hs IH]; [done|].
  intros [Hne Hnotin]%not_elem_of_cons.
  rewrite filter_cons_True by done. f_equal. by apply IH.
Qed.

Lemma length_filter_ne (hs : list slot) (h : slot) :
  NoDup hs → h ∈ hs → S (length (filter (λ x, x ≠ h) hs)) = length hs.
Proof.
  induction 1 as [|x hs Hx Hnd IH]; [by intros ?%elem_of_nil|].
  intros [->|Hin]%elem_of_cons.
  - rewrite filter_cons_False by (intros ?; done).
    by rewrite filter_ne_absent.
  - assert (x ≠ h) by (intros ->; done).
    rewrite filter_cons_True by done. simpl. f_equal. by apply IH.
Qed.

Lemma outstanding_nil (script : list call) (hs' : list slot) :
  outstanding [] script = Some hs' → script = [] ∧ hs' = [].
Proof.
  destruct script as [|[] rest]; simpl; [|done..].
  by intros [= <-].
Qed.

Lemma outstanding_app (hs : list slot) (s1 s2 : list call) :
  outstanding hs (s1 ++ s2) = hs1 ← outstanding hs s1; outstanding hs1 s2.
Proof.
  revert hs. induction s1 as [|[] s1 IH]; intros hs; simpl; try done.
  - destruct (_ && _); [apply IH|done].
  - destruct (bool_decide _); [apply IH|done].
Qed.

Lemma outstanding_NoDup (script : list call) (hs hs' : list slot) :
  NoDup hs → outstanding hs script = Some hs' → NoDup hs'.
Proof.
  revert hs. induction script as [|[] rest IH]; intros hs Hnd; simpl; try done.
  - by intros [= <-].
  - destruct (bool_decide (self ∈ hs)); [|done].
    destruct (bool_decide_reflect (ptr ∉ hs)); [|done]. simpl.
    apply IH. by constructor.
  - destruct (bool_decide (self ∈ hs)); [|done].
    apply IH. by apply NoDup_filter.
Qed.

Lemma outstanding_clones (cs : list (slot * slot)) (hs hs' : list slot) :
  outstanding hs (map (λ c, Clone c.1 c.2) cs) = Some hs' →
  length hs' = length hs + length cs.
Proof.
  revert hs. induction cs as [|[self ptr] cs IH]; intros hs; simpl.
  - intros [= <-]. lia.
  - destruct (_ && _); [|done]. intros ->%IH. simpl. lia.
Qed.

Lemma outstanding_drops (ds : list slot) (hs hs' : list slot) :
  NoDup hs →
  outstanding hs (map Drop ds) = Some hs' →
  length hs' + length ds = length hs.
Proof.
  revert hs. induction ds as [|self ds IH]; intros hs Hnd; simpl.
  - intros [= <-]. lia.
  - destruct (bool_decide_reflect (self ∈ hs)) as [Hin|]; [|done].
    intros H%IH; [|by apply NoDup_filter].
    pose proof (length_filter_ne hs self Hnd Hin). lia.
Qed.

Lemma peak_first (hs : list slot) (script : list call) :
  length hs ≤ peak hs script.
Proof. destruct script as [|[] rest]; simpl; lia. Qed.

Lemma peak_app (hs hs1 : list slot) (s1 s2 : list call) :
  outstanding hs s1 = Some hs1 →
  peak hs (s1 ++ s2) = peak hs s1 `max` peak hs1 s2.
Proof.
  revert hs. induction s1 as [|[] s1 IH]; intros hs; simpl; try done.
  - intros [= <-]. pose proof (peak_first hs s2). lia.
  - destruct (_ && _); [|done]. intros ->%IH. lia.
  - destruct (bool_decide _); [|done]. intros ->%IH. lia.
Qed.

Lemma peak_clones (cs : list (slot * slot)) (hs : list slot) :
  peak hs (map (λ c, Clone c.1 c.2) cs) = length hs + length cs.
Proof.
  revert hs. induction cs as [|[self ptr] cs IH]; intros hs; simpl; [lia|].
  rewrite IH. simpl. lia.
Qed.

Lemma peak_drops (ds : list slot) (hs : list slot) :
  peak hs (map Drop ds) = length hs.
Proof.
  revert hs. induction ds as [|self ds IH]; intros hs; simpl; [done|].
  rewrite IH. pose proof (length_filter (λ h, h ≠ self) hs). lia.
Qed.

(** *** One call on a tracked referent *)

Section Tracked.
Variables (a : addr) (c : block_id).

Lemma owners_lookup (w : Z) (hs : list slot) (st : State) (h : slot) :
  owners a c w hs st → h ∈ hs →
  storage st !! h = Some (shared_ptr {| stored := Some a; owner := Some c |}).
Proof. intros (_ & Hall & _) Hin. by eapply Forall_forall in Hall. Qed.

Lemma clone_tracked (T : instance) (w : Z) (hs : list slot) (st : State)
    (self ptr : slot) :
  owners a c w hs st → self ∈ hs → ptr ∉ hs →
  ∃ st',
    perform T (Clone self ptr) st = Some (tt, st') ∧
    owners a c w (ptr :: hs) st' ∧
    deleted st' = deleted st ∧
    ∀ h, h ≠ ptr → storage st' !! h = storage st !! h.
Proof.
  intros Hown Hself Hptr.
  pose proof (owners_lookup _ _ _ _ Hown Hself) as Hh.
  destruct Hown as (Hnd & Hall & Hb).
  eexists. split.
  { rewrite perform_instance. cbn [perform].
    unfold cxxbridge1_shared_ptr_RE_Calendar_clone, shared_ptr_new_copy,
      bind, shared_at, modify.
    rewrite Hh. erewrite add_ref_copy_spec by done. reflexivity. }
  split; [|split; [done|]].
  - unfold owners; cbn. split_and!.
    + by constructor.
    + constructor; [by rewrite lookup_insert_eq|].
      eapply Forall_impl; [exact Hall|]. intros h Hl. cbn in Hl.
      destruct (decide (ptr = h)) as [->|Hne];
        [by rewrite lookup_insert_eq|by rewrite lookup_insert_ne].
    + rewrite lookup_insert_eq. unfold with_uses. cbn.
      rewrite increment_mod. do 3 f_equal. lia.
  - intros h Hne. cbn. by rewrite lookup_insert_ne.
Qed.

Lemma drop_tracked (T : instance) (w : Z) (hs : list slot) (st : State)
    (self : slot) :
  owners a c w hs st → self ∈ hs →
  ((Z.of_nat (length hs) - 1) mod count_modulus ≠ 0)%Z →
  ∃ st',
    perform T (Drop self) st = Some (tt, st') ∧
    owners a c w (filter (λ h, h ≠ self) hs) st' ∧
    deleted st' = deleted st ∧
    ∀ h, h ≠ self → storage st' !! h = storage st !! h.
Proof.
  intros Hown Hself Hlen.
  pose proof (owners_lookup _ _ _ _ Hown Hself) as Hh.
  destruct Hown as (Hnd & Hall & Hb).
  pose proof (length_filter_ne hs self Hnd Hself) as Hfl.
  eexists. split.
  { rewrite perform_instance. cbn [perform].
    unfold cxxbridge1_shared_ptr_RE_Calendar_drop, shared_ptr_destroy,
      bind, shared_at, modify.
    rewrite Hh. erewrite release_spec; [reflexivity|done|done|].
    cbn [uses]. by rewrite decrement_mod. }
  split; [|split; [done|]].
  - unfold owners; cbn. split_and!.
    + by apply NoDup_filter.
    + apply Forall_forall. intros h [Hne Hin]%list_elem_of_filter.
      rewrite lookup_delete_ne by done. by eapply Forall_forall in Hall.
    + rewrite lookup_insert_eq. unfold with_uses. cbn.
      rewrite decrement_mod. do 3 f_equal. lia.
  - intros h Hne. cbn. by rewrite lookup_delete_ne.
Qed.

Lemma drop_last_tracked (T : instance) (w : Z) (hs : list slot) (st : State)
    (self : slot) :
  owners a c w hs st → self ∈ hs →
  ((Z.of_nat (length hs) - 1) mod count_modulus = 0)%Z →
  ∃ st',
    perform T (Drop self) st = Some (tt, st') ∧
    deleted st' = a :: deleted st ∧
    storage st' = delete self (storage st) ∧
    blocks st' !! c =
      (if (decrement w =? 0)%Z then None
       else Some {| managed := a; uses := 0; weaks := decrement w |}).
Proof.
  intros Hown Hself Hlen.
  pose proof (owners_lookup _ _ _ _ Hown Hself) as Hh.
  destruct Hown as (Hnd & Hall & Hb).
  eexists. split.
  { rewrite perform_instance. cbn [perform].
    unfold cxxbridge1_shared_ptr_RE_Calendar_drop, shared_ptr_destroy,
      bind, shared_at, modify.
    rewrite Hh. erewrite release_last_spec; [reflexivity|done|done|].
    cbn [uses]. by rewrite decrement_mod. }
  cbn. split_and!; try done.
  destruct (decrement w =? 0)%Z;
    [by rewrite lookup_delete_eq|by rewrite lookup_insert_eq].
Qed.

(** *** A script of calls on a tracked referent *)

(** Clones alone keep the referent tracked, however many there are: the use
    word is the number of handles, as far as a word can hold it. *)
Lemma run_clones_tracked (T : instance) (cs : list (slot * slot)) (w : Z)
    (hs hs' : list slot) (st : State) :
  owners a c w hs st →
  outstanding hs (map (λ c, Clone c.1 c.2) cs) = Some hs' →
  ∃ st',
    run T (map (λ c, Clone c.1 c.2) cs) st = Some (tt, st') ∧
    owners a c w hs' st' ∧
    deleted st' = deleted st ∧
    ∀ h, h ∉ hs' → storage st' !! h = storage st !! h.
Proof.
  revert hs st. induction cs as [|[self ptr] cs IH]; intros hs st Hown; simpl.
  - intros [= <-]. by exists st.
  - destruct (bool_decide_reflect (self ∈ hs)) as [Hself|]; [|done].
    destruct (bool_decide_reflect (ptr ∉ hs)) as [Hptr|]; [|done]. simpl.
    intros Hout.
    destruct (clone_tracked T w hs st self ptr Hown Hself Hptr)
      as (st1 & Hrun & Hown1 & Hdel & Hframe).
    destruct (IH (ptr :: hs) st1 Hown1 Hout) as (st' & Hrun' & Hown' & Hdel' & Hframe').
    exists st'. split_and!.
    + unfold bind. by rewrite Hrun.
    + done.
    + congruence.
    + intros h Hh. rewrite Hframe' by done. apply Hframe. intros ->.
      apply Hh. clear -Hout.
      assert (∀ cs hs hs', outstanding hs (map (λ c, Clone c.1 c.2) cs) = Some hs' →
                           hs ⊆ hs') as Hsub.
      { clear. induction cs as [|[s p] cs IH]; intros hs hs'; simpl.
        - by intros [= <-].
        - destruct (_ && _); [|done]. intros H%IH. set_solver. }
      apply (Hsub _ _ _ Hout). by left.
Qed.

(** Any script of clones and drops, while the handles are no more than the
    use word can count. *)
Lemma run_tracked (T : instance) (script : list call) (w : Z)
    (hs hs' : list slot) (st : State) :
  hs ≠ [] →
  owners a c w hs st →
  outstanding hs script = Some hs' →
  (Z.of_nat (peak hs script) ≤ count_modulus)%Z →
  ∃ st',
    run T script st = Some (tt, st') ∧
    (∀ h, h ∉ hs → h ∉ constructed script → storage st' !! h = storage st !! h) ∧
    match hs' with
    | [] =>
        deleted st' = a :: deleted st ∧
        blocks st' !! c =
          (if (decrement w =? 0)%Z then None
           else Some {| managed := a; uses := 0; weaks := decrement w |})
    | _ :: _ => owners a c w hs' st' ∧ deleted st' = deleted st
    end.
Proof.
  revert hs st. induction script as [|[] rest IH];
    intros hs st Hne Hown; simpl; try done.
  - intros [= <-] _. exists st. split_and!; try done. by destruct hs.
  - destruct (bool_decide_reflect (self ∈ hs)) as [Hself|]; [|done].
    destruct (bool_decide_reflect (ptr ∉ hs)) as [Hptr|]; [|done]. simpl.
    intros Hout Hpeak.
    destruct (clone_tracked T w hs st self ptr Hown Hself Hptr)
      as (st1 & Hrun & Hown1 & Hdel & Hframe).
    destruct (IH (ptr :: hs) st1 ltac:(done) Hown1 Hout ltac:(lia))
      as (st' & Hrun' & Hframe' & Hend).
    exists st'. split_and!.
    + unfold bind. by rewrite Hrun.
    + intros h Hh Hc. apply not_elem_of_cons in Hc as [Hne' Hc].
      rewrite Hframe'; [by apply Hframe| |done].
      apply not_elem_of_cons. done.
    + destruct hs'; by rewrite <- Hdel.
  - destruct (bool_decide_reflect (self ∈ hs)) as [Hself|]; [|done].
    intros Hout Hpeak.
    pose proof (length_filter_ne hs self (proj1 Hown) Hself) as Hfl.
    pose proof (peak_first (filter (λ h, h ≠ self) hs) rest) as Hfirst.
    destruct (decide (2 ≤ length hs)) as [Hlen|Hlen].
    + assert ((Z.of_nat (length hs) - 1) mod count_modulus ≠ 0)%Z as Hmod.
      { rewrite Z.mod_small by lia. lia. }
      destruct (drop_tracked T w hs st self Hown Hself Hmod)
        as (st1 & Hrun & Hown1 & Hdel & Hframe).
      assert (filter (λ h, h ≠ self) hs ≠ []) as Hne1.
      { intros Heq. rewrite Heq in *. simpl in *. lia. }
      destruct (IH _ st1 Hne1 Hown1 Hout ltac:(lia))
        as (st' & Hrun' & Hframe' & Hend).
      exists st'. split_and!.
      * unfold bind. by rewrite Hrun.
      * intros h Hh Hc. rewrite Hframe'; [|by intros [_ ?]%list_elem_of_filter|done].
        apply Hframe. by intros ->.
      * destruct hs'; by rewrite <- Hdel.
    + assert (hs = [self]) as ->.
      { destruct hs as [|x [|y hs]]; [done| |simpl in Hlen; lia].
        by apply list_elem_of_singleton in Hself as ->. }
      rewrite filter_cons_False, filter_nil in Hout by (intros ?; done).
      apply outstanding_nil in Hout as [-> ->].
      destruct (drop_last_tracked T w [self] st self Hown Hself eq_refl)
        as (st' & Hrun & Hdel & Hsto & Hblock).
      exists st'. split_and!; try done.
      * cbn [run]. unfold bind. by rewrite Hrun.
      * intros h Hh _. rewrite Hsto. apply lookup_delete_ne.
        intros ->. apply Hh. by left.
Qed.

Lemma downgrade_tracked (T : instance) (w : Z) (hs : list slot) (st : State)
    (sh wk : slot) :
  owners a c w hs st → sh ∈ hs → wk ∉ hs →
  ∃ st',
    perform T (Downgrade sh wk) st = Some (tt, st') ∧
    owners a c (increment w) hs st' ∧
    deleted st' = deleted st ∧
    storage st' !! wk = Some (weak_ptr {| stored := Some a; owner := Some c |}).
Proof.
  intros Hown Hsh Hwk.
  pose proof (owners_lookup _ _ _ _ Hown Hsh) as Hh.
  destruct Hown as (Hnd & Hall & Hb).
  eexists. split.
  { rewrite perform_instance. cbn [perform].
    unfold cxxbridge1_weak_ptr_RE_Calendar_downgrade, weak_ptr_new_from_shared,
      bind, shared_at, modify.
    rewrite Hh. erewrite weak_add_ref_spec by done. reflexivity. }
  cbn. split_and!; try done.
  - unfold owners; cbn. split_and!; [done| |by rewrite lookup_insert_eq].
    eapply Forall_impl; [apply Forall_forall; intros h Hin; exact (conj Hin I)|].
    cbn. intros h [Hin _]. rewrite lookup_insert_ne by (by intros ->).
    by eapply Forall_forall in Hall.
  - by rewrite lookup_insert_eq.
Qed.

Lemma upgrade_expired (T : instance) (st : State) (wk sh : slot) (b : control_block) :
  storage st !! wk = Some (weak_ptr {| stored := Some a; owner := Some c |}) →
  blocks st !! c = Some b →
  uses b = 0%Z →
  ∃ st',
    perform T (Upgrade wk sh) st = Some (tt, st') ∧
    storage st' !! sh = Some (shared_ptr empty_handle) ∧
    deleted st' = deleted st ∧
    blocks st' = blocks st.
Proof.
  intros Hw Hb Huse. eexists. split.
  { rewrite perform_instance. cbn [perform].
    unfold cxxbridge1_weak_ptr_RE_Calendar_upgrade, weak_ptr_lock,
      add_ref_lock_nothrow, shared_ptr_new_move, bind, weak_at, block_at,
      modify, ret.
    rewrite Hw. cbn [owner]. rewrite Hb, Huse. reflexivity. }
  cbn. by rewrite lookup_insert_eq.
Qed.

Lemma upgrade_live (T : instance) (st : State) (wk sh : slot) (b : control_block) :
  storage st !! wk = Some (weak_ptr {| stored := Some a; owner := Some c |}) →
  blocks st !! c = Some b →
  uses b ≠ 0%Z →
  increment (uses b) ≠ 0%Z →
  ∃ st',
    perform T (Upgrade wk sh) st = Some (tt, st') ∧
    storage st' !! sh = Some (shared_ptr {| stored := Some a; owner := Some c |}) ∧
    deleted st' = deleted st ∧
    blocks st' !! c = Some (with_uses (increment (uses b)) b).
Proof.
  intros Hw Hb Huse Hinc. eexists. split.
  { rewrite perform_instance. cbn [perform].
    unfold cxxbridge1_weak_ptr_RE_Calendar_upgrade, weak_ptr_lock,
      add_ref_lock_nothrow, shared_ptr_new_move, bind, weak_at, block_at,
      modify, ret.
    rewrite Hw. cbn [owner]. rewrite Hb.
    destruct (Z.eqb_spec (uses b) 0) as [|_]; [exfalso; done|].
    cbn [blocks set_blocks]. rewrite lookup_insert_eq. cbn [uses with_uses stored].
    destruct (Z.eqb_spec (increment (uses b)) 0) as [|_]; [exfalso; done|].
    reflexivity. }
  cbn. by rewrite !lookup_insert_eq.
Qed.

End Tracked.

Lemma destructions_cons (a : addr) (st st' : State) :
  deleted st' = a :: deleted st → destructions a st' = S (destructions a st).
Proof.
  intros H. unfold destructions. rewrite H.
  by rewrite filter_cons_True.
Qed.

Lemma destructions_same (a : addr) (st st' : State) :
  deleted st' = deleted st → destructions a st' = destructions a st.
Proof. intros H. unfold destructions. by rewrite H. Qed.


Lemma peak_last (script : list call) (hs hs' : list slot) :
  outstanding hs script = Some hs' → length hs' ≤ peak hs script.
Proof.
  revert hs. induction script as [|[] rest IH]; intros hs; simpl; try done.
  - by intros [= <-].
  - destruct (_ && _); [|done]. intros ?%IH. lia.
  - destruct (bool_decide _); [|done]. intros ?%IH. lia.
Qed.

(** The clones of the handle at 0 into the [n] locations from [first] on. *)
Lemma outstanding_clones_of_0 (n first : nat) (hs : list slot) :
  0 ∈ hs → (∀ h, h ∈ hs → h < first) →
  ∃ hs',
    outstanding hs (map (λ c, Clone c.1 c.2) (clones_of_0 first n)) = Some hs' ∧
    ∀ h, h ∈ hs' ↔ h ∈ hs ∨ first ≤ h < first + n.
Proof.
  revert first hs. induction n as [|n IH]; intros first hs H0 Hbelow.
  - exists hs. split; [done|]. intros h. split; [by left|]. intros [?|?]; [done|lia].
  - unfold clones_of_0. cbn [seq fmap list_fmap map fst snd outstanding].
    rewrite bool_decide_eq_true_2 by done.
    rewrite bool_decide_eq_true_2 by (intros ?%Hbelow; lia).
    cbn [andb].
    destruct (IH (S first) (first :: hs)) as (hs' & Hout & Hin).
    { by right. }
    { intros h [->|?%Hbelow]%elem_of_cons; lia. }
    exists hs'. split; [exact Hout|].
    intros h. rewrite Hin, elem_of_cons. split.
    + intros [[->|?]|?]; [right; lia|by left|right; lia].
    + intros [?|?]; [left; by right|].
      destruct (decide (h = first)) as [->|?]; [left; by left|right; lia].
Qed.

Lemma one_handle_owners : owners 0 0 1 [0] one_handle.
Proof. split_and!; [apply NoDup_singleton|by constructor|reflexivity]. Qed.

Example one_handle_is_made_by_uninit :
  cxxbridge1_shared_ptr_RE_Calendar_uninit 0 empty_heap = Some (0, one_handle) ∧
  cxxbridge1_shared_ptr_tm_uninit 0 empty_heap = Some (0, one_handle).
Proof. split; reflexivity. Qed.

(** Where the use word wraps: [n] clones, for [n] the modulus of the
    counter, leave the use word at one, and the first drop destroys the
    object. *)
Lemma wrapped_drop_destroys (T : instance) (n : nat) :
  Z.of_nat n = count_modulus →
  owners 0 0 1 [0] one_handle ∧
  is_Some (outstanding [0] (clones_then_drops (clones_of_0 1 n) [0])) ∧
  ∃ st',
    exec (run T (clones_then_drops (clones_of_0 1 n) [0])) one_handle = Some st' ∧
    destructions 0 st' = 1 ∧
    ∀ h, 1 ≤ h ≤ n →
      storage st' !! h = Some (shared_ptr {| stored := Some 0; owner := Some 0 |}).
Proof.
  intros Hn. pose proof one_handle_owners as Hown.
  destruct (outstanding_clones_of_0 n 1 [0]) as (hs' & Hout & Hin).
  { by left. }
  { intros h ->%list_elem_of_singleton. lia. }
  pose proof (outstanding_clones _ _ _ Hout) as Hlen.
  unfold clones_of_0 in Hlen. rewrite length_fmap, length_seq in Hlen.
  cbn [length] in Hlen.
  assert (0 ∈ hs') as H0 by (apply Hin; left; by left).
  pose proof (outstanding_NoDup _ _ _ (proj1 Hown) Hout) as Hnd.
  destruct (run_clones_tracked 0 0 T _ 1 [0] hs' one_handle Hown Hout)
    as (st1 & Hrun1 & Hown1 & Hdel1 & _).
  assert ((Z.of_nat (length hs') - 1) mod count_modulus = 0)%Z as Hwrap.
  { replace (Z.of_nat (length hs') - 1)%Z with count_modulus by lia.
    apply Z_mod_same_full. }
  destruct (drop_last_tracked 0 0 T 1 hs' st1 0 Hown1 H0 Hwrap)
    as (st' & Hrun2 & Hdel2 & Hsto & _).
  split; [done|]. split.
  { unfold clones_then_drops. rewrite outstanding_app, Hout. cbn.
    rewrite bool_decide_eq_true_2 by done. by eexists. }
  exists st'. split_and!.
  - unfold clones_then_drops, exec. rewrite run_app. unfold bind.
    rewrite Hrun1. cbn [map run]. unfold bind. by rewrite Hrun2.
  - unfold destructions. rewrite Hdel2, Hdel1. reflexivity.
  - intros h Hh. rewrite Hsto, lookup_delete_ne by lia.
    apply (owners_lookup 0 0 1 hs' st1 h Hown1). apply Hin. right. lia.
Qed.

(** C1, as stated, fails where the use word wraps around. From the one
    handle that [uninit] made at location 0, [2^32] clones into the
    locations from 1 on bring the 32-bit use word back to one; the drop of
    the handle at 0 then destroys the object, although the [2^32] clones are
    outstanding and still hold its address. *)
Lemma C1_wrapped_count_destroys_early :
  owners 0 0 1 [0] one_handle ∧
  is_Some (outstanding [0]
             (clones_then_drops (clones_of_0 1 (Z.to_nat count_modulus)) [0])) ∧
  ∃ st',
    exec (run RE_Calendar
            (clones_then_drops (clones_of_0 1 (Z.to_nat count_modulus)) [0]))
      one_handle = Some st' ∧
    destructions 0 st' = 1 ∧
    ∀ h, 1 ≤ h ≤ Z.to_nat count_modulus →
      storage st' !! h = Some (shared_ptr {| stored := Some 0; owner := Some 0 |}).
Proof.
  exact (wrapped_drop_destroys RE_Calendar (Z.to_nat count_modulus)
           (Z2Nat.id count_modulus ltac:(done))).
Qed.

(** C1, amended: for each of the two instances, from one live shared
    handle, after [N] clones, [N] below [2^32], and then [k] drops of
    outstanding handles, the referent has been destroyed once if
    [k = N + 1], which is when no handle is outstanding any more, and not at
    all if [k < N + 1]; no more than [N + 1] drops are possible. Every call
    of the script is defined. *)
Theorem C1_last_release_destroys_once (T : instance) (a : addr) (c : block_id)
    (w : Z) (s0 : slot) (st : State) (cs : list (slot * slot)) (ds : list slot) :
  owners a c w [s0] st →
  is_Some (outstanding [s0] (clones_then_drops cs ds)) →
  (Z.of_nat (length cs) < count_modulus)%Z →
  length ds ≤ S (length cs) ∧
  ∀ k, k ≤ length ds →
    ∃ st',
      exec (run T (clones_then_drops cs (take k ds))) st = Some st' ∧
      destructions a st' =
        destructions a st + (if decide (k = S (length cs)) then 1 else 0).
Proof.
  intros Hown [hs' Hout] Hbound. unfold clones_then_drops in *.
  rewrite outstanding_app in Hout.
  destruct (outstanding [s0] (map _ cs)) as [hs1|] eqn:Hcl; [|done].
  simpl in Hout.
  pose proof (outstanding_clones _ _ _ Hcl) as Hlen1. simpl in Hlen1.
  pose proof (outstanding_NoDup _ _ _ (proj1 Hown) Hcl) as Hnd1.
  pose proof (outstanding_drops _ _ _ Hnd1 Hout) as Hlen.
  split; [lia|]. intros k Hk.
  rewrite <- (take_drop k ds), map_app, outstanding_app in Hout.
  destruct (outstanding hs1 (map Drop (take k ds))) as [hsk|] eqn:Hdr; [|done].
  pose proof (outstanding_drops _ _ _ Hnd1 Hdr) as Hlenk.
  rewrite length_take in Hlenk.
  assert (outstanding [s0] (map (λ c, Clone c.1 c.2) cs ++ map Drop (take k ds))
          = Some hsk) as Hscript.
  { rewrite outstanding_app, Hcl. done. }
  assert (peak [s0] (map (λ c, Clone c.1 c.2) cs ++ map Drop (take k ds))
          = S (length cs)) as Hpeak.
  { rewrite (peak_app _ _ _ _ Hcl), peak_clones, peak_drops. simpl. lia. }
  destruct (run_tracked a c T _ w [s0] hsk st ltac:(done) Hown Hscript
              ltac:(rewrite Hpeak; lia))
    as (st' & Hrun & _ & Hend).
  exists st'. split; [unfold exec; by rewrite Hrun|].
  destruct hsk as [|h hsk]; simpl in Hlenk.
  - destruct Hend as [Hdel _]. rewrite decide_True by lia.
    rewrite (destructions_cons _ _ _ Hdel). lia.
  - destruct Hend as [_ Hdel]. rewrite decide_False by lia.
    rewrite (destructions_same _ _ _ Hdel). lia.
Qed.

Lemma C1_witness :
  owners 0 0 1 [0] one_handle ∧
  is_Some (outstanding [0] (clones_then_drops [(0, 1); (1, 2)] [1; 0; 2])) ∧
  (∃ st',
     exec (run tm (clones_then_drops [(0, 1); (1, 2)] [1; 0])) one_handle = Some st' ∧
     destructions 0 st' = 0) ∧
  (∃ st',
     exec (run tm (clones_then_drops [(0, 1); (1, 2)] [1; 0; 2])) one_handle = Some st' ∧
     destructions 0 st' = 1).
Proof.
  assert (owners 0 0 1 [0] one_handle) as Hown.
  { split_and!; [apply NoDup_singleton|by constructor|reflexivity]. }
  assert (is_Some (outstanding [0]
                     (clones_then_drops [(0, 1); (1, 2)] [1; 0; 2]))) as Hout.
  { by eexists. }
  split; [exact Hown|]. split; [exact Hout|].
  pose proof (proj2 (C1_last_release_destroys_once tm 0 0 1 0 one_handle
                       [(0, 1); (1, 2)] [1; 0; 2] Hown Hout eq_refl)) as Hk.
  split.
  - exact (Hk 2 ltac:(simpl; lia)).
  - exact (Hk 3 ltac:(simpl; lia)).
Defined.

(** Where the use word wraps: with [n + 1] handles outstanding, for [n + 1]
    the modulus of the counter, the use word reads zero and [upgrade] takes
    the referent for expired. *)
Lemma wrapped_upgrade_fails (T : instance) (n : nat) :
  (Z.of_nat n = count_modulus - 1)%Z →
  owners 0 0 1 [0] one_handle ∧
  0 ∈ [0] ∧
  (∃ hs',
     outstanding [0] (clones_then_drops (clones_of_0 3 n) []) = Some hs' ∧
     hs' ≠ []) ∧
  ∃ st',
    exec (perform T (Downgrade 0 1) ;;
          run T (clones_then_drops (clones_of_0 3 n) []) ;;
          perform T (Upgrade 1 2)) one_handle = Some st' ∧
    storage st' !! 2 = Some (shared_ptr empty_handle) ∧
    destructions 0 st' = 0 ∧
    storage st' !! 0 =
      Some (shared_ptr {| stored := Some 0; owner := Some 0 |}) ∧
    ∀ h, 3 ≤ h < 3 + n →
      storage st' !! h = Some (shared_ptr {| stored := Some 0; owner := Some 0 |}).
Proof.
  intros Hn. pose proof one_handle_owners as Hown.
  unfold clones_then_drops. cbn [map]. rewrite app_nil_r.
  destruct (outstanding_clones_of_0 n 3 [0]) as (hs' & Hout & Hin).
  { by left. }
  { intros h ->%list_elem_of_singleton. lia. }
  pose proof (outstanding_clones _ _ _ Hout) as Hlen.
  unfold clones_of_0 in Hlen. rewrite length_fmap, length_seq in Hlen.
  cbn [length] in Hlen.
  assert (0 ∈ hs') as H0 by (apply Hin; left; by left).
  destruct (downgrade_tracked 0 0 T 1 [0] one_handle 0 1 Hown)
    as (st1 & Hrun1 & Hown1 & Hdel1 & Hwk1).
  { by left. }
  { intros ?%list_elem_of_singleton. lia. }
  destruct (run_clones_tracked 0 0 T _ _ [0] hs' st1 Hown1 Hout)
    as (st2 & Hrun2 & Hown2 & Hdel2 & Hframe2).
  assert (storage st2 !! 1 =
            Some (weak_ptr {| stored := Some 0; owner := Some 0 |})) as Hwk2.
  { rewrite Hframe2; [done|]. intros [?%list_elem_of_singleton|?]%Hin; lia. }
  destruct Hown2 as (Hnd2 & Hall2 & Hb2).
  destruct (upgrade_expired 0 0 T st2 1 2 _ Hwk2 Hb2) as (st' & Hrun3 & Hout3 & Hdel3 & _).
  { cbn [uses]. replace (Z.of_nat (length hs')) with count_modulus by lia.
    apply Z_mod_same_full. }
  assert (∀ h, h ∈ hs' → h ≠ 2 →
            storage st' !! h =
              Some (shared_ptr {| stored := Some 0; owner := Some 0 |})) as Hlive.
  { intros h Hh Hne. rewrite perform_instance in Hrun3. cbn [perform] in Hrun3.
    unfold cxxbridge1_weak_ptr_RE_Calendar_upgrade, bind in Hrun3.
    destruct (weak_ptr_lock 1 st2) as [[tmp st3]|] eqn:Hlock; [|done].
    injection Hrun3 as <-.
    pose proof (weak_ptr_lock_storage _ _ _ _ Hlock) as Hsame.
    cbn. rewrite lookup_insert_ne by done. rewrite Hsame.
    by eapply Forall_forall in Hall2. }
  split; [done|]. split; [by left|]. split.
  { exists hs'. split; [done|]. intros ->. by apply elem_of_nil in H0. }
  exists st'. split_and!.
  - unfold exec, bind. rewrite Hrun1, Hrun2, Hrun3. done.
  - done.
  - unfold destructions. by rewrite Hdel3, Hdel2, Hdel1.
  - by apply Hlive.
  - intros h Hh. apply Hlive; [|lia]. apply Hin. by right.
Qed.

(** C2, as stated, fails where the use word wraps around. An observer is
    made from the one handle at location 0, and the handle is cloned
    [2^32 - 1] times, into the locations from 3 on. With [2^32] shared
    handles outstanding the 32-bit use word reads zero, and [upgrade] writes
    the empty handle, although the referent was not destroyed and the
    handles still hold it. *)
Lemma C2_wrapped_count_looks_expired :
  owners 0 0 1 [0] one_handle ∧
  0 ∈ [0] ∧
  (∃ hs',
     outstanding [0]
       (clones_then_drops (clones_of_0 3 (Z.to_nat (count_modulus - 1))) [])
     = Some hs' ∧
     hs' ≠ []) ∧
  ∃ st',
    exec (perform RE_Calendar (Downgrade 0 1) ;;
          run RE_Calendar
            (clones_then_drops (clones_of_0 3 (Z.to_nat (count_modulus - 1))) []) ;;
          perform RE_Calendar (Upgrade 1 2)) one_handle = Some st' ∧
    storage st' !! 2 = Some (shared_ptr empty_handle) ∧
    destructions 0 st' = 0 ∧
    storage st' !! 0 =
      Some (shared_ptr {| stored := Some 0; owner := Some 0 |}) ∧
    ∀ h, 3 ≤ h < 3 + Z.to_nat (count_modulus - 1) →
      storage st' !! h = Some (shared_ptr {| stored := Some 0; owner := Some 0 |}).
Proof.
  exact (wrapped_upgrade_fails RE_Calendar (Z.to_nat (count_modulus - 1))
           (Z2Nat.id (count_modulus - 1) ltac:(done))).
Qed.

(** C2, amended: for each of the two instances, an observer made by
    [downgrade] from a shared handle of a referent is upgraded after a
    script of clones and drops on the referent's shared handles, during
    which fewer than [2^32 - 1] of them are outstanding at any time. If the
    script has dropped every shared handle, [upgrade] writes the empty
    shared handle, and the referent was destroyed once. If a shared handle
    is still outstanding, [upgrade] writes a handle that holds the same
    object and shares its control block, whose use word then counts the new
    handle too, and the referent has not been destroyed. The observer's
    storage is none of the shared handles' and is not written by the
    script, and the weak word of the block is that of a block with an
    owner: at least one, and not about to wrap. *)
Theorem C2_upgrade_follows_the_owners (T : instance) (a : addr) (c : block_id)
    (w : Z) (hs hs' : list slot) (st : State) (sh wk out : slot)
    (script : list call) :
  owners a c w hs st →
  sh ∈ hs →
  wk ∉ hs →
  wk ∉ constructed script →
  (0 < w < count_modulus - 1)%Z →
  outstanding hs script = Some hs' →
  (Z.of_nat (peak hs script) < count_modulus - 1)%Z →
  ∃ st',
    exec (perform T (Downgrade sh wk) ;;
          run T script ;;
          perform T (Upgrade wk out)) st = Some st' ∧
    (hs' = [] →
       storage st' !! out = Some (shared_ptr empty_handle) ∧
       destructions a st' = S (destructions a st)) ∧
    (hs' ≠ [] →
       storage st' !! out =
         Some (shared_ptr {| stored := Some a; owner := Some c |}) ∧
       blocks st' !! c = Some {| managed := a;
                                 uses := Z.of_nat (S (length hs'));
                                 weaks := w + 1 |} ∧
       destructions a st' = destructions a st).
Proof.
  intros Hown Hsh Hwk Hcon Hw Hout Hpeak.
  assert (hs ≠ []) as Hne by (intros ->; by apply elem_of_nil in Hsh).
  destruct (downgrade_tracked a c T w hs st sh wk Hown Hsh Hwk)
    as (st1 & Hdown & Hown1 & Hdel1 & Hwk1).
  rewrite increment_small in Hown1 by lia.
  destruct (run_tracked a c T script (w + 1) hs hs' st1 Hne Hown1 Hout ltac:(lia))
    as (st2 & Hrun & Hframe & Hend).
  rewrite <- (Hframe wk Hwk Hcon) in Hwk1.
  pose proof (peak_last _ _ _ Hout) as Hlast.
  destruct hs' as [|h hs'].
  - destruct Hend as [Hdel2 Hblock].
    rewrite decrement_small in Hblock by lia.
    destruct (Z.eqb_spec (w + 1 - 1) 0) as [|_]; [lia|].
    destruct (upgrade_expired a c T st2 wk out _ Hwk1 Hblock eq_refl)
      as (st' & Hup & Hout' & Hdel3 & _).
    exists st'. split.
    { unfold exec, bind. by rewrite Hdown, Hrun, Hup. }
    split; [|done]. intros _. split; [done|].
    apply destructions_cons. congruence.
  - destruct Hend as [Hown2 Hdel2].
    pose proof (proj2 (proj2 Hown2)) as Hb2.
    rewrite Z.mod_small in Hb2 by lia.
    destruct (upgrade_live a c T st2 wk out _ Hwk1 Hb2) as (st' & Hup & Hout' & Hdel3 & Hblock).
    { cbn [uses length]. lia. }
    { cbn [uses]. rewrite increment_small by lia. lia. }
    exists st'. split.
    { unfold exec, bind. by rewrite Hdown, Hrun, Hup. }
    split; [done|]. intros _. split_and!; [done| |].
    + rewrite Hblock. unfold with_uses. cbn [managed uses weaks].
      rewrite increment_small by lia. do 3 f_equal. lia.
    + apply destructions_same. congruence.
Qed.

Example upgrade_while_owned :
  (λ st, (storage st !! 9, blocks st !! 0, deleted st)) <$>
    exec (cxxbridge1_weak_ptr_tm_downgrade 0 5 ;;
          cxxbridge1_weak_ptr_tm_upgrade 5 9) one_handle =
  Some (Some (shared_ptr {| stored := Some 0; owner := Some 0 |}),
        Some {| managed := 0; uses := 2; weaks := 2 |},
        []).
Proof. reflexivity. Qed.

Example upgrade_after_last_drop :
  (λ st, (storage st !! 9, blocks st !! 0, deleted st)) <$>
    exec (cxxbridge1_weak_ptr_tm_downgrade 0 5 ;;
          cxxbridge1_shared_ptr_tm_drop 0 ;;
          cxxbridge1_weak_ptr_tm_upgrade 5 9) one_handle =
  Some (Some (shared_ptr empty_handle),
        Some {| managed := 0; uses := 0; weaks := 1 |},
        [0]).
Proof. reflexivity. Qed.

Lemma C2_witness :
  owners 0 0 1 [0] one_handle ∧
  0 ∈ [0] ∧
  (5 ∉ [0]) ∧
  (5 ∉ constructed [Clone 0 1; Drop 0; Drop 1]) ∧
  outstanding [0] [Clone 0 1; Drop 0; Drop 1] = Some [] ∧
  ∃ st',
    exec (perform tm (Downgrade 0 5) ;;
          run tm [Clone 0 1; Drop 0; Drop 1] ;;
          perform tm (Upgrade 5 9)) one_handle = Some st' ∧
    storage st' !! 9 = Some (shared_ptr empty_handle).
Proof.
  assert (owners 0 0 1 [0] one_handle) as Hown.
  { split_and!; [apply NoDup_singleton|by constructor|reflexivity]. }
  assert (0 ∈ [0]) as Hin by (by left).
  assert (5 ∉ [0]) as Hwk by (by intros ?%list_elem_of_singleton).
  assert (5 ∉ constructed [Clone 0 1; Drop 0; Drop 1]) as Hcon
    by (by intros ?%list_elem_of_singleton).
  split; [exact Hown|]. split; [exact Hin|]. split; [exact Hwk|].
  split; [exact Hcon|]. split; [reflexivity|].
  destruct (C2_upgrade_follows_the_owners tm 0 0 1 [0] [] one_handle 0 5 9
              [Clone 0 1; Drop 0; Drop 1] Hown Hin Hwk Hcon
              (conj eq_refl eq_refl) eq_refl eq_refl)
    as (st' & Hexec & Hexpired & _).
  exists st'. split; [exact Hexec|]. exact (proj1 (Hexpired eq_refl)).
Defined.

End RefCountFacts.

(** ** Observers of a handle *)

(** C10: [get] on a unique or a shared handle returns the pointer stored in
    the handle, the null pointer for a null handle, and leaves the whole
    heap as it was: the handle, every other handle, the reference counts
    and the record of destructions. On storage that holds no handle it is
    undefined. This holds for each instance the bridge has. *)
Theorem C10_get_is_a_pure_observer :
  (∀ (h : slot) (st : Unique.State),
     Unique.cxxbridge1_unique_ptr_RE_Calendar_get h st =
       (λ p, (p, st)) <$> Unique.handles st !! h ∧
     Unique.cxxbridge1_unique_ptr_tm_get h st =
       (λ p, (p, st)) <$> Unique.handles st !! h ∧
     Unique.cxxbridge1_unique_ptr_std_vector_tm_get h st =
       (λ p, (p, st)) <$> Unique.handles st !! h) ∧
  (∀ (h : slot) (st : Shared.State),
     Shared.cxxbridge1_shared_ptr_RE_Calendar_get h st =
       (λ x, (Shared.stored x, st)) <$> Shared.shared st !! h ∧
     Shared.cxxbridge1_shared_ptr_tm_get h st =
       (λ x, (Shared.stored x, st)) <$> Shared.shared st !! h).
Proof.
  split.
  - intros h st. split_and!; apply unique_ptr_get_spec.
  - intros h st. split_and!; apply shared_ptr_get_spec.
Qed.

(** ** The sequence adapter *)

Section SequenceFacts.
Import Sequence.

Ltac sequence_unfold :=
  unfold eval, exec, cxxbridge1_std_vector_tm_new, cxxbridge1_std_vector_tm_size,
    cxxbridge1_std_vector_tm_get_unchecked, cxxbridge1_std_vector_tm_push_back,
    cxxbridge1_std_vector_tm_pop_back, new_vector, vector_size,
    vector_subscript, vector_push_back, vector_back, vector_pop_back,
    placement_new_tm, destroy, element_value, vector_at_address, record_at,
    bind, ret, modify, undefined, set_vectors, set_records.

Lemma push_back_spec (v : addr) (value : slot) (l : list tm) (x : tm) (st : State) :
  vectors st !! v = Some l →
  records st !! value = Some x →
  cxxbridge1_std_vector_tm_push_back v value st =
    Some (tt, {| vectors := <[v := l ++ [x]]> (vectors st);
                 records := delete value (records st);
                 next_addr := next_addr st |}).
Proof.
  intros Hv Hr. sequence_unfold. rewrite Hr. cbn. rewrite Hv. cbn.
  by rewrite Hr.
Qed.

Lemma removelast_snoc (l : list tm) (x : tm) : removelast (l ++ [x]) = l.
Proof. by rewrite removelast_last. Qed.

Lemma pop_back_spec (v : addr) (out : slot) (l : list tm) (x : tm) (st : State) :
  vectors st !! v = Some (l ++ [x]) →
  cxxbridge1_std_vector_tm_pop_back v out st =
    Some (tt, {| vectors := <[v := l]> (vectors st);
                 records := <[out := x]> (records st);
                 next_addr := next_addr st |}).
Proof.
  intros Hv. sequence_unfold. rewrite Hv. cbn. rewrite last_snoc. cbn.
  rewrite Hv. cbn. destruct (l ++ [x]) eqn:Hl.
  - by destruct l.
  - by rewrite <- Hl, removelast_snoc.
Qed.

Lemma push_all_spec (v : addr) (xs : list (slot * tm)) (l : list tm) (st : State) :
  vectors st !! v = Some l →
  ∃ st',
    push_all v xs st = Some (tt, st') ∧
    vectors st' !! v = Some (l ++ xs.*2).
Proof.
  revert l st. induction xs as [|[p x] xs IH]; intros l st Hv; simpl.
  - exists st. by rewrite app_nil_r.
  - unfold bind at 1. unfold placement_new_tm at 1, modify.
    erewrite bind_defined; cycle 1.
    { apply (push_back_spec v p l x); cbn; [done|apply lookup_insert_eq]. }
    destruct (IH (l ++ [x])
                {| vectors := <[v := l ++ [x]]> (vectors st);
                   records := delete p (<[p := x]> (records st));
                   next_addr := next_addr st |}) as (st' & Hrun & Hv').
    { cbn. apply lookup_insert_eq. }
    exists st'. split; [exact Hrun|]. by rewrite Hv', <- app_assoc.
Qed.

(** C5: [push_back] appends the value held in the caller's storage to the
    sequence and ends the life of the object in that storage. A [pop_back]
    right after it gives the sequence its prior contents back, hence its
    prior size and prior last element, and constructs in [out] the value
    that was last before the pop, which is the value pushed. *)
Theorem C5_push_back_then_pop_back (v : addr) (value out : slot) (l : list tm)
    (x : tm) (st : State) :
  vectors st !! v = Some l →
  records st !! value = Some x →
  ∃ st1 st2,
    exec (cxxbridge1_std_vector_tm_push_back v value) st = Some st1 ∧
    vectors st1 !! v = Some (l ++ [x]) ∧
    records st1 !! value = None ∧
    exec (cxxbridge1_std_vector_tm_pop_back v out) st1 = Some st2 ∧
    vectors st2 = vectors st ∧
    eval (cxxbridge1_std_vector_tm_size v) st2 =
      eval (cxxbridge1_std_vector_tm_size v) st ∧
    eval (cxxbridge1_std_vector_tm_size v) st2 = Some (length l) ∧
    eval (vector_back v) st1 = Some x ∧
    records st2 !! out = Some x.
Proof.
  intros Hv Hr. eexists _, _. split.
  { unfold exec. by rewrite (push_back_spec v value l x st Hv Hr). }
  cbn. split; [apply lookup_insert_eq|]. split; [apply lookup_delete_eq|].
  split.
  { unfold exec. erewrite pop_back_spec; [done|]. cbn. apply lookup_insert_eq. }
  cbn. rewrite insert_insert_eq, (insert_id _ _ _ Hv), lookup_insert_eq.
  split_and!; try done.
  - sequence_unfold. cbn. by rewrite Hv.
  - sequence_unfold. cbn. by rewrite Hv.
  - sequence_unfold. cbn [vectors]. rewrite lookup_insert_eq. cbn.
    by rewrite last_snoc.
Qed.

Lemma C5_witness :
  let st :=
    {| vectors := {[ 3 := [noon] ]}; records := {[ 0 := midnight ]};
       next_addr := 4 |} in
  vectors st !! 3 = Some [noon] ∧
  records st !! 0 = Some midnight ∧
  ∃ st1 st2,
    exec (cxxbridge1_std_vector_tm_push_back 3 0) st = Some st1 ∧
    records st1 !! 0 = None ∧
    exec (cxxbridge1_std_vector_tm_pop_back 3 1) st1 = Some st2 ∧
    vectors st2 = vectors st ∧
    records st2 !! 1 = Some midnight.
Proof.
  intros st. split; [reflexivity|]. split; [reflexivity|].
  destruct (C5_push_back_then_pop_back 3 0 1 [noon] midnight st eq_refl eq_refl)
    as (st1 & st2 & Hpush & _ & Hvalue & Hpop & Hvec & _ & _ & _ & Hout).
  exists st1, st2. split_and!; assumption.
Defined.

(** C6: a sequence made by [new] and grown by [N] calls of [push_back] has
    size [N], and for every [i < N] [get_unchecked] at [i] is a pointer to
    the [i]-th value pushed. *)
Theorem C6_size_and_order_of_pushes (xs : list (slot * tm)) (st : State) :
  ∃ v st',
    (let* v := cxxbridge1_std_vector_tm_new in push_all v xs ;; ret v) st =
      Some (v, st') ∧
    eval (cxxbridge1_std_vector_tm_size v) st' = Some (length xs) ∧
    ∀ i, i < length xs →
      ∃ e x,
        eval (cxxbridge1_std_vector_tm_get_unchecked v i) st' = Some e ∧
        eval (element_value e) st' = Some x ∧
        xs.*2 !! i = Some x.
Proof.
  destruct (push_all_spec (next_addr st) xs []
              {| vectors := <[next_addr st := []]> (vectors st);
                 records := records st;
                 next_addr := S (next_addr st) |}) as (st' & Hrun & Hv).
  { cbn. apply lookup_insert_eq. }
  rewrite app_nil_l in Hv.
  exists (next_addr st), st'. split.
  { unfold cxxbridge1_std_vector_tm_new, new_vector, bind at 1.
    erewrite bind_defined by exact Hrun. done. }
  split.
  { sequence_unfold. rewrite Hv. cbn. by rewrite length_fmap. }
  intros i Hi.
  destruct (lookup_lt_is_Some_2 (xs.*2) i) as [x Hx];
    [by rewrite length_fmap|].
  exists {| of_vector := next_addr st; position := i |}, x.
  split_and!; [| |done].
  - sequence_unfold. rewrite Hv. cbn. rewrite length_fmap.
    by rewrite decide_True.
  - sequence_unfold. cbn. rewrite Hv. cbn. by rewrite Hx.
Qed.

Lemma C6_witness :
  ∃ v st' e,
    (let* v := cxxbridge1_std_vector_tm_new in
     push_all v [(0, noon); (0, midnight)] ;; ret v) empty_heap = Some (v, st') ∧
    eval (cxxbridge1_std_vector_tm_size v) st' = Some 2 ∧
    eval (cxxbridge1_std_vector_tm_get_unchecked v 1) st' = Some e ∧
    eval (element_value e) st' = Some midnight.
Proof.
  destruct (C6_size_and_order_of_pushes [(0, noon); (0, midnight)] empty_heap)
    as (v & st' & Hrun & Hsize & Hget).
  destruct (Hget 1 ltac:(simpl; lia)) as (e & x & He & Hx & [= <-]).
  exists v, st', e. split_and!; assumption.
Defined.

End SequenceFacts.

(** ** Call trampolines *)

Section TrampolineFacts.
Import Trampoline.
Context {Calendar float : Type} `{!Native Calendar float}.

Lemma string_trampoline_spec (text : string) (st : State) :
  (let* tmp := make_unique_string text in
   let (p, tmp') := release_temporary tmp in
   destroy_temporary tmp' ;; ret p) st =
    Some (Some (next_addr st),
          {| uints := uints st;
             strings := <[next_addr st := text]> (strings st);
             next_addr := S (next_addr st) |}).
Proof. reflexivity. Qed.

Lemma allocator_ok_fresh (text : string) (st : State) :
  allocator_ok st →
  strings st !! next_addr st = None ∧
  allocator_ok {| uints := uints st;
                  strings := <[next_addr st := text]> (strings st);
                  next_addr := S (next_addr st) |}.
Proof.
  intros Hok. split; [by apply Hok|].
  intros a Ha. cbn in *. rewrite lookup_insert_ne by lia. apply Hok. lia.
Qed.

(** C8: each of the three accessors returns nothing, and constructs in the
    caller's storage the value the native member function returned; nothing
    else in the heap changes. *)
Theorem C8_enum_results_go_through_the_out_pointer (self : Calendar)
    (return_ : slot) (st : State) :
  let written (x : c_uint) :=
    {| uints := <[return_ := x]> (uints st);
       strings := strings st;
       next_addr := next_addr st |} in
  (RE_cxxbridge1_Calendar_GetDayOfWeek self return_ st =
     Some (tt, written (GetDayOfWeek self)) ∧
   uints (written (GetDayOfWeek self)) !! return_ = Some (GetDayOfWeek self)) ∧
  (RE_cxxbridge1_Calendar_GetMonth self return_ st =
     Some (tt, written (GetMonth self)) ∧
   uints (written (GetMonth self)) !! return_ = Some (GetMonth self)) ∧
  (RE_cxxbridge1_Calendar_GetYear self return_ st =
     Some (tt, written (GetYear self)) ∧
   uints (written (GetYear self)) !! return_ = Some (GetYear self)).
Proof.
  intros written. split_and!; try done; apply lookup_insert_eq.
Qed.

(** C9: each of the two name accessors returns a non-null pointer to a
    string object that did not exist before the call, the caller's to free,
    and that holds the text the native member function produced; no string
    that existed before is changed or freed. *)
Theorem C9_names_come_back_in_a_fresh_buffer (self : Calendar) (st : State) :
  allocator_ok st →
  ∃ p q st1 st2,
    cxxbridge1_GetDayName_autocxx_wrapper self st = Some (Some p, st1) ∧
    strings st !! p = None ∧
    strings st1 !! p = Some (GetDayName self) ∧
    (∀ a, a ≠ p → strings st1 !! a = strings st !! a) ∧
    allocator_ok st1 ∧
    cxxbridge1_GetMonthName_autocxx_wrapper self st1 = Some (Some q, st2) ∧
    strings st1 !! q = None ∧
    strings st2 !! q = Some (GetMonthName self) ∧
    (∀ a, a ≠ q → strings st2 !! a = strings st1 !! a) ∧
    allocator_ok st2.
Proof.
  intros Hok.
  destruct (allocator_ok_fresh (GetDayName self) st Hok) as [Hp Hok1].
  destruct (allocator_ok_fresh (GetMonthName self) _ Hok1) as [Hq Hok2].
  eexists _, _, _, _. split; [apply string_trampoline_spec|].
  split; [exact Hp|]. split; [apply lookup_insert_eq|].
  split; [intros a Ha; by apply lookup_insert_ne|].
  split; [exact Hok1|]. split; [apply string_trampoline_spec|].
  split; [exact Hq|]. split; [apply lookup_insert_eq|].
  split; [intros a Ha; by apply lookup_insert_ne|].
  exact Hok2.
Qed.

End TrampolineFacts.

Lemma C9_witness :
  Trampoline.allocator_ok Trampoline.empty_heap ∧
  ∃ p st1,
    Trampoline.cxxbridge1_GetDayName_autocxx_wrapper Trampoline.sundas
      Trampoline.empty_heap = Some (Some p, st1) ∧
    Trampoline.strings st1 !! p = Some "Sundas".
Proof.
  assert (Trampoline.allocator_ok Trampoline.empty_heap) as Hok.
  { intros a _. apply lookup_empty. }
  split; [exact Hok|].
  destruct (C9_names_come_back_in_a_fresh_buffer Trampoline.sundas
              Trampoline.empty_heap Hok)
    as (p & q & st1 & st2 & Hday & _ & Htext & _).
  exists p, st1. split; [exact Hday|exact Htext].
Defined.

(** * Further properties *)

(** ** Exclusive handles: life cycle and ownership *)

Section UniqueLifeCycle.
Import Unique UniqueScript.

Ltac unique_unfold :=
  unfold eval, exec, perform,
    cxxbridge1_unique_ptr_RE_Calendar_null, cxxbridge1_unique_ptr_tm_null,
    cxxbridge1_unique_ptr_std_vector_tm_null,
    cxxbridge1_unique_ptr_RE_Calendar_uninit, cxxbridge1_unique_ptr_tm_uninit,
    cxxbridge1_unique_ptr_RE_Calendar_raw, cxxbridge1_unique_ptr_tm_raw,
    cxxbridge1_unique_ptr_std_vector_tm_raw,
    cxxbridge1_unique_ptr_RE_Calendar_drop, cxxbridge1_unique_ptr_tm_drop,
    cxxbridge1_unique_ptr_std_vector_tm_drop,
    cxxbridge1_unique_ptr_RE_Calendar_release, cxxbridge1_unique_ptr_tm_release,
    cxxbridge1_unique_ptr_std_vector_tm_release,
    cxxbridge1_unique_ptr_RE_Calendar_get, cxxbridge1_unique_ptr_tm_get,
    cxxbridge1_unique_ptr_std_vector_tm_get,
    deleter_if, is_complete_RE_Calendar, is_complete_tm,
    unique_ptr_destroy, unique_ptr_release, unique_ptr_get, unique_ptr_new,
    new_MaybeUninit, end_lifetime, default_delete, stored_pointer,
    bind, ret, modify, gets, set_handles.

(** X2: [release] and [raw] are inverse to each other. Handing the pointer
    [release] returned back with [raw] restores the heap as it was; adopting
    a pointer with [raw] and releasing it returns that pointer and destroys
    nothing. *)
Theorem X2_release_and_raw_are_inverse (h : slot) (p : option addr) (st : State) :
  handles st !! h = Some p →
  (let* q := cxxbridge1_unique_ptr_RE_Calendar_release h in
   cxxbridge1_unique_ptr_RE_Calendar_raw h q) st = Some (tt, st) ∧
  ∀ r, ∃ st',
    (cxxbridge1_unique_ptr_RE_Calendar_raw h r ;;
     cxxbridge1_unique_ptr_RE_Calendar_release h) st = Some (r, st') ∧
    deleted st' = deleted st ∧
    handles st' !! h = Some None.
Proof.
  intros Hh. split.
  - unique_unfold. rewrite Hh. cbn. do 2 f_equal. destruct st as [hs ds n].
    cbn in *. f_equal. rewrite insert_insert_eq. by apply insert_id.
  - intros r. eexists. split.
    + unique_unfold. cbn. rewrite lookup_insert_eq. reflexivity.
    + cbn. by rewrite lookup_insert_eq.
Qed.

Lemma X2_witness :
  handles one_owner !! 0 = Some (Some 7) ∧
  (let* q := cxxbridge1_unique_ptr_RE_Calendar_release 0 in
   cxxbridge1_unique_ptr_RE_Calendar_raw 0 q) one_owner = Some (tt, one_owner).
Proof.
  split; [reflexivity|].
  exact (proj1 (X2_release_and_raw_are_inverse 0 (Some 7) one_owner eq_refl)).
Defined.

(** *** Exclusive ownership is kept *)

Lemma exclusive_store_null (h : slot) (st : State) :
  exclusive st → exclusive (set_handles <[h := None]> st).
Proof.
  intros (Hheld & Hinj & Hnd & Hdel). split_and!; cbn; try done.
  - intros h' a. destruct (decide (h = h')) as [->|Hne].
    + by rewrite lookup_insert_eq.
    + rewrite lookup_insert_ne by done. apply Hheld.
  - intros h1 h2 a. destruct (decide (h = h1)) as [->|Hne1];
      [by rewrite lookup_insert_eq|].
    destruct (decide (h = h2)) as [->|Hne2]; [by rewrite lookup_insert_eq|].
    rewrite !lookup_insert_ne by done. apply Hinj.
Qed.

Lemma exclusive_forget (h : slot) (st : State) :
  exclusive st → exclusive (set_handles (delete h) st).
Proof.
  intros (Hheld & Hinj & Hnd & Hdel). split_and!; cbn; try done.
  - intros h' a. destruct (decide (h = h')) as [->|Hne].
    + by rewrite lookup_delete_eq.
    + rewrite lookup_delete_ne by done. apply Hheld.
  - intros h1 h2 a. destruct (decide (h = h1)) as [->|Hne1];
      [by rewrite lookup_delete_eq|].
    destruct (decide (h = h2)) as [->|Hne2]; [by rewrite lookup_delete_eq|].
    rewrite !lookup_delete_ne by done. apply Hinj.
Qed.

(** Storing in [h] a pointer that no other handle holds. *)
Lemma exclusive_store_unheld (h : slot) (a : addr) (st : State) :
  exclusive st →
  a < next_addr st → a ∉ deleted st →
  (∀ h', handles st !! h' = Some (Some a) → h' = h) →
  exclusive (set_handles <[h := Some a]> st).
Proof.
  intros (Hheld & Hinj & Hnd & Hdel) Ha Hlive Hunheld.
  split_and!; cbn; try done.
  - intros h' b. destruct (decide (h = h')) as [->|Hne].
    + rewrite lookup_insert_eq. by intros [= <-].
    + rewrite lookup_insert_ne by done. apply Hheld.
  - intros h1 h2 b. destruct (decide (h = h1)) as [<-|Hne1],
      (decide (h = h2)) as [<-|Hne2]; try done;
      rewrite ?lookup_insert_eq, ?lookup_insert_ne by done.
    + intros [= <-] H2. symmetry. by apply Hunheld.
    + intros H1 [= <-]. by apply Hunheld.
    + apply Hinj.
Qed.

Lemma exclusive_delete (h : slot) (a : addr) (st : State) :
  exclusive st →
  handles st !! h = Some (Some a) →
  exclusive {| handles := <[h := None]> (handles st);
               deleted := a :: deleted st;
               next_addr := next_addr st |} ∧
  exclusive {| handles := delete h (handles st);
               deleted := a :: deleted st;
               next_addr := next_addr st |}.
Proof.
  intros (Hheld & Hinj & Hnd & Hdel) Hh.
  destruct (Hheld h a Hh) as [Ha Hlive].
  assert (∀ h' b, h' ≠ h → handles st !! h' = Some (Some b) →
                  b < next_addr st ∧ b ∉ a :: deleted st) as Hothers.
  { intros h' b Hne Hb. destruct (Hheld h' b Hb) as [? ?]. split; [done|].
    apply not_elem_of_cons. split; [|done].
    intros ->. by apply Hne, (Hinj h' h a). }
  assert (NoDup (a :: deleted st)) as Hnd' by (by constructor).
  assert (∀ b, b ∈ a :: deleted st → b < next_addr st) as Hdel'.
  { intros b [->|Hb]%elem_of_cons; [done|by apply Hdel]. }
  split; split_and!; cbn; try done.
  - intros h' b. destruct (decide (h = h')) as [->|Hne].
    + by rewrite lookup_insert_eq.
    + rewrite lookup_insert_ne by done. by apply Hothers.
  - intros h1 h2 b. destruct (decide (h = h1)) as [->|Hne1];
      [by rewrite lookup_insert_eq|].
    destruct (decide (h = h2)) as [->|Hne2]; [by rewrite lookup_insert_eq|].
    rewrite !lookup_insert_ne by done. apply Hinj.
  - intros h' b. destruct (decide (h = h')) as [->|Hne].
    + by rewrite lookup_delete_eq.
    + rewrite lookup_delete_ne by done. by apply Hothers.
  - intros h1 h2 b. destruct (decide (h = h1)) as [->|Hne1];
      [by rewrite lookup_delete_eq|].
    destruct (decide (h = h2)) as [->|Hne2]; [by rewrite lookup_delete_eq|].
    rewrite !lookup_delete_ne by done. apply Hinj.
Qed.

Lemma exclusive_uninit (h : slot) (st : State) :
  exclusive st →
  exclusive {| handles := <[h := Some (next_addr st)]> (handles st);
               deleted := deleted st;
               next_addr := S (next_addr st) |}.
Proof.
  intros (Hheld & Hinj & Hnd & Hdel). split_and!; cbn; try done.
  - intros h' b. destruct (decide (h = h')) as [->|Hne].
    + rewrite lookup_insert_eq. intros [= <-]. split; [lia|].
      intros Hin%Hdel. lia.
    + rewrite lookup_insert_ne by done. intros [? ?]%Hheld. split; [lia|done].
  - intros h1 h2 b. destruct (decide (h = h1)) as [<-|Hne1],
      (decide (h = h2)) as [<-|Hne2]; try done;
      rewrite ?lookup_insert_eq, ?lookup_insert_ne by done.
    + intros [= <-] [? _]%Hheld. lia.
    + intros [? _]%Hheld [= <-]. lia.
    + apply Hinj.
  - intros a Ha%Hdel. lia.
Qed.

Lemma perform_exclusive (residue : after_destructor) (c : call) (st st' : State) :
  residue ≠ KeepsPointer →
  exclusive st →
  perform residue c st = Some (tt, st') →
  exclusive st'.
Proof.
  intros Hres Hex. destruct c as [h|h|h|h|src tgt|h]; unique_unfold.
  - intros [= <-]. exact (exclusive_store_null h st Hex).
  - intros [= <-]. exact (exclusive_uninit h st Hex).
  - destruct (handles st !! h); [|done]. by intros [= <-].
  - destruct (handles st !! h); [|done]. intros [= <-].
    exact (exclusive_store_null h st Hex).
  - destruct (handles st !! src) as [[a|]|] eqn:Hsrc; [| |done]; intros [= <-].
    + destruct Hex as (Hheld & Hinj & Hnd & Hdel).
      destruct (Hheld src a Hsrc) as [Ha Hlive].
      refine (exclusive_store_unheld tgt a (set_handles <[src := None]> st)
                _ Ha Hlive _).
      * by apply exclusive_store_null.
      * cbn. intros h'. destruct (decide (src = h')) as [->|Hne];
          [by rewrite lookup_insert_eq|].
        rewrite lookup_insert_ne by done. intros Hh'.
        by destruct Hne; apply (Hinj src h' a).
    + exact (exclusive_store_null tgt _ (exclusive_store_null src _ Hex)).
  - destruct (handles st !! h) as [[a|]|] eqn:Hh; [| |done].
    + destruct (exclusive_delete h a st Hex Hh) as [Hreset Hgone].
      destruct residue; [| |done]; cbn; by intros [= <-].
    + destruct residue; [| |done]; cbn; intros [= <-].
      * exact (exclusive_forget h st Hex).
      * exact (exclusive_store_null h st Hex).
Qed.

Lemma destructions_absent (a : addr) (st : State) :
  a ∉ deleted st → destructions a st = 0.
Proof.
  unfold destructions. induction (deleted st) as [|b l IH]; [done|].
  intros [Hne Hl]%not_elem_of_cons.
  rewrite filter_cons_False by (intros ->; done). by apply IH.
Qed.

Lemma destructions_NoDup (a : addr) (st : State) :
  NoDup (deleted st) → destructions a st ≤ 1.
Proof.
  unfold destructions. induction 1 as [|b l Hb Hnd IH]; [cbn; lia|].
  destruct (decide (b = a)) as [->|Hne].
  - rewrite filter_cons_True by done. cbn.
    pose proof (destructions_absent a
                  {| handles := ∅; deleted := l; next_addr := 0 |} Hb) as H0.
    unfold destructions in H0. cbn in H0. lia.
  - by rewrite filter_cons_False.
Qed.

Lemma run_exclusive (residue : after_destructor) (script : list call)
    (st st' : State) :
  residue ≠ KeepsPointer →
  exclusive st →
  run residue script st = Some (tt, st') →
  exclusive st'.
Proof.
  intros Hres. revert st. induction script as [|c rest IH]; intros st Hex.
  - by intros [= <-].
  - cbn. intros ([] & st1 & Hc & Hrest)%bind_inv.
    apply (IH st1); [|done]. by apply (perform_exclusive residue c st).
Qed.

(** X1: in a heap with exclusive ownership, [uninit] allocates fresh
    storage, returns its address and makes the handle own it. The address
    was never handed out before: it is the allocator's next address, no
    handle holds it, it was not destroyed, and the allocator moves on, so
    that it is not handed out again. The other handles are as they were and
    ownership stays exclusive. [get] then returns that address, and a
    [drop] destroys that object, once, and nothing else. The [tm] instance
    does the same. *)
Theorem X1_uninit_get_drop (residue : after_destructor) (h : slot) (st : State) :
  exclusive st →
  ∃ st1 st2,
    cxxbridge1_unique_ptr_RE_Calendar_uninit h st = Some (next_addr st, st1) ∧
    cxxbridge1_unique_ptr_tm_uninit h st = Some (next_addr st, st1) ∧
    (∀ h', handles st !! h' ≠ Some (Some (next_addr st))) ∧
    destructions (next_addr st) st = 0 ∧
    next_addr st1 = S (next_addr st) ∧
    deleted st1 = deleted st ∧
    (∀ h', h' ≠ h → handles st1 !! h' = handles st !! h') ∧
    exclusive st1 ∧
    cxxbridge1_unique_ptr_RE_Calendar_get h st1 = Some (Some (next_addr st), st1) ∧
    exec (cxxbridge1_unique_ptr_RE_Calendar_drop residue h) st1 = Some st2 ∧
    deleted st2 = next_addr st :: deleted st ∧
    destructions (next_addr st) st2 = 1 ∧
    (∀ a, a ≠ next_addr st → destructions a st2 = destructions a st).
Proof.
  intros Hex.
  set (st1 := {| handles := <[h := Some (next_addr st)]> (handles st);
                 deleted := deleted st;
                 next_addr := S (next_addr st) |}).
  assert (handles st1 !! h = Some (Some (next_addr st))) as Hh
    by apply lookup_insert_eq.
  destruct (drop_destroys_referent residue h _ st1 Hh) as (st2 & Hdrop & Hdel).
  assert (next_addr st ∉ deleted st) as Hfresh.
  { destruct Hex as (_ & _ & _ & Hbelow). intros Hin%Hbelow. lia. }
  pose proof (destructions_absent _ st Hfresh) as Hzero.
  exists st1, st2. split_and!; try done.
  - intros h' Hh'. destruct Hex as (Hheld & _). apply Hheld in Hh' as [? _]. lia.
  - intros h' Hne. cbn. by rewrite lookup_insert_ne.
  - by apply exclusive_uninit.
  - unique_unfold. by rewrite Hh.
  - unfold destructions in *. rewrite Hdel. cbn [deleted st1].
    rewrite filter_cons_True by done. cbn. by rewrite Hzero.
  - intros a Hne. unfold destructions. rewrite Hdel. cbn [deleted st1].
    by rewrite filter_cons_False by done.
Qed.

Lemma X1_witness :
  exclusive empty_heap ∧
  ∃ st1 st2,
    cxxbridge1_unique_ptr_RE_Calendar_uninit 3 empty_heap = Some (0, st1) ∧
    exec (cxxbridge1_unique_ptr_RE_Calendar_drop ResetsToNull 3) st1 = Some st2 ∧
    destructions 0 st2 = 1.
Proof.
  assert (exclusive empty_heap) as Hex.
  { split_and!; cbn; [done|done|constructor|by intros a ?%elem_of_nil]. }
  split; [exact Hex|].
  destruct (X1_uninit_get_drop ResetsToNull 3 empty_heap Hex)
    as (st1 & st2 & Huninit & _ & _ & _ & _ & _ & _ & _ & _ & Hdrop & _ & Hone & _).
  exists st1, st2. split_and!; assumption.
Defined.

(** X3: over any script of [null], [uninit], [get], [release], transfers and
    [drop] that is defined, exclusive ownership is kept, provided the
    library's destructor does not leave the old pointer in a dropped
    handle: no object is destroyed twice, and no handle holds a destroyed
    object. *)
Theorem X3_no_double_destruction (residue : after_destructor)
    (script : list call) (st st' : State) :
  residue ≠ KeepsPointer →
  exclusive st →
  run residue script st = Some (tt, st') →
  exclusive st' ∧
  (∀ a, destructions a st' ≤ 1) ∧
  (∀ h a, handles st' !! h = Some (Some a) → destructions a st' = 0).
Proof.
  intros Hres Hex Hrun.
  pose proof (run_exclusive residue script st st' Hres Hex Hrun) as Hex'.
  split; [done|]. destruct Hex' as (Hheld & _ & Hnd & _). split.
  - intros a. by apply destructions_NoDup.
  - intros h a Hh. apply destructions_absent. by apply (Hheld h a).
Qed.

Lemma X3_witness :
  ResetsToNull ≠ KeepsPointer ∧
  exclusive empty_heap ∧
  ∃ st',
    run ResetsToNull
      [Uninit 0; Uninit 1; Transfer 0 2; Drop 0; Drop 2; Release 1; Drop 1]
      empty_heap = Some (tt, st') ∧
    deleted st' = [0] ∧
    (∀ a, destructions a st' ≤ 1).
Proof.
  assert (ResetsToNull ≠ KeepsPointer) as Hres by done.
  assert (exclusive empty_heap) as Hex.
  { split_and!; cbn; [done|done|constructor|by intros a ?%elem_of_nil]. }
  split; [exact Hres|]. split; [exact Hex|].
  eexists. split; [reflexivity|]. split; [reflexivity|].
  exact (proj1 (proj2 (X3_no_double_destruction ResetsToNull
           [Uninit 0; Uninit 1; Transfer 0 2; Drop 0; Drop 2; Release 1; Drop 1]
           empty_heap _ Hres Hex eq_refl))).
Defined.

End UniqueLifeCycle.

(** ** Shared handles and observers: life cycle *)

Section SharedLifeCycle.
Import Shared.

Ltac shared_unfold :=
  unfold eval, exec,
    cxxbridge1_shared_ptr_RE_Calendar_null, cxxbridge1_shared_ptr_tm_null,
    cxxbridge1_shared_ptr_RE_Calendar_uninit, cxxbridge1_shared_ptr_tm_uninit,
    cxxbridge1_shared_ptr_RE_Calendar_clone, cxxbridge1_shared_ptr_tm_clone,
    cxxbridge1_shared_ptr_RE_Calendar_get, cxxbridge1_shared_ptr_tm_get,
    cxxbridge1_shared_ptr_RE_Calendar_drop, cxxbridge1_shared_ptr_tm_drop,
    cxxbridge1_weak_ptr_RE_Calendar_null, cxxbridge1_weak_ptr_tm_null,
    cxxbridge1_weak_ptr_RE_Calendar_clone, cxxbridge1_weak_ptr_tm_clone,
    cxxbridge1_weak_ptr_RE_Calendar_downgrade, cxxbridge1_weak_ptr_tm_downgrade,
    cxxbridge1_weak_ptr_RE_Calendar_upgrade, cxxbridge1_weak_ptr_tm_upgrade,
    cxxbridge1_weak_ptr_RE_Calendar_drop, cxxbridge1_weak_ptr_tm_drop,
    shared_ptr_new_empty, shared_ptr_new_raw, shared_ptr_new_copy,
    shared_ptr_get, shared_ptr_destroy, shared_ptr_new_move,
    weak_ptr_new_empty, weak_ptr_new_copy, weak_ptr_new_from_shared,
    weak_ptr_lock, weak_ptr_destroy,
    new_MaybeUninit, new_control_block, delete_managed,
    add_use, add_weak, release_use, release_weak,
    shared_at, weak_at, block_at, bind, ret, modify, undefined,
    set_shared, set_weak, set_blocks.

(** X5: the null state is closed under every call. Cloning or downgrading a
    null shared handle writes a null handle, upgrading or cloning a null
    observer writes a null handle, and dropping either only ends its
    lifetime; none of them touches a control block or destroys anything. *)
Theorem X5_null_handles_stay_null (h w ptr : slot) (st : State) :
  shared st !! h = Some empty_handle →
  weak st !! w = Some empty_handle →
  cxxbridge1_shared_ptr_RE_Calendar_clone h ptr st =
    Some (tt, set_shared <[ptr := empty_handle]> st) ∧
  cxxbridge1_shared_ptr_RE_Calendar_get h st = Some (None, st) ∧
  cxxbridge1_shared_ptr_RE_Calendar_drop h st =
    Some (tt, set_shared (delete h) st) ∧
  cxxbridge1_weak_ptr_RE_Calendar_downgrade h ptr st =
    Some (tt, set_weak <[ptr := empty_handle]> st) ∧
  cxxbridge1_weak_ptr_RE_Calendar_clone w ptr st =
    Some (tt, set_weak <[ptr := empty_handle]> st) ∧
  cxxbridge1_weak_ptr_RE_Calendar_upgrade w ptr st =
    Some (tt, set_shared <[ptr := empty_handle]> st) ∧
  cxxbridge1_weak_ptr_RE_Calendar_drop w st =
    Some (tt, set_weak (delete w) st).
Proof.
  intros Hh Hw. split_and!; shared_unfold; rewrite ?Hh, ?Hw; reflexivity.
Qed.

Lemma X5_witness :
  shared null_handles !! 0 = Some empty_handle ∧
  weak null_handles !! 1 = Some empty_handle ∧
  cxxbridge1_weak_ptr_RE_Calendar_upgrade 1 4 null_handles =
    Some (tt, set_shared <[4 := empty_handle]> null_handles).
Proof.
  split; [reflexivity|]. split; [reflexivity|].
  exact (proj1 (proj2 (proj2 (proj2 (proj2 (proj2
           (X5_null_handles_stay_null 0 1 4 null_handles eq_refl eq_refl))))))).
Defined.








End SharedLifeCycle.

(** ** The sequence adapter: bounds, round trips and order *)

Section SequenceLifeCycle.
Import Sequence SequenceScript.

Ltac sequence_unfold :=
  unfold eval, exec, cxxbridge1_std_vector_tm_new, cxxbridge1_std_vector_tm_size,
    cxxbridge1_std_vector_tm_get_unchecked, cxxbridge1_std_vector_tm_push_back,
    cxxbridge1_std_vector_tm_pop_back, new_vector, vector_size,
    vector_subscript, vector_push_back, vector_back, vector_pop_back,
    placement_new_tm, destroy, element_value, vector_at_address, record_at,
    bind, ret, modify, undefined, set_vectors, set_records.

(** X10: the adapter checks nothing, and what it does not check is
    undefined. On a live vector, [get_unchecked] is defined exactly for
    positions below the size, [pop_back] exactly when the vector is not
    empty, and [push_back] exactly when the caller's storage holds a live
    value; [size] is always defined and changes nothing. *)
Theorem X10_what_is_defined (v : addr) (pos : nat) (value out : slot)
    (l : list tm) (st : State) :
  vectors st !! v = Some l →
  (is_Some (cxxbridge1_std_vector_tm_get_unchecked v pos st) ↔ pos < length l) ∧
  (is_Some (cxxbridge1_std_vector_tm_pop_back v out st) ↔ l ≠ []) ∧
  (is_Some (cxxbridge1_std_vector_tm_push_back v value st) ↔
     is_Some (records st !! value)) ∧
  cxxbridge1_std_vector_tm_size v st = Some (length l, st).
Proof.
  intros Hv. split_and!.
  - sequence_unfold. rewrite Hv. cbn. destruct (decide (pos < length l)).
    + split; [done|]. by eexists.
    + split; [by intros [? [=]]|done].
  - destruct l as [|x l _] using rev_ind.
    + sequence_unfold. rewrite Hv. cbn. split; [by intros [? [=]]|done].
    + rewrite (pop_back_spec v out l x st Hv). split; [|by eexists].
      intros _. by destruct l.
  - destruct (records st !! value) as [x|] eqn:Hr.
    + rewrite (push_back_spec v value l x st Hv Hr). split; by eexists.
    + sequence_unfold. rewrite Hr. split; by intros [? [=]].
  - sequence_unfold. by rewrite Hv.
Qed.

Lemma X10_witness :
  vectors one_vector !! 3 = Some [noon] ∧
  is_Some (cxxbridge1_std_vector_tm_get_unchecked 3 0 one_vector) ∧
  cxxbridge1_std_vector_tm_get_unchecked 3 1 one_vector = None.
Proof.
  split; [reflexivity|].
  pose proof (X10_what_is_defined 3 0 0 0 [noon] one_vector eq_refl) as (H0 & _).
  pose proof (X10_what_is_defined 3 1 0 0 [noon] one_vector eq_refl) as (H1 & _).
  split; [apply H0; cbn; lia|].
  destruct (cxxbridge1_std_vector_tm_get_unchecked 3 1 one_vector) eqn:Hget;
    [|reflexivity].
  exfalso. assert (1 < 1) by (apply H1; by eexists). lia.
Defined.

(** X11: the round trip in the other direction. On a vector that is not
    empty, [pop_back] into the caller's storage followed by [push_back]
    from that storage gives the vector its contents back, and the caller's
    storage holds no value afterwards. *)
Theorem X11_pop_back_then_push_back (v : addr) (out : slot) (l : list tm)
    (st : State) :
  vectors st !! v = Some l →
  l ≠ [] →
  ∃ st',
    exec (cxxbridge1_std_vector_tm_pop_back v out ;;
          cxxbridge1_std_vector_tm_push_back v out) st = Some st' ∧
    vectors st' = vectors st ∧
    records st' !! out = None ∧
    ∀ p, p ≠ out → records st' !! p = records st !! p.
Proof.
  intros Hv Hne. destruct l as [|x l _] using rev_ind; [done|].
  eexists. split.
  { unfold exec. erewrite bind_defined by (by apply pop_back_spec).
    erewrite push_back_spec; [done| |]; cbn; apply lookup_insert_eq. }
  cbn. split_and!.
  - rewrite insert_insert_eq. by apply insert_id.
  - apply lookup_delete_eq.
  - intros p Hp. by rewrite lookup_delete_ne, lookup_insert_ne.
Qed.

Lemma X11_witness :
  vectors one_vector !! 3 = Some [noon] ∧
  [noon] ≠ [] ∧
  ∃ st',
    exec (cxxbridge1_std_vector_tm_pop_back 3 1 ;;
          cxxbridge1_std_vector_tm_push_back 3 1) one_vector = Some st' ∧
    vectors st' = vectors one_vector.
Proof.
  split; [reflexivity|]. split; [done|].
  destruct (X11_pop_back_then_push_back 3 1 [noon] one_vector eq_refl
              ltac:(done)) as (st' & Hrun & Hvec & _).
  exists st'. split; assumption.
Defined.

Lemma pop_all_spec (v : addr) (out : slot) (ys l : list tm) (st : State) :
  vectors st !! v = Some (l ++ ys) →
  ∃ st',
    pop_all v out (length ys) st = Some (reverse ys, st') ∧
    vectors st' = <[v := l]> (vectors st).
Proof.
  revert st. induction ys as [|y ys IH] using rev_ind; intros st Hv.
  - exists st. split; [done|]. rewrite app_nil_r in Hv. cbn.
    symmetry. by apply insert_id.
  - rewrite length_app, Nat.add_1_r, reverse_snoc. cbn.
    rewrite app_assoc in Hv.
    erewrite bind_defined by (by apply pop_back_spec).
    unfold bind at 1, record_at at 1. cbn. rewrite lookup_insert_eq.
    edestruct IH as (st' & Hrun & Hvec); cycle 1.
    + erewrite bind_defined by exact Hrun. exists st'. split; [done|].
      rewrite Hvec. cbn. by rewrite insert_insert_eq.
    + cbn. apply lookup_insert_eq.
Qed.

Lemma push_all_vectors (v : addr) (xs : list (slot * tm)) (l : list tm)
    (st : State) :
  vectors st !! v = Some l →
  ∃ st',
    push_all v xs st = Some (tt, st') ∧
    vectors st' = <[v := l ++ xs.*2]> (vectors st) ∧
    next_addr st' = next_addr st.
Proof.
  revert l st. induction xs as [|[p x] xs IH]; intros l st Hv; simpl.
  - exists st. split; [done|]. rewrite app_nil_r. split; [|done].
    symmetry. by apply insert_id.
  - unfold bind at 1. unfold placement_new_tm at 1, modify.
    erewrite bind_defined; cycle 1.
    { apply (push_back_spec v p l x); cbn; [done|apply lookup_insert_eq]. }
    edestruct (IH (l ++ [x])) as (st' & Hrun & Hvec & Hnext); cycle 1.
    + exists st'. split; [exact Hrun|]. rewrite Hvec, Hnext. cbn.
      by rewrite insert_insert_eq, <- app_assoc.
    + cbn. apply lookup_insert_eq.
Qed.

(** X12: last in, first out. Appending a run of values with [push_back] and
    then calling [pop_back] as many times hands the values back in reverse
    order and gives every vector its prior contents back. *)
Theorem X12_last_in_first_out (v : addr) (out : slot) (xs : list (slot * tm))
    (l : list tm) (st : State) :
  vectors st !! v = Some l →
  ∃ st',
    (push_all v xs ;; pop_all v out (length xs)) st =
      Some (reverse xs.*2, st') ∧
    vectors st' = vectors st.
Proof.
  intros Hv.
  destruct (push_all_vectors v xs l st Hv) as (st1 & Hpush & Hv1 & _).
  destruct (pop_all_spec v out (xs.*2) l st1) as (st' & Hpop & Hvec).
  { rewrite Hv1. apply lookup_insert_eq. }
  rewrite length_fmap in Hpop.
  exists st'. split; [by erewrite bind_defined by exact Hpush|].
  rewrite Hvec, Hv1, insert_insert_eq. by apply insert_id.
Qed.

Lemma X12_witness :
  vectors one_vector !! 3 = Some [noon] ∧
  ∃ st',
    (push_all 3 [(0, midnight); (0, noon)] ;; pop_all 3 1 2) one_vector =
      Some ([noon; midnight], st') ∧
    vectors st' = vectors one_vector.
Proof.
  split; [reflexivity|].
  exact (X12_last_in_first_out 3 1 [(0, midnight); (0, noon)] [noon]
           one_vector eq_refl).
Defined.

(** X13: [new] makes an empty vector at an address where no vector lived,
    leaves every live vector and every caller value as it was, and keeps the
    allocator's invariant. Two calls of [new] therefore never return the
    same vector. *)
Theorem X13_new_is_fresh (st : State) :
  allocator_ok st →
  ∃ v st',
    cxxbridge1_std_vector_tm_new st = Some (v, st') ∧
    vectors st !! v = None ∧
    vectors st' !! v = Some [] ∧
    cxxbridge1_std_vector_tm_size v st' = Some (0, st') ∧
    (∀ u, u ≠ v → vectors st' !! u = vectors st !! u) ∧
    records st' = records st ∧
    allocator_ok st' ∧
    ∃ v' st'',
      cxxbridge1_std_vector_tm_new st' = Some (v', st'') ∧ v' ≠ v.
Proof.
  intros Hok. exists (next_addr st). eexists. split; [reflexivity|]. cbn.
  split_and!; try done.
  - by apply Hok.
  - apply lookup_insert_eq.
  - sequence_unfold. cbn [vectors]. by rewrite lookup_insert_eq.
  - intros u Hu. by rewrite lookup_insert_ne.
  - intros a Ha. cbn in *. rewrite lookup_insert_ne by lia. apply Hok. lia.
  - eexists _, _. split; [reflexivity|]. cbn. lia.
Qed.

Lemma X13_witness :
  allocator_ok one_vector ∧
  ∃ v st',
    cxxbridge1_std_vector_tm_new one_vector = Some (v, st') ∧
    vectors st' !! v = Some [] ∧
    vectors st' !! 3 = Some [noon].
Proof.
  assert (allocator_ok one_vector) as Hok.
  { intros a Ha. cbn in *. apply lookup_singleton_ne. lia. }
  split; [exact Hok|].
  destruct (X13_new_is_fresh one_vector Hok)
    as (v & st' & Hnew & Hfresh & Hempty & _ & Hframe & _).
  exists v, st'. split; [exact Hnew|]. split; [exact Hempty|].
  rewrite Hframe; [reflexivity|]. intros <-. discriminate Hfresh.
Defined.

(** X14: a call on one vector leaves the rest alone. A defined [push_back]
    or [pop_back] on [v] changes no other vector and no caller storage but
    the one it was given, keeps the elements that stay in [v] at their
    positions, and keeps the allocator's invariant. *)
Theorem X14_calls_are_local (v : addr) (p : slot) (l : list tm) (st st' : State) :
  vectors st !! v = Some l →
  cxxbridge1_std_vector_tm_push_back v p st = Some (tt, st') ∨
  cxxbridge1_std_vector_tm_pop_back v p st = Some (tt, st') →
  (∀ u, u ≠ v → vectors st' !! u = vectors st !! u) ∧
  (∀ q, q ≠ p → records st' !! q = records st !! q) ∧
  (∃ l', vectors st' !! v = Some l' ∧
         ∀ i, i < length l → i < length l' → l' !! i = l !! i) ∧
  (allocator_ok st → allocator_ok st').
Proof.
  intros Hv [Hpush|Hpop].
  - destruct (records st !! p) as [x|] eqn:Hr; cycle 1.
    { revert Hpush. sequence_unfold. by rewrite Hr. }
    rewrite (push_back_spec v p l x st Hv Hr) in Hpush.
    injection Hpush as <-. cbn. split_and!.
    + intros u Hu. by rewrite lookup_insert_ne.
    + intros q Hq. by rewrite lookup_delete_ne.
    + exists (l ++ [x]). split; [apply lookup_insert_eq|].
      intros i Hi _. by apply lookup_app_l.
    + intros Hok a Ha. cbn in Ha |- *. destruct (decide (v = a)) as [<-|Hne].
      * pose proof (Hok v Ha) as Hnone. congruence.
      * rewrite lookup_insert_ne by done. by apply Hok.
  - destruct l as [|x l _] using rev_ind.
    { revert Hpop. sequence_unfold. by rewrite Hv. }
    rewrite (pop_back_spec v p l x st Hv) in Hpop.
    injection Hpop as <-. cbn. split_and!.
    + intros u Hu. by rewrite lookup_insert_ne.
    + intros q Hq. by rewrite lookup_insert_ne.
    + exists l. split; [apply lookup_insert_eq|].
      intros i _ Hi. symmetry. by apply lookup_app_l.
    + intros Hok a Ha. cbn in Ha |- *. destruct (decide (v = a)) as [<-|Hne].
      * pose proof (Hok v Ha) as Hnone. congruence.
      * rewrite lookup_insert_ne by done. by apply Hok.
Qed.

Lemma X14_witness :
  vectors one_vector !! 3 = Some [noon] ∧
  ∃ st',
    cxxbridge1_std_vector_tm_push_back 3 0 one_vector = Some (tt, st') ∧
    ∃ l', vectors st' !! 3 = Some l' ∧
          ∀ i, i < 1 → i < length l' → l' !! i = [noon] !! i.
Proof.
  split; [reflexivity|]. eexists. split; [reflexivity|].
  exact (proj1 (proj2 (proj2
           (X14_calls_are_local 3 0 [noon] one_vector _ eq_refl
              (or_introl eq_refl))))).
Defined.

End SequenceLifeCycle.

(** ** Raw storage, construction in place and destruction *)

Section StorageLifeCycle.
Import Sequence Storage.

Ltac storage_unfold :=
  unfold eval, exec, fetch_time,
    cxxbridge1_Calendar_autocxx_alloc_autocxx_wrapper_0xf17503e17c2ca26a,
    cxxbridge1_Calendar_autocxx_free_autocxx_wrapper_0xf17503e17c2ca26a,
    cxxbridge1_Calendar_synthetic_destructor_0xf17503e17c2ca26a_autocxx_wrapper_0xf17503e17c2ca26a,
    cxxbridge1_GetTime_autocxx_wrapper_0xf17503e17c2ca26a,
    cxxbridge1_tm_autocxx_alloc_autocxx_wrapper_0xf17503e17c2ca26a,
    cxxbridge1_tm_autocxx_free_autocxx_wrapper_0xf17503e17c2ca26a,
    cxxbridge1_tm_new_synthetic_move_ctor_0xf17503e17c2ca26a_autocxx_wrapper_0xf17503e17c2ca26a,
    cxxbridge1_tm_new_synthetic_const_copy_ctor_0xf17503e17c2ca26a_autocxx_wrapper_0xf17503e17c2ca26a,
    Calendar_autocxx_alloc_autocxx_wrapper_0xf17503e17c2ca26a,
    Calendar_autocxx_free_autocxx_wrapper_0xf17503e17c2ca26a,
    Calendar_synthetic_destructor_0xf17503e17c2ca26a_autocxx_wrapper_0xf17503e17c2ca26a,
    GetTime_autocxx_wrapper_0xf17503e17c2ca26a,
    tm_autocxx_alloc_autocxx_wrapper_0xf17503e17c2ca26a,
    tm_autocxx_free_autocxx_wrapper_0xf17503e17c2ca26a,
    tm_new_synthetic_move_ctor_0xf17503e17c2ca26a_autocxx_wrapper_0xf17503e17c2ca26a,
    tm_new_synthetic_const_copy_ctor_0xf17503e17c2ca26a_autocxx_wrapper_0xf17503e17c2ca26a,
    new_appropriately, delete_appropriately, placement_new, object_at,
    destructor, storage_at, set_cells, bind, ret, modify, undefined.

(** X15: [alloc] and [free] pair up, for [tm] and for [Calendar] alike.
    [alloc] returns storage that did not exist, holding no object; [free] on
    it restores the storage map, with no destructor run; a second [free] of
    the same pointer is undefined, as is a [free] of storage that does not
    exist or did not come from [operator new]. *)
Theorem X15_alloc_and_free_pair_up (Calendar : Type) :
  (∀ st : State tm,
     allocator_ok st →
     ∃ p st1 st2,
       cxxbridge1_tm_autocxx_alloc_autocxx_wrapper_0xf17503e17c2ca26a st =
         Some (p, st1) ∧
       cells st !! p = None ∧
       cells st1 !! p = Some {| from_new := true; object := None |} ∧
       allocator_ok st1 ∧
       cxxbridge1_tm_autocxx_free_autocxx_wrapper_0xf17503e17c2ca26a p st1 =
         Some (tt, st2) ∧
       cells st2 = cells st ∧
       destroyed st2 = destroyed st ∧
       cxxbridge1_tm_autocxx_free_autocxx_wrapper_0xf17503e17c2ca26a p st2 = None ∧
       ∀ q, cells st !! q = None ∨ from_new <$> cells st !! q = Some false →
         cxxbridge1_tm_autocxx_free_autocxx_wrapper_0xf17503e17c2ca26a q st = None) ∧
  (∀ st : State Calendar,
     allocator_ok st →
     ∃ p st1 st2,
       cxxbridge1_Calendar_autocxx_alloc_autocxx_wrapper_0xf17503e17c2ca26a st =
         Some (p, st1) ∧
       cells st !! p = None ∧
       cells st1 !! p = Some {| from_new := true; object := None |} ∧
       allocator_ok st1 ∧
       cxxbridge1_Calendar_autocxx_free_autocxx_wrapper_0xf17503e17c2ca26a p st1 =
         Some (tt, st2) ∧
       cells st2 = cells st ∧
       destroyed st2 = destroyed st ∧
       cxxbridge1_Calendar_autocxx_free_autocxx_wrapper_0xf17503e17c2ca26a p st2 =
         None ∧
       ∀ q, cells st !! q = None ∨ from_new <$> cells st !! q = Some false →
         cxxbridge1_Calendar_autocxx_free_autocxx_wrapper_0xf17503e17c2ca26a q st =
           None).
Proof.
  assert (∀ (T : Type) (st : State T),
            allocator_ok st →
            ∃ p st1 st2,
              new_appropriately st = Some (p, st1) ∧
              cells st !! p = None ∧
              cells st1 !! p = Some {| from_new := true; object := None |} ∧
              allocator_ok st1 ∧
              delete_appropriately p st1 = Some (tt, st2) ∧
              cells st2 = cells st ∧
              destroyed st2 = destroyed st ∧
              delete_appropriately p st2 = None ∧
              ∀ q, cells st !! q = None ∨ from_new <$> cells st !! q = Some false →
                   delete_appropriately q st = None) as Hgeneric.
  { intros T st Hok. pose proof (Hok (next_addr st) ltac:(done)) as Hfresh.
    exists (next_addr st). eexists _, _. split; [reflexivity|]. cbn.
    split; [done|]. split; [apply lookup_insert_eq|]. split.
    { intros a Ha. cbn in *. rewrite lookup_insert_ne by lia. apply Hok. lia. }
    split.
    { storage_unfold. cbn. rewrite lookup_insert_eq. reflexivity. }
    cbn. rewrite delete_insert_eq, delete_id by done. split_and!; try done.
    - storage_unfold. cbn. by rewrite Hfresh.
    - intros q Hq. storage_unfold.
      destruct (cells st !! q) as [[[] o]|]; cbn in *; try done.
      by destruct Hq as [[=]|[=]]. }
  split; intros st Hok; exact (Hgeneric _ st Hok).
Qed.

Lemma X15_witness :
  allocator_ok two_cells ∧
  ∃ p st1 st2,
    cxxbridge1_tm_autocxx_alloc_autocxx_wrapper_0xf17503e17c2ca26a two_cells =
      Some (p, st1) ∧
    cxxbridge1_tm_autocxx_free_autocxx_wrapper_0xf17503e17c2ca26a p st1 =
      Some (tt, st2) ∧
    cells st2 = cells two_cells ∧
    cxxbridge1_tm_autocxx_free_autocxx_wrapper_0xf17503e17c2ca26a 1 two_cells = None.
Proof.
  assert (allocator_ok two_cells) as Hok.
  { intros a Ha. cbn in *. rewrite lookup_insert_ne by lia.
    apply lookup_singleton_ne. lia. }
  split; [exact Hok|].
  destruct (proj1 (X15_alloc_and_free_pair_up unit) two_cells Hok)
    as (p & st1 & st2 & Halloc & _ & _ & _ & Hfree & Hcells & _ & _ & Hbad).
  exists p, st1, st2. split_and!; try assumption.
  apply Hbad. right. reflexivity.
Defined.

(** X16: tearing an object down takes two calls. On a live object in
    storage from [operator new], the destructor wrapper ends the object's
    life and leaves the storage, so that a second destructor call is
    undefined and [free] then gives the storage back; [free] alone gives
    the storage back without running the destructor. *)
Theorem X16_destructor_and_free_are_separate (Calendar : Type) (p : addr)
    (x : Calendar) (st : State Calendar) :
  cells st !! p = Some {| from_new := true; object := Some x |} →
  ∃ st1 st2 st3,
    cxxbridge1_Calendar_synthetic_destructor_0xf17503e17c2ca26a_autocxx_wrapper_0xf17503e17c2ca26a
      p st = Some (tt, st1) ∧
    cells st1 !! p = Some {| from_new := true; object := None |} ∧
    destroyed st1 = p :: destroyed st ∧
    cxxbridge1_Calendar_synthetic_destructor_0xf17503e17c2ca26a_autocxx_wrapper_0xf17503e17c2ca26a
      p st1 = None ∧
    cxxbridge1_Calendar_autocxx_free_autocxx_wrapper_0xf17503e17c2ca26a p st1 =
      Some (tt, st2) ∧
    cells st2 = delete p (cells st) ∧
    destroyed st2 = p :: destroyed st ∧
    cxxbridge1_Calendar_autocxx_free_autocxx_wrapper_0xf17503e17c2ca26a p st =
      Some (tt, st3) ∧
    cells st3 = delete p (cells st) ∧
    destroyed st3 = destroyed st.
Proof.
  intros Hp. eexists _, _, _. split.
  { storage_unfold. rewrite Hp. reflexivity. }
  cbn. split; [apply lookup_insert_eq|]. split; [done|]. split.
  { storage_unfold. cbn. by rewrite lookup_insert_eq. }
  split.
  { storage_unfold. cbn. rewrite lookup_insert_eq. reflexivity. }
  cbn. split; [apply delete_insert_eq|]. split; [done|]. split.
  { storage_unfold. rewrite Hp. reflexivity. }
  done.
Qed.

Lemma X16_witness :
  cells two_cells !! 0 = Some {| from_new := true; object := Some noon |} ∧
  ∃ st1 st2,
    cxxbridge1_Calendar_synthetic_destructor_0xf17503e17c2ca26a_autocxx_wrapper_0xf17503e17c2ca26a
      0 two_cells = Some (tt, st1) ∧
    cxxbridge1_Calendar_autocxx_free_autocxx_wrapper_0xf17503e17c2ca26a 0 st1 =
      Some (tt, st2) ∧
    destroyed st2 = [0].
Proof.
  split; [reflexivity|].
  destruct (X16_destructor_and_free_are_separate tm 0 noon two_cells eq_refl)
    as (st1 & st2 & st3 & Hdtor & _ & _ & _ & Hfree & _ & Hlog & _).
  exists st1, st2. split_and!; assumption.
Defined.

(** X17: the move and the copy constructor wrappers do the same thing: they
    construct at the target a copy of the source object and leave the
    source alive and unchanged, so that two live objects exist afterwards.
    They are undefined when the source holds no live object. *)
Theorem X17_move_constructor_copies (this other : addr) (s : storage tm)
    (x : tm) (h : bool) (st : State tm) :
  cells st !! this = Some s →
  cells st !! other = Some {| from_new := h; object := Some x |} →
  ∃ st',
    cxxbridge1_tm_new_synthetic_move_ctor_0xf17503e17c2ca26a_autocxx_wrapper_0xf17503e17c2ca26a
      this other st = Some (tt, st') ∧
    cxxbridge1_tm_new_synthetic_const_copy_ctor_0xf17503e17c2ca26a_autocxx_wrapper_0xf17503e17c2ca26a
      this other st = Some (tt, st') ∧
    object_at this st' = Some (x, st') ∧
    object_at other st' = Some (x, st') ∧
    destroyed st' = destroyed st ∧
    (∀ q, q ≠ this → cells st' !! q = cells st !! q) ∧
    ∀ st0 : State tm,
      object <$> cells st0 !! other = Some None →
      cxxbridge1_tm_new_synthetic_move_ctor_0xf17503e17c2ca26a_autocxx_wrapper_0xf17503e17c2ca26a
        this other st0 = None.
Proof.
  intros Hthis Hother. eexists. split.
  { storage_unfold. rewrite Hother. cbn. rewrite Hthis. reflexivity. }
  split.
  { storage_unfold. rewrite Hother. cbn. rewrite Hthis. reflexivity. }
  cbn. split_and!; try done.
  - storage_unfold. cbn. by rewrite lookup_insert_eq.
  - storage_unfold. cbn. destruct (decide (this = other)) as [->|Hne].
    + by rewrite lookup_insert_eq.
    + rewrite lookup_insert_ne by done. by rewrite Hother.
  - intros q Hq. by rewrite lookup_insert_ne.
  - intros st0 Hraw. storage_unfold.
    destruct (cells st0 !! other) as [[h0 [y|]]|]; cbn in *; try done.
Qed.

Lemma X17_witness :
  cells two_cells !! 1 = Some {| from_new := false; object := None |} ∧
  cells two_cells !! 0 = Some {| from_new := true; object := Some noon |} ∧
  ∃ st',
    cxxbridge1_tm_new_synthetic_move_ctor_0xf17503e17c2ca26a_autocxx_wrapper_0xf17503e17c2ca26a
      1 0 two_cells = Some (tt, st') ∧
    object_at 1 st' = Some (noon, st') ∧
    object_at 0 st' = Some (noon, st').
Proof.
  split; [reflexivity|]. split; [reflexivity|].
  destruct (X17_move_constructor_copies 1 0 _ noon true two_cells eq_refl eq_refl)
    as (st' & Hmove & _ & Hthis & Hother & _).
  exists st'. split_and!; assumption.
Defined.

(** X18: fetching the native time by value leaves no trace. Allocating
    storage, letting the [GetTime] wrapper construct the result in it,
    reading it and freeing the storage yields the value the native member
    function returned, and all storage is as before. Constructing into
    storage that does not exist is undefined. *)
Theorem X18_fetch_time_round_trip (Calendar : Type) `{!NativeTime Calendar}
    (self : Calendar) (st : State tm) :
  allocator_ok st →
  ∃ st',
    fetch_time self st = Some (GetTime self, st') ∧
    cells st' = cells st ∧
    destroyed st' = destroyed st ∧
    ∀ q, cells st !! q = None →
         cxxbridge1_GetTime_autocxx_wrapper_0xf17503e17c2ca26a self q st = None.
Proof.
  intros Hok. pose proof (Hok (next_addr st) ltac:(done)) as Hfresh.
  eexists. split.
  { storage_unfold. repeat (cbn; rewrite ?lookup_insert_eq). reflexivity. }
  cbn. split_and!; try done.
  - rewrite !insert_insert_eq, delete_insert_eq. by apply delete_id.
  - intros q Hq. storage_unfold. by rewrite Hq.
Qed.

Lemma X18_witness :
  allocator_ok two_cells ∧
  ∃ st',
    fetch_time (tt : stopped_clock) two_cells = Some (noon, st') ∧
    cells st' = cells two_cells.
Proof.
  assert (allocator_ok two_cells) as Hok.
  { intros a Ha. cbn in *. rewrite lookup_insert_ne by lia.
    apply lookup_singleton_ne. lia. }
  split; [exact Hok|].
  destruct (X18_fetch_time_round_trip stopped_clock tt two_cells Hok)
    as (st' & Hfetch & Hcells & _).
  exists st'. split; assumption.
Defined.

End StorageLifeCycle.

(** ** Which allocation function is used *)

Section AllocationFacts.
Import Allocation.

(** X19: the two files pick their allocation function the same way. For
    every type [T], [new_appropriately] of the header and the
    [operator new] of [MaybeUninit] use [T::operator new] exactly when the
    call [T::operator new(n)], with a size as its only argument, is
    well-formed, and the global [operator new] otherwise;
    [delete_appropriately] uses [T::operator delete] exactly when the call
    [T::operator delete(p)], with a [T*] as its only argument, is
    well-formed. A class that declares other forms only (a placement
    [operator new], a sized [operator delete]) gets the global functions.
    So storage goes back to the counterpart of the function it came from
    exactly when both calls are well-formed or neither is. *)
Theorem X19_allocation_functions_agree (T : class_traits) :
  new_appropriately T = Some (MaybeUninit_operator_new T) ∧
  (MaybeUninit_operator_new T = class_operator_new ↔
     operator_new_call_ok T = true) ∧
  (MaybeUninit_operator_new T = global_operator_new ↔
     operator_new_call_ok T = false) ∧
  (delete_appropriately T = Some class_operator_delete ↔
     operator_delete_call_ok T = true) ∧
  (delete_appropriately T = Some global_operator_delete ↔
     operator_delete_call_ok T = false) ∧
  (delete_appropriately T = counterpart <$> new_appropriately T ↔
     operator_new_call_ok T = operator_delete_call_ok T).
Proof.
  destruct T as [[] []]; cbn; split_and!; split; try done;
    intros [=].
Qed.

End AllocationFacts.

(** ** Making a native string *)

Section MakeStringFacts.
Import Trampoline MakeString.

(** X20: every call of the string maker returns a buffer of its own. Two
    calls, even on the same text, return two different non-null pointers to
    strings that did not exist before, each holding a copy of its text, and
    the first buffer is untouched by the second call. *)
Theorem X20_every_string_has_its_own_buffer (s t : string) (st : State) :
  allocator_ok st →
  ∃ p q st1 st2,
    cxxbridge1_autocxx_make_string_0xf17503e17c2ca26a s st = Some (Some p, st1) ∧
    cxxbridge1_autocxx_make_string_0xf17503e17c2ca26a t st1 = Some (Some q, st2) ∧
    p ≠ q ∧
    strings st !! p = None ∧
    strings st !! q = None ∧
    strings st2 !! p = Some s ∧
    strings st2 !! q = Some t ∧
    (∀ a, a ≠ p → a ≠ q → strings st2 !! a = strings st !! a) ∧
    uints st2 = uints st ∧
    allocator_ok st2.
Proof.
  intros Hok.
  exists (next_addr st), (S (next_addr st)). eexists _, _.
  split; [reflexivity|]. split; [reflexivity|]. cbn.
  split; [lia|]. split; [by apply Hok|]. split; [apply Hok; lia|].
  split; [rewrite lookup_insert_ne by lia; apply lookup_insert_eq|].
  split; [apply lookup_insert_eq|].
  split; [intros a Hp Hq; by rewrite !lookup_insert_ne|].
  split; [done|].
  intros a Ha. cbn in *. rewrite !lookup_insert_ne by lia. apply Hok. lia.
Qed.

Lemma X20_witness :
  allocator_ok empty_heap ∧
  ∃ p q st1 st2,
    cxxbridge1_autocxx_make_string_0xf17503e17c2ca26a "Sundas" empty_heap =
      Some (Some p, st1) ∧
    cxxbridge1_autocxx_make_string_0xf17503e17c2ca26a "Sundas" st1 =
      Some (Some q, st2) ∧
    p ≠ q.
Proof.
  assert (allocator_ok empty_heap) as Hok.
  { intros a _. apply lookup_empty. }
  split; [exact Hok|].
  destruct (X20_every_string_has_its_own_buffer "Sundas" "Sundas" empty_heap Hok)
    as (p & q & st1 & st2 & H1 & H2 & Hne & _).
  exists p, q, st1, st2. split_and!; assumption.
Defined.

End MakeStringFacts.

(** ** Shared handles and observers: the words are never too low *)

Section RefCountSoundness.
Import RefCount.

(** *** Counting the handles of a block *)

Lemma count_insert_false (p : object → bool) (h : slot) (o : object)
    (m : gmap slot object) :
  p o = false → count p (<[h := o]> m) ≤ count p m.
Proof.
  intros Hp. unfold count. rewrite map_filter_insert_False by (cbn; congruence).
  rewrite map_filter_delete, map_size_delete.
  destruct (_ !! h); cbn; lia.
Qed.

Lemma count_insert (p : object → bool) (h : slot) (o : object)
    (m : gmap slot object) :
  count p (<[h := o]> m) ≤ S (count p m).
Proof.
  destruct (p o) eqn:Hp.
  - unfold count. rewrite map_filter_insert_True by done.
    rewrite map_size_insert. destruct (_ !! h); cbn; lia.
  - pose proof (count_insert_false p h o m Hp). lia.
Qed.

Lemma count_delete (p : object → bool) (h : slot) (m : gmap slot object) :
  count p (delete h m) ≤ count p m.
Proof.
  unfold count. rewrite map_filter_delete, map_size_delete.
  destruct (_ !! h); cbn; lia.
Qed.

Lemma count_delete_member (p : object → bool) (h : slot) (o : object)
    (m : gmap slot object) :
  m !! h = Some o → p o = true →
  S (count p (delete h m)) = count p m.
Proof.
  intros Hh Hp. unfold count.
  assert (filter (λ kv : slot * object, p kv.2 = true) m !! h = Some o)
    as Hin by (by apply map_lookup_filter_Some).
  rewrite map_filter_delete, map_size_delete, Hin. cbn.
  assert (size (filter (λ kv : slot * object, p kv.2 = true) m) ≠ 0);
    [|lia].
  apply map_size_non_empty_iff. intros Hempty. by rewrite Hempty in Hin.
Qed.

Lemma count_member (p : object → bool) (h : slot) (o : object)
    (m : gmap slot object) :
  m !! h = Some o → p o = true → 0 < count p m.
Proof.
  intros Hh Hp. pose proof (count_delete_member p h o m Hh Hp). lia.
Qed.

Lemma count_none (p : object → bool) (m : gmap slot object) :
  (∀ h o, m !! h = Some o → p o = false) → count p m = 0.
Proof.
  intros Hnone. apply map_size_empty_iff, map_empty. intros h.
  apply eq_None_not_Some. intros [o [Hh Hp]%map_lookup_filter_Some].
  cbn in Hp. by rewrite (Hnone h o Hh) in Hp.
Qed.

Lemma count_zero (p : object → bool) (m : gmap slot object) (h : slot)
    (o : object) :
  count p m = 0 → m !! h = Some o → p o = false.
Proof.
  intros Hsize Hh. destruct (p o) eqn:Hp; [|done].
  pose proof (count_member p h o m Hh Hp). lia.
Qed.

Lemma owns_handle (c : block_id) (o : object) :
  owns c o = true → owner (handle_of o) = Some c.
Proof. destruct o as [x|x]; cbn; [|done]. by intros ?%bool_decide_eq_true. Qed.

Lemma observes_handle (c : block_id) (o : object) :
  observes c o = true → owner (handle_of o) = Some c.
Proof. destruct o as [x|x]; cbn; [done|]. by intros ?%bool_decide_eq_true. Qed.

Lemma owns_shared (c : block_id) (x : handle) :
  owner x = Some c → owns c (shared_ptr x) = true.
Proof. intros Hc. cbn. by apply bool_decide_eq_true. Qed.

Lemma observes_weak (c : block_id) (x : handle) :
  owner x = Some c → observes c (weak_ptr x) = true.
Proof. intros Hc. cbn. by apply bool_decide_eq_true. Qed.

Lemma share_bounds (b : control_block) : (0 ≤ share b ≤ 1)%Z.
Proof. unfold share. destruct (uses b =? 0)%Z; lia. Qed.

Lemma share_live (b : control_block) : uses b ≠ 0%Z → share b = 1%Z.
Proof. unfold share. by destruct (Z.eqb_spec (uses b) 0). Qed.

Lemma share_expired (b : control_block) : uses b = 0%Z → share b = 0%Z.
Proof. unfold share. by destruct (Z.eqb_spec (uses b) 0). Qed.

(** *** Attachment *)

Lemma attached_empty (st : State) : attached st empty_handle.
Proof. by left. Qed.

Lemma attached_transport (st st' : State) (x : handle) :
  attached st x →
  (∀ (c : block_id) b, owner x = Some c → blocks st !! c = Some b →
          ∃ b', blocks st' !! c = Some b' ∧ managed b' = managed b) →
  attached st' x.
Proof.
  intros [->|(c & b & Hc & Hb & Hp)] Hkeep; [by left|].
  destruct (Hkeep c b Hc Hb) as (b' & Hb' & Hm).
  right. exists c, b'. by rewrite Hm.
Qed.

Lemma attached_owner (st : State) (x : handle) (c : block_id) :
  attached st x → owner x = Some c →
  ∃ b, blocks st !! c = Some b ∧ stored x = Some (managed b).
Proof.
  intros [->|(c' & b & Hc & Hb & Hp)] Hx; [done|].
  rewrite Hc in Hx. injection Hx as ->. by exists b.
Qed.

(** *** The steps that keep a heap sound *)

Lemma sound_mono (K K' : Z) (st : State) :
  sound K st → (K ≤ K')%Z → sound K' st.
Proof.
  intros Hs HK. destruct Hs. split; try done.
  - lia.
  - intros c b Hb. pose proof (sound_uses0 c b Hb). lia.
  - intros c b Hb. pose proof (sound_weaks0 c b Hb). lia.
Qed.

(** Changing the words of one block, with room for the handles there are. *)
Lemma sound_recount (K : Z) (st : State) (c : block_id) (b : control_block)
    (u w : Z) :
  sound K st →
  blocks st !! c = Some b →
  (Z.of_nat (count (owns c) (storage st)) ≤ u ≤ K)%Z →
  (Z.of_nat (count (observes c) (storage st)) + (if (u =? 0)%Z then 0 else 1) ≤ w
   ∧ 1 ≤ w ≤ K)%Z →
  ((0 < u)%Z → managed b ∉ deleted st) →
  sound K (set_blocks <[c := {| managed := managed b; uses := u; weaks := w |}]> st).
Proof.
  intros Hs Hb Hu Hw Halive. destruct Hs. split; cbn; try done.
  - intros h o Ho. eapply attached_transport; [by eapply sound_attached0|].
    intros c' b' _ Hb'. cbn. destruct (decide (c = c')) as [<-|Hne].
    + rewrite lookup_insert_eq. eexists. split; [done|]. cbn. congruence.
    + rewrite lookup_insert_ne by done. by exists b'.
  - intros c' b'. destruct (decide (c = c')) as [<-|Hne].
    + rewrite lookup_insert_eq. by intros [= <-].
    + rewrite lookup_insert_ne by done. apply sound_uses0.
  - intros c' b'. destruct (decide (c = c')) as [<-|Hne].
    + rewrite lookup_insert_eq. by intros [= <-].
    + rewrite lookup_insert_ne by done. apply sound_weaks0.
  - intros c' b'. destruct (decide (c = c')) as [<-|Hne].
    + rewrite lookup_insert_eq. intros [= <-]. cbn. by apply sound_allocated0.
    + rewrite lookup_insert_ne by done. apply sound_allocated0.
  - intros c' b'. destruct (decide (c = c')) as [<-|Hne].
    + rewrite lookup_insert_eq. intros [= <-]. cbn. done.
    + rewrite lookup_insert_ne by done. apply sound_alive0.
  - intros c1 c2 b1 b2.
    destruct (decide (c = c1)) as [<-|Hne1], (decide (c = c2)) as [<-|Hne2];
      try done; rewrite ?lookup_insert_eq, ?lookup_insert_ne by done.
    + intros [= <-] H2. cbn. by apply sound_targets0.
    + intros H1 [= <-]. cbn. by apply sound_targets0.
    + apply sound_targets0.
Qed.

(** Constructing a handle where the block has room for one more. It may go
    over another handle, which is then no longer counted. *)
Lemma sound_store (K : Z) (st : State) (h : slot) (o : object) :
  sound K st →
  attached st (handle_of o) →
  (∀ (c : block_id) b, owns c o = true → blocks st !! c = Some b →
     (Z.of_nat (count (owns c) (storage st)) < uses b)%Z) →
  (∀ (c : block_id) b, observes c o = true → blocks st !! c = Some b →
     (Z.of_nat (count (observes c) (storage st)) + share b < weaks b)%Z) →
  sound K (set_storage <[h := o]> st).
Proof.
  intros Hs Hx Howns Hobs. destruct Hs. split; cbn; try done.
  - intros h' o'. destruct (decide (h = h')) as [<-|Hne].
    + rewrite lookup_insert_eq. by intros [= <-].
    + rewrite lookup_insert_ne by done. apply sound_attached0.
  - intros c b Hb. pose proof (sound_uses0 c b Hb).
    destruct (owns c o) eqn:Hc.
    + pose proof (Howns c b Hc Hb). pose proof (count_insert (owns c) h o (storage st)).
      lia.
    + pose proof (count_insert_false (owns c) h o (storage st) Hc). lia.
  - intros c b Hb. pose proof (sound_weaks0 c b Hb).
    destruct (observes c o) eqn:Hc.
    + pose proof (Hobs c b Hc Hb).
      pose proof (count_insert (observes c) h o (storage st)). lia.
    + pose proof (count_insert_false (observes c) h o (storage st) Hc). lia.
Qed.

(** Constructing a null handle. *)
Lemma sound_store_null (K : Z) (st : State) (h : slot) (o : object) :
  sound K st → handle_of o = empty_handle →
  sound K (set_storage <[h := o]> st).
Proof.
  intros Hs Ho. apply sound_store; [done|rewrite Ho; apply attached_empty|..].
  - intros c b Hc%owns_handle. by rewrite Ho in Hc.
  - intros c b Hc%observes_handle. by rewrite Ho in Hc.
Qed.

(** Ending the lifetime of a handle whose block was told already, or that
    is null. *)
Lemma sound_forget (K : Z) (st : State) (h : slot) :
  sound K st → sound K (set_storage (delete h) st).
Proof.
  intros Hs. destruct Hs. split; cbn; try done.
  - intros h' o'. destruct (decide (h = h')) as [<-|Hne].
    + by rewrite lookup_delete_eq.
    + rewrite lookup_delete_ne by done. apply sound_attached0.
  - intros c b Hb. pose proof (count_delete (owns c) h (storage st)).
    pose proof (sound_uses0 c b Hb). lia.
  - intros c b Hb. pose proof (count_delete (observes c) h (storage st)).
    pose proof (sound_weaks0 c b Hb). lia.
Qed.

(** Freeing a block that no handle owns or observes. *)
Lemma sound_free_block (K : Z) (st : State) (c : block_id) :
  sound K st →
  count (owns c) (storage st) = 0 →
  count (observes c) (storage st) = 0 →
  sound K (set_blocks (delete c) st).
Proof.
  intros Hs Hshared Hweak. destruct Hs. split; cbn; try done.
  - intros h o Ho. eapply attached_transport; [by eapply sound_attached0|].
    intros c' b' Hc' Hb'. cbn. exists b'. split; [|done].
    rewrite lookup_delete_ne; [done|]. intros <-.
    pose proof (count_zero _ _ h o Hshared Ho) as Hnot1.
    pose proof (count_zero _ _ h o Hweak Ho) as Hnot2.
    destruct o as [x|x]; cbn in *.
    + by apply bool_decide_eq_false in Hnot1.
    + by apply bool_decide_eq_false in Hnot2.
  - intros c' b' [_ Hb']%lookup_delete_Some. exact (sound_uses0 c' b' Hb').
  - intros c' b' [_ Hb']%lookup_delete_Some. exact (sound_weaks0 c' b' Hb').
  - intros c' b' [_ Hb']%lookup_delete_Some. exact (sound_allocated0 c' b' Hb').
  - intros c' b' [_ Hb']%lookup_delete_Some. exact (sound_alive0 c' b' Hb').
  - intros c1 c2 b1 b2 [_ H1]%lookup_delete_Some [_ H2]%lookup_delete_Some.
    by apply sound_targets0.
Qed.

(** Destroying the target of a block that no shared handle owns, and
    giving up the owners' share of the block. *)
Lemma sound_destroy_target (K : Z) (st : State) (c : block_id) (b : control_block)
    (w : Z) :
  sound K st →
  blocks st !! c = Some b →
  (0 < uses b)%Z →
  count (owns c) (storage st) = 0 →
  (Z.of_nat (count (observes c) (storage st)) ≤ w ∧ 1 ≤ w ≤ K)%Z →
  sound K {| storage := storage st;
             blocks := <[c := {| managed := managed b; uses := 0; weaks := w |}]>
                       (blocks st);
             deleted := managed b :: deleted st;
             next_addr := next_addr st; next_block := next_block st |}.
Proof.
  intros Hs Hb Huse Hnone Hw.
  pose proof (sound_alive K st Hs c b Hb Huse) as Hlive.
  pose proof (sound_allocated K st Hs c b Hb) as [Halloc _].
  pose proof (sound_uses K st Hs c b Hb) as Hu.
  assert (sound K (set_blocks <[c := {| managed := managed b; uses := 0;
                                        weaks := w |}]> st)) as Hs'.
  { apply sound_recount; [done|done|lia|cbn; lia|lia]. }
  destruct Hs'. split; cbn in *; try done.
  - intros c' b'. destruct (decide (c = c')) as [<-|Hne].
    + rewrite lookup_insert_eq. intros [= <-]. cbn. lia.
    + rewrite lookup_insert_ne by done. intros Hb' Huse'.
      apply not_elem_of_cons. split.
      * intros Heq. apply Hne. symmetry.
        by apply (sound_targets K st Hs c' c b' b).
      * by apply (sound_alive K st Hs c' b').
  - by constructor.
  - intros a [->|Ha]%elem_of_cons; [done|by apply sound_deleted0].
Qed.

(** A fresh block for freshly allocated storage, before a handle is made
    for it: nothing refers to either. *)
Lemma sound_fresh (K : Z) (st : State) :
  sound K st →
  blocks st !! next_block st = None ∧
  count (owns (next_block st)) (storage st) = 0 ∧
  count (observes (next_block st)) (storage st) = 0 ∧
  (next_addr st ∉ deleted st) ∧
  (∀ (c : block_id) b, blocks st !! c = Some b → managed b ≠ next_addr st) ∧
  (∀ h o, storage st !! h = Some o → stored (handle_of o) ≠ Some (next_addr st)).
Proof.
  intros Hs.
  assert (blocks st !! next_block st = None) as Hfresh.
  { apply eq_None_not_Some. intros [b Hb].
    destruct (sound_allocated K st Hs _ b Hb). lia. }
  assert (∀ h o, storage st !! h = Some o →
                 owner (handle_of o) ≠ Some (next_block st)) as Hnone.
  { intros h o Ho Hown.
    destruct (attached_owner st _ _ (sound_attached K st Hs h o Ho) Hown)
      as (b & Hb & _).
    by rewrite Hfresh in Hb. }
  split_and!; [done| | | | |].
  - apply count_none. intros h o Ho. destruct (owns _ o) eqn:Hc; [|done].
    apply owns_handle in Hc. by destruct (Hnone h o Ho).
  - apply count_none. intros h o Ho. destruct (observes _ o) eqn:Hc; [|done].
    apply observes_handle in Hc. by destruct (Hnone h o Ho).
  - intros Hin%(sound_deleted K st Hs). lia.
  - intros c b Hb Heq. destruct (sound_allocated K st Hs c b Hb). lia.
  - intros h o Ho Heq.
    destruct (sound_attached K st Hs h o Ho) as [Hnull|(c & b & _ & Hb & Hp)].
    + by rewrite Hnull in Heq.
    + rewrite Hp in Heq. injection Heq as Heq.
      destruct (sound_allocated K st Hs c b Hb). lia.
Qed.

Lemma sound_fresh_block (K : Z) (st : State) :
  sound K st → (1 ≤ K)%Z →
  sound K {| storage := storage st;
             blocks := <[next_block st := {| managed := next_addr st;
                                             uses := 1; weaks := 1 |}]>
                       (blocks st);
             deleted := deleted st;
             next_addr := S (next_addr st); next_block := S (next_block st) |}.
Proof.
  intros Hs HK.
  destruct (sound_fresh K st Hs) as (Hfresh & Hown0 & Hobs0 & _).
  destruct Hs. split; cbn; try done.
  - intros h o Ho. eapply attached_transport; [by eapply sound_attached0|].
    intros c b _ Hb. cbn. exists b. split; [|done].
    rewrite lookup_insert_ne; [done|]. intros <-. by rewrite Hfresh in Hb.
  - intros c b. destruct (decide (next_block st = c)) as [<-|Hne].
    + rewrite lookup_insert_eq. intros [= <-]. cbn. lia.
    + rewrite lookup_insert_ne by done. apply sound_uses0.
  - intros c b. destruct (decide (next_block st = c)) as [<-|Hne].
    + rewrite lookup_insert_eq. intros [= <-]. cbn. lia.
    + rewrite lookup_insert_ne by done. apply sound_weaks0.
  - intros c b. destruct (decide (next_block st = c)) as [<-|Hne].
    + rewrite lookup_insert_eq. intros [= <-]. cbn. lia.
    + rewrite lookup_insert_ne by done. intros [? ?]%sound_allocated0. lia.
  - intros c b. destruct (decide (next_block st = c)) as [<-|Hne].
    + rewrite lookup_insert_eq. intros [= <-] _. cbn.
      intros Hin%sound_deleted0. lia.
    + rewrite lookup_insert_ne by done. apply sound_alive0.
  - intros c1 c2 b1 b2.
    destruct (decide (next_block st = c1)) as [<-|Hne1],
      (decide (next_block st = c2)) as [<-|Hne2];
      try done; rewrite ?lookup_insert_eq, ?lookup_insert_ne by done.
    + intros [= <-] [? _]%sound_allocated0. cbn. lia.
    + intros [? _]%sound_allocated0 [= <-]. cbn. lia.
    + apply sound_targets0.
  - intros a Ha%sound_deleted0. lia.
Qed.

(** *** The calls keep a heap sound *)

(** The block of a live shared handle has a use word that is not zero. *)
Lemma owned_block_in_use (K : Z) (st : State) (h : slot) (x : handle) :
  sound K st → storage st !! h = Some (shared_ptr x) →
  ∀ (c : block_id) b, owner x = Some c → blocks st !! c = Some b → (0 < uses b)%Z.
Proof.
  intros Hs Hh c b Hc Hb.
  pose proof (count_member (owns c) h _ _ Hh (owns_shared c x Hc)).
  pose proof (sound_uses K st Hs c b Hb). lia.
Qed.

Lemma add_ref_copy_sound (K : Z) (st st1 : State) (x : handle) :
  sound K st →
  (K + 1 < count_modulus)%Z →
  attached st x →
  (∀ (c : block_id) b, owner x = Some c → blocks st !! c = Some b → (0 < uses b)%Z) →
  add_ref_copy x st = Some (tt, st1) →
  sound (K + 1) st1 ∧ attached st1 x ∧ storage st1 = storage st ∧
  ∀ (c : block_id) b, owner x = Some c → blocks st1 !! c = Some b →
    (Z.of_nat (count (owns c) (storage st1)) < uses b)%Z ∧
    uses b ≠ 0%Z.
Proof.
  intros Hs HK Hx Huse. unfold add_ref_copy. destruct (owner x) as [c|] eqn:Hc.
  - intros (b & st0 & Hb & Hmod)%bind_inv. unfold block_at in Hb.
    destruct (blocks st !! c) as [b0|] eqn:Hb0; [|done].
    injection Hb as <- <-. injection Hmod as <-.
    pose proof (sound_uses K st Hs c b0 Hb0) as Hcount.
    pose proof (sound_weaks K st Hs c b0 Hb0) as Hweak.
    pose proof (Huse c b0 eq_refl Hb0) as Hpos.
    rewrite increment_small by lia.
    split_and!.
    + apply sound_recount.
      * apply (sound_mono K); [done|lia].
      * done.
      * lia.
      * rewrite (share_live b0) in Hweak by lia.
        destruct (Z.eqb_spec (uses b0 + 1) 0); lia.
      * intros _. by apply (sound_alive K st Hs c b0 Hb0).
    + eapply attached_transport; [done|]. intros c' b' Hc' Hb'. cbn.
      rewrite Hc in Hc'. injection Hc' as <-. rewrite lookup_insert_eq.
      eexists. split; [done|]. cbn. congruence.
    + done.
    + intros c' b' [= <-]. cbn. rewrite lookup_insert_eq. intros [= <-]. cbn. lia.
  - intros [= <-]. split_and!; try done. apply (sound_mono K); [done|lia].
Qed.

Lemma weak_add_ref_sound (K : Z) (st st1 : State) (x : handle) :
  sound K st →
  (K + 1 < count_modulus)%Z →
  attached st x →
  weak_add_ref x st = Some (tt, st1) →
  sound (K + 1) st1 ∧ attached st1 x ∧ storage st1 = storage st ∧
  ∀ (c : block_id) b, owner x = Some c → blocks st1 !! c = Some b →
    (Z.of_nat (count (observes c) (storage st1)) + share b < weaks b)%Z.
Proof.
  intros Hs HK Hx. unfold weak_add_ref. destruct (owner x) as [c|] eqn:Hc.
  - intros (b & st0 & Hb & Hmod)%bind_inv. unfold block_at in Hb.
    destruct (blocks st !! c) as [b0|] eqn:Hb0; [|done].
    injection Hb as <- <-. injection Hmod as <-.
    pose proof (sound_uses K st Hs c b0 Hb0) as Hcount.
    pose proof (sound_weaks K st Hs c b0 Hb0) as Hweak.
    rewrite increment_small by lia.
    split_and!.
    + apply sound_recount.
      * apply (sound_mono K); [done|lia].
      * done.
      * lia.
      * fold (share b0). lia.
      * by apply (sound_alive K st Hs c b0 Hb0).
    + eapply attached_transport; [done|]. intros c' b' Hc' Hb'. cbn.
      rewrite Hc in Hc'. injection Hc' as <-. rewrite lookup_insert_eq.
      eexists. split; [done|]. cbn. congruence.
    + done.
    + intros c' b' [= <-]. cbn. rewrite lookup_insert_eq. intros [= <-].
      unfold share. cbn. fold (share b0). lia.
  - intros [= <-]. split_and!; try done. apply (sound_mono K); [done|lia].
Qed.

Lemma release_sound (K : Z) (st st1 : State) (h : slot) (x : handle) :
  sound K st →
  (K < count_modulus)%Z →
  storage st !! h = Some (shared_ptr x) →
  release x st = Some (tt, st1) →
  sound K (set_storage (delete h) st1).
Proof.
  intros Hs HK Hh Hrel. destruct (owner x) as [c|] eqn:Hc.
  - destruct (attached_owner st x c (sound_attached K st Hs h _ Hh) Hc)
      as (b0 & Hb0 & _).
    pose proof (sound_forget K st h Hs) as Hs2.
    pose proof (count_delete_member (owns c) h _ _ Hh (owns_shared c x Hc)) as Hless.
    pose proof (count_delete (observes c) h (storage st)) as Hless'.
    pose proof (sound_uses K st Hs c b0 Hb0) as Hcount.
    pose proof (sound_weaks K st Hs c b0 Hb0) as Hweak.
    rewrite (share_live b0) in Hweak by lia.
    assert (decrement (uses b0) = uses b0 - 1)%Z as Hdec
      by (apply decrement_small; lia).
    destruct (decide (uses b0 = 1%Z)) as [Hone|Hmore].
    + rewrite (release_last_spec x c b0 st Hc Hb0) in Hrel by lia.
      injection Hrel as <-.
      assert (decrement (weaks b0) = weaks b0 - 1)%Z as Hdecw
        by (apply decrement_small; lia).
      rewrite Hdecw.
      assert (count (owns c) (storage (set_storage (delete h) st)) = 0)
        as Hnone by (cbn; lia).
      destruct (Z.eqb_spec (weaks b0 - 1) 0) as [Hzero|Hrest].
      * assert (count (observes c) (storage (set_storage (delete h) st)) = 0)
          as Hnone' by (cbn; lia).
        pose proof (sound_destroy_target K _ c b0 1 Hs2 Hb0 ltac:(lia) Hnone
                      ltac:(cbn; lia)) as Hs3.
        pose proof (sound_free_block K _ c Hs3 Hnone Hnone') as Hs4.
        unfold set_blocks in Hs4. cbn in Hs4.
        rewrite delete_insert_eq in Hs4. exact Hs4.
      * exact (sound_destroy_target K _ c b0 (weaks b0 - 1) Hs2 Hb0 ltac:(lia)
                 Hnone ltac:(cbn; lia)).
    + rewrite (release_spec x c b0 st Hc Hb0) in Hrel by lia.
      injection Hrel as <-. rewrite Hdec.
      refine (sound_recount K _ c b0 (uses b0 - 1) (weaks b0) Hs2 Hb0 _ _ _).
      * cbn. lia.
      * cbn. destruct (Z.eqb_spec (uses b0 - 1) 0); lia.
      * intros _. apply (sound_alive K st Hs c b0 Hb0). lia.
  - unfold release in Hrel. rewrite Hc in Hrel. injection Hrel as <-.
    by apply sound_forget.
Qed.

Lemma weak_release_sound (K : Z) (st st1 : State) (h : slot) (x : handle) :
  sound K st →
  (K < count_modulus)%Z →
  storage st !! h = Some (weak_ptr x) →
  weak_release x st = Some (tt, st1) →
  sound K (set_storage (delete h) st1).
Proof.
  intros Hs HK Hh Hrel. unfold weak_release in Hrel.
  destruct (owner x) as [c|] eqn:Hc.
  - destruct (attached_owner st x c (sound_attached K st Hs h _ Hh) Hc)
      as (b0 & Hb0 & _).
    pose proof (sound_forget K st h Hs) as Hs2.
    pose proof (count_delete_member (observes c) h _ _ Hh (observes_weak c x Hc))
      as Hless.
    pose proof (count_delete (owns c) h (storage st)) as Hless'.
    pose proof (sound_uses K st Hs c b0 Hb0) as Hcount.
    pose proof (sound_weaks K st Hs c b0 Hb0) as Hweak.
    pose proof (share_bounds b0) as Hshare.
    rewrite (weak_release_block_spec c b0 st Hb0) in Hrel.
    injection Hrel as <-.
    assert (decrement (weaks b0) = weaks b0 - 1)%Z as Hdecw
      by (apply decrement_small; lia).
    rewrite Hdecw.
    destruct (Z.eqb_spec (weaks b0 - 1) 0) as [Hzero|Hrest].
    + assert (uses b0 = 0%Z) as Hexpired.
      { destruct (decide (uses b0 = 0%Z)) as [|Hlive]; [done|].
        rewrite (share_live b0 Hlive) in Hweak. lia. }
      refine (sound_free_block K _ c Hs2 _ _); cbn; lia.
    + refine (sound_recount K _ c b0 (uses b0) (weaks b0 - 1) Hs2 Hb0 _ _ _).
      * cbn. lia.
      * cbn. fold (share b0). lia.
      * by apply (sound_alive K st Hs c b0 Hb0).
  - injection Hrel as <-. by apply sound_forget.
Qed.

Lemma perform_sound (T : instance) (K : Z) (c : call) (st st' : State) :
  sound K st →
  (K + 1 < count_modulus)%Z →
  perform T c st = Some (tt, st') →
  sound (K + 1) st'.
Proof.
  intros Hs HK. rewrite perform_instance.
  assert (sound (K + 1) st) as Hs' by (apply (sound_mono K); [done|lia]).
  destruct c as [ptr|ptr|self ptr|self|self|ptr|self ptr|sh wk|wk sh|self];
    cbn [perform].
  - (* null *)
    intros [= <-]. by apply sound_store_null.
  - (* uninit *)
    intros [= <-].
    destruct (sound_fresh K st Hs) as (_ & Hown0 & Hobs0 & _).
    pose proof (sound_fresh_block (K + 1) st Hs' ltac:(
                  pose proof (sound_bound K st Hs); lia)) as Hs1.
    revert Hs1. generalize (K + 1)%Z. intros K1 Hs1.
    refine (sound_store K1 _ ptr _ Hs1 _ _ _).
    + right. eexists _, _. split; [reflexivity|]. cbn.
      split; [apply lookup_insert_eq|done].
    + intros c b Hc%owns_handle. cbn in Hc. injection Hc as <-. cbn.
      rewrite lookup_insert_eq. intros [= <-]. cbn. lia.
    + by intros c b [=].
  - (* clone *)
    unfold cxxbridge1_shared_ptr_RE_Calendar_clone, shared_ptr_new_copy.
    intros (x & st0 & Hx & Hrest)%bind_inv.
    apply bind_inv in Hrest as ([] & st1 & Hadd & Hmod).
    unfold shared_at in Hx.
    destruct (storage st !! self) as [[x0|x0]|] eqn:Hself; try done.
    injection Hx as <- <-. injection Hmod as <-.
    destruct (add_ref_copy_sound K st st1 x0 Hs HK
                (sound_attached K st Hs self _ Hself)
                (owned_block_in_use K st self x0 Hs Hself) Hadd)
      as (Hs1 & Hx1 & _ & Hroom).
    apply sound_store; [done|done| |by intros c b [=]].
    intros c b Hc%owns_handle Hb. by apply Hroom.
  - (* get *)
    unfold cxxbridge1_shared_ptr_RE_Calendar_get, shared_ptr_get, bind, shared_at.
    destruct (storage st !! self) as [[x0|x0]|]; try done. by intros [= <-].
  - (* drop *)
    unfold cxxbridge1_shared_ptr_RE_Calendar_drop, shared_ptr_destroy.
    intros (x & st0 & Hx & Hrest)%bind_inv.
    apply bind_inv in Hrest as ([] & st1 & Hrel & Hmod).
    unfold shared_at in Hx.
    destruct (storage st !! self) as [[x0|x0]|] eqn:Hself; try done.
    injection Hx as <- <-. injection Hmod as <-.
    by apply (release_sound (K + 1) st st1 self x0); [|lia|..].
  - (* weak null *)
    intros [= <-]. by apply sound_store_null.
  - (* weak clone *)
    unfold cxxbridge1_weak_ptr_RE_Calendar_clone, weak_ptr_new_copy.
    intros (x & st0 & Hx & Hrest)%bind_inv.
    apply bind_inv in Hrest as ([] & st1 & Hadd & Hmod).
    unfold weak_at in Hx.
    destruct (storage st !! self) as [[x0|x0]|] eqn:Hself; try done.
    injection Hx as <- <-. injection Hmod as <-.
    destruct (weak_add_ref_sound K st st1 x0 Hs HK
                (sound_attached K st Hs self _ Hself) Hadd)
      as (Hs1 & Hx1 & _ & Hroom).
    apply sound_store; [done|done|by intros c b [=]|].
    intros c b Hc%observes_handle Hb. by apply Hroom.
  - (* downgrade *)
    unfold cxxbridge1_weak_ptr_RE_Calendar_downgrade, weak_ptr_new_from_shared.
    intros (x & st0 & Hx & Hrest)%bind_inv.
    apply bind_inv in Hrest as ([] & st1 & Hadd & Hmod).
    unfold shared_at in Hx.
    destruct (storage st !! sh) as [[x0|x0]|] eqn:Hself; try done.
    injection Hx as <- <-. injection Hmod as <-.
    destruct (weak_add_ref_sound K st st1 x0 Hs HK
                (sound_attached K st Hs sh _ Hself) Hadd)
      as (Hs1 & Hx1 & _ & Hroom).
    apply sound_store; [done|done|by intros c b [=]|].
    intros c b Hc%observes_handle Hb. by apply Hroom.
  - (* upgrade *)
    unfold cxxbridge1_weak_ptr_RE_Calendar_upgrade, shared_ptr_new_move.
    intros (tmp & st1 & Hlock & Hmod)%bind_inv. injection Hmod as <-.
    unfold weak_ptr_lock in Hlock.
    apply bind_inv in Hlock as (x & st0 & Hx & Hlock).
    unfold weak_at in Hx.
    destruct (storage st !! wk) as [[x0|x0]|] eqn:Hwk; try done.
    injection Hx as <- <-.
    pose proof (sound_attached K st Hs wk _ Hwk) as Hx0. cbn in Hx0.
    destruct (owner x0) as [c|] eqn:Hc.
    + apply bind_inv in Hlock as (locked & st2 & Hadd & Hret).
      unfold add_ref_lock_nothrow in Hadd.
      apply bind_inv in Hadd as (b & st3 & Hb & Hadd).
      unfold block_at in Hb. destruct (blocks st !! c) as [b0|] eqn:Hb0; [|done].
      injection Hb as <- <-.
      destruct (Z.eqb_spec (uses b0) 0) as [Hexpired|Hlive].
      * injection Hadd as <- <-. injection Hret as <- <-.
        by apply sound_store_null.
      * apply bind_inv in Hadd as ([] & st4 & Hmod & Hret').
        injection Hret' as <- <-.
        assert (add_ref_copy x0 st = Some (tt, st4)) as Hcopy.
        { rewrite (add_ref_copy_spec x0 c b0 st Hc Hb0). exact Hmod. }
        assert (∀ (c' : block_id) b', owner x0 = Some c' →
                  blocks st !! c' = Some b' → (0 < uses b')%Z) as Huse.
        { intros c' b' Hc' Hb'. rewrite Hc in Hc'. injection Hc' as <-.
          rewrite Hb0 in Hb'. injection Hb' as <-.
          pose proof (sound_uses K st Hs c b0 Hb0). lia. }
        destruct (add_ref_copy_sound K st st4 x0 Hs HK Hx0 Huse Hcopy)
          as (Hs1 & Hx1 & _ & Hroom).
        apply bind_inv in Hret as (b1 & st5 & Hb1 & Hret).
        unfold block_at in Hb1.
        destruct (blocks st4 !! c) as [b4|] eqn:Hb4; [|done].
        injection Hb1 as <- <-. injection Hret as <- <-.
        destruct (Hroom c b4 Hc Hb4) as [Hlt Hne].
        destruct (Z.eqb_spec (uses b4) 0) as [|_]; [done|].
        assert ({| stored := stored x0; owner := Some c |} = x0) as ->.
        { destruct x0. cbn in *. by rewrite Hc. }
        apply sound_store; [done|done| |by intros c' b' [=]].
        intros c' b' Hc'%owns_handle Hb'. cbn in Hc'. by apply Hroom.
    + injection Hlock as <- <-. by apply sound_store_null.
  - (* weak drop *)
    unfold cxxbridge1_weak_ptr_RE_Calendar_drop, weak_ptr_destroy.
    intros (x & st0 & Hx & Hrest)%bind_inv.
    apply bind_inv in Hrest as ([] & st1 & Hrel & Hmod).
    unfold weak_at in Hx.
    destruct (storage st !! self) as [[x0|x0]|] eqn:Hself; try done.
    injection Hx as <- <-. injection Hmod as <-.
    by apply (weak_release_sound (K + 1) st st1 self x0); [|lia|..].
Qed.

Lemma run_sound (T : instance) (script : list call) (K : Z) (st st' : State) :
  sound K st →
  (K + Z.of_nat (length script) < count_modulus)%Z →
  run T script st = Some (tt, st') →
  sound (K + Z.of_nat (length script)) st'.
Proof.
  revert K st. induction script as [|c rest IH]; intros K st Hs HK; cbn [run].
  - intros [= <-]. apply (sound_mono K); [done|]. cbn. lia.
  - intros ([] & st1 & Hc & Hrest)%bind_inv. cbn [length] in *.
    pose proof (perform_sound T K c st st1 Hs ltac:(lia) Hc) as Hs1.
    pose proof (IH (K + 1)%Z st1 Hs1 ltac:(lia) Hrest) as Hs2.
    apply (sound_mono _ _ _ Hs2). lia.
Qed.

Lemma sound_empty_heap : sound 0 empty_heap.
Proof.
  split; cbn; try done.
  - constructor.
  - by intros a ?%elem_of_nil.
Qed.

Lemma never_destroyed (a : addr) (st : State) :
  a ∉ deleted st → destructions a st = 0.
Proof.
  unfold destructions. induction (deleted st) as [|d l IH]; [done|].
  intros [Hne Hl]%not_elem_of_cons.
  rewrite filter_cons_False by (intros ->; done). by apply IH.
Qed.

Lemma destroyed_at_most_once (a : addr) (st : State) :
  NoDup (deleted st) → destructions a st ≤ 1.
Proof.
  unfold destructions. induction 1 as [|d l Hd Hnd IH]; [cbn; lia|].
  destruct (decide (d = a)) as [->|Hne].
  - rewrite filter_cons_True by done. cbn.
    assert (filter (λ q, q = a) l = []) as ->; [|cbn; lia].
    clear IH Hnd. induction l as [|e l IH]; [done|].
    apply not_elem_of_cons in Hd as [Hne Hl].
    rewrite filter_cons_False by (intros ->; done). by apply IH.
  - by rewrite filter_cons_False.
Qed.


Lemma sound_one_handle : sound 1 one_handle.
Proof.
  exact (perform_sound RE_Calendar 0 (Uninit 0) empty_heap one_handle
           sound_empty_heap eq_refl eq_refl).
Qed.

(** X21: the heap stays sound over any script of calls on shared handles
    and observers of any number of referents, of each of the two instances,
    in any order and with any locations as targets, as long as each call is
    defined and the words cannot wrap: the number of calls, added to a
    bound [K] on the words of the heap at the start, is below [2^32]. So at
    every point the object a live shared handle points to has not been
    destroyed, its control block exists and has a use word that is not
    zero, a live observer's control block exists, and no object has been
    destroyed twice. From the empty heap this covers every script of fewer
    than [2^32] calls. *)
Theorem X21_shared_heap_stays_sound (T : instance) (K : Z) (script : list call)
    (st st' : State) :
  sound K st →
  (K + Z.of_nat (length script) < count_modulus)%Z →
  run T script st = Some (tt, st') →
  sound (K + Z.of_nat (length script)) st' ∧
  (∀ h x a, storage st' !! h = Some (shared_ptr x) → stored x = Some a →
     destructions a st' = 0 ∧
     ∃ c b, owner x = Some c ∧ blocks st' !! c = Some b ∧
            managed b = a ∧ (0 < uses b)%Z) ∧
  (∀ w x c, storage st' !! w = Some (weak_ptr x) → owner x = Some c →
     is_Some (blocks st' !! c)) ∧
  (∀ a, destructions a st' ≤ 1).
Proof.
  intros Hs HK Hrun. pose proof (run_sound T script K st st' Hs HK Hrun) as Hs'.
  split; [done|]. split_and!.
  - intros h x a Hh Ha.
    destruct (sound_attached _ st' Hs' h _ Hh) as [Hnull|(c & b & Hc & Hb & Hp)].
    { cbn in Hnull. by rewrite Hnull in Ha. }
    cbn in Hc, Hp. rewrite Hp in Ha. injection Ha as <-.
    pose proof (owned_block_in_use _ st' h x Hs' Hh c b Hc Hb) as Huse.
    split; [|by exists c, b].
    apply never_destroyed. by apply (sound_alive _ st' Hs' c b Hb Huse).
  - intros w x c Hw Hc.
    destruct (attached_owner st' x c (sound_attached _ st' Hs' w _ Hw) Hc)
      as (b & Hb & _).
    by exists b.
  - intros a. apply destroyed_at_most_once. by apply (sound_once _ st' Hs').
Qed.

Lemma X21_witness :
  sound 0 empty_heap ∧
  deleted <$>
    exec (run tm [Uninit 0; Clone 0 1; Downgrade 1 5; Drop 0; Upgrade 5 2;
                  Uninit 3; Drop 1; WeakClone 5 6; Drop 2; Upgrade 6 4;
                  WeakDrop 5; WeakDrop 6; WeakNull 3])
      empty_heap = Some [0] ∧
  ∃ st',
    run tm [Uninit 0; Clone 0 1; Downgrade 1 5; Drop 0; Upgrade 5 2;
            Uninit 3; Drop 1; WeakClone 5 6; Drop 2; Upgrade 6 4;
            WeakDrop 5; WeakDrop 6; WeakNull 3]
      empty_heap = Some (tt, st') ∧
    ∀ a, destructions a st' ≤ 1.
Proof.
  split; [exact sound_empty_heap|]. split; [vm_compute; reflexivity|].
  destruct (run tm [Uninit 0; Clone 0 1; Downgrade 1 5; Drop 0; Upgrade 5 2;
                    Uninit 3; Drop 1; WeakClone 5 6; Drop 2; Upgrade 6 4;
                    WeakDrop 5; WeakDrop 6; WeakNull 3] empty_heap)
    as [[[] st']|] eqn:Hrun.
  - exists st'. split; [reflexivity|].
    exact (proj2 (proj2 (proj2 (X21_shared_heap_stays_sound tm 0
             [Uninit 0; Clone 0 1; Downgrade 1 5; Drop 0; Upgrade 5 2;
              Uninit 3; Drop 1; WeakClone 5 6; Drop 2; Upgrade 6 4;
              WeakDrop 5; WeakDrop 6; WeakNull 3]
             empty_heap st' sound_empty_heap eq_refl Hrun)))).
  - exfalso. vm_compute in Hrun. discriminate Hrun.
Defined.

(** X4: in a sound heap, [uninit] on a shared handle allocates fresh
    storage and a fresh control block and makes the handle the sole owner.
    Fresh: the address was not destroyed and is the target of no block and
    in no handle, the block did not exist and no handle refers to it, and
    both allocators move on. Sole owner: the handle holds the new address
    and owns the new block, whose words are both one, and it is the only
    handle that owns the block; none observes it. [get] then returns the
    new address. Nothing is destroyed, no other location and no other
    control block changes, and the heap stays sound. The [tm] instance does
    the same. *)
Theorem X4_uninit_makes_a_sole_owner (K : Z) (h : slot) (st : State) :
  sound K st →
  ∃ st',
    cxxbridge1_shared_ptr_RE_Calendar_uninit h st = Some (next_addr st, st') ∧
    cxxbridge1_shared_ptr_tm_uninit h st = Some (next_addr st, st') ∧
    destructions (next_addr st) st = 0 ∧
    (∀ (c : block_id) b, blocks st !! c = Some b → managed b ≠ next_addr st) ∧
    (∀ h' o, storage st !! h' = Some o →
       stored (handle_of o) ≠ Some (next_addr st) ∧
       owner (handle_of o) ≠ Some (next_block st)) ∧
    blocks st !! next_block st = None ∧
    next_addr st' = S (next_addr st) ∧
    next_block st' = S (next_block st) ∧
    owners (next_addr st) (next_block st) 1 [h] st' ∧
    count (owns (next_block st)) (storage st') = 1 ∧
    count (observes (next_block st)) (storage st') = 0 ∧
    cxxbridge1_shared_ptr_RE_Calendar_get h st' = Some (Some (next_addr st), st') ∧
    deleted st' = deleted st ∧
    (∀ h', h' ≠ h → storage st' !! h' = storage st !! h') ∧
    (∀ c : block_id, c ≠ next_block st → blocks st' !! c = blocks st !! c) ∧
    sound (Z.max K 1) st'.
Proof.
  intros Hs.
  destruct (sound_fresh K st Hs) as (Hblock & Hown0 & Hobs0 & Hdel & Htarget & Hstored).
  assert (sound (Z.max K 1) st) as Hs' by (apply (sound_mono K); [done|lia]).
  pose proof (sound_fresh_block _ st Hs' ltac:(lia)) as Hs1.
  eexists. split; [reflexivity|]. split; [reflexivity|]. cbn.
  split_and!; try done.
  - by apply never_destroyed.
  - intros h' o Ho. split; [by apply (Hstored h' o)|].
    intros Hc.
    destruct (attached_owner st _ _ (sound_attached K st Hs h' o Ho) Hc)
      as (b & Hb & _).
    by rewrite Hblock in Hb.
  - split_and!; cbn.
    + apply NoDup_singleton.
    + constructor; [apply lookup_insert_eq|constructor].
    + apply lookup_insert_eq.
  - pose proof (count_delete_member (owns (next_block st)) h
                  (shared_ptr {| stored := Some (next_addr st);
                                 owner := Some (next_block st) |})
                  (<[h := shared_ptr {| stored := Some (next_addr st);
                                        owner := Some (next_block st) |}]>
                     (storage st))
                  (lookup_insert_eq _ _ _)
                  (owns_shared (next_block st)
                     {| stored := Some (next_addr st);
                        owner := Some (next_block st) |} eq_refl)) as Hone.
    rewrite delete_insert_eq in Hone.
    pose proof (count_delete (owns (next_block st)) h (storage st)). lia.
  - pose proof (count_insert_false (observes (next_block st)) h
                  (shared_ptr {| stored := Some (next_addr st);
                                 owner := Some (next_block st) |})
                  (storage st) eq_refl). lia.
  - unfold cxxbridge1_shared_ptr_RE_Calendar_get, shared_ptr_get, bind, shared_at.
    cbn. by rewrite lookup_insert_eq.
  - intros h' Hne. by rewrite lookup_insert_ne.
  - intros c Hc. by rewrite lookup_insert_ne.
  - refine (sound_store _ _ h _ Hs1 _ _ _).
    + right. eexists _, _. split; [reflexivity|]. cbn.
      split; [apply lookup_insert_eq|done].
    + intros c b Hc%owns_handle. cbn in Hc. injection Hc as <-. cbn.
      rewrite lookup_insert_eq. intros [= <-]. cbn. lia.
    + by intros c b [=].
Qed.

Lemma X4_witness :
  sound 1 one_handle ∧
  ∃ st',
    cxxbridge1_shared_ptr_tm_uninit 4 one_handle = Some (1, st') ∧
    owners 1 1 1 [4] st' ∧
    count (owns 1) (storage st') = 1.
Proof.
  split; [exact sound_one_handle|].
  destruct (X4_uninit_makes_a_sole_owner 1 4 one_handle sound_one_handle)
    as (st' & _ & Huninit & _ & _ & _ & _ & _ & _ & Hown & Hone & _).
  exists st'. split_and!; assumption.
Defined.

(** *** Observers do not own *)

Lemma same_owners_refl (st : State) : same_owners st st.
Proof. split_and!; try done. intros c b Hb _. by exists b. Qed.

Lemma same_owners_trans (st1 st2 st3 : State) :
  same_owners st1 st2 → same_owners st2 st3 → same_owners st1 st3.
Proof.
  intros (Hd1 & Hs1 & Hb1) (Hd2 & Hs2 & Hb2). split_and!; [congruence| |].
  - intros h x. by rewrite Hs2, Hs1.
  - intros c b Hb Huse.
    destruct (Hb1 c b Hb Huse) as (b2 & Hb2' & Hm2 & Hu2).
    destruct (Hb2 c b2 Hb2' ltac:(congruence)) as (b3 & Hb3 & Hm3 & Hu3).
    exists b3. split_and!; [done|congruence..].
Qed.

(** Constructing an observer where there is no shared handle. *)
Lemma same_owners_store_weak (st : State) (h : slot) (y : handle) :
  (∀ x, storage st !! h ≠ Some (shared_ptr x)) →
  same_owners st (set_storage <[h := weak_ptr y]> st).
Proof.
  intros Hh. split_and!; [done| |].
  - intros h' x. cbn. destruct (decide (h = h')) as [<-|Hne].
    + rewrite lookup_insert_eq. split; [done|]. intros H. by destruct (Hh x).
    + by rewrite lookup_insert_ne.
  - intros c b Hb _. by exists b.
Qed.

(** Ending the lifetime of an observer. *)
Lemma same_owners_forget_weak (st : State) (h : slot) (y : handle) :
  storage st !! h = Some (weak_ptr y) →
  same_owners st (set_storage (delete h) st).
Proof.
  intros Hh. split_and!; [done| |].
  - intros h' x. cbn. destruct (decide (h = h')) as [<-|Hne].
    + rewrite lookup_delete_eq, Hh. split; done.
    + by rewrite lookup_delete_ne.
  - intros c b Hb _. by exists b.
Qed.

(** Changing the weak word of a block. *)
Lemma same_owners_reweak (st : State) (c : block_id) (b : control_block) (n : Z) :
  blocks st !! c = Some b →
  same_owners st (set_blocks <[c := with_weaks n b]> st).
Proof.
  intros Hb. split_and!; try done. intros c' b' Hb' Huse. cbn.
  destruct (decide (c = c')) as [<-|Hne].
  - rewrite lookup_insert_eq. eexists. split; [done|].
    rewrite Hb in Hb'. by injection Hb' as <-.
  - rewrite lookup_insert_ne by done. by exists b'.
Qed.

(** Freeing a block whose use word is zero. *)
Lemma same_owners_free (st : State) (c : block_id) (b : control_block) :
  blocks st !! c = Some b → uses b = 0%Z →
  same_owners st (set_blocks (delete c) st).
Proof.
  intros Hb Huse. split_and!; try done. intros c' b' Hb' Huse'. cbn.
  destruct (decide (c = c')) as [<-|Hne].
  - rewrite Hb in Hb'. injection Hb' as <-. done.
  - rewrite lookup_delete_ne by done. by exists b'.
Qed.

Lemma weak_add_ref_same_owners (x : handle) (st st' : State) :
  weak_add_ref x st = Some (tt, st') →
  same_owners st st' ∧ storage st' = storage st.
Proof.
  unfold weak_add_ref. destruct (owner x) as [c|].
  - intros (b & st1 & Hb & Hmod)%bind_inv. unfold block_at in Hb.
    destruct (blocks st !! c) as [b0|] eqn:Hc; [|done].
    injection Hb as <- <-. injection Hmod as <-.
    split; [by apply same_owners_reweak|done].
  - intros [= <-]. split; [apply same_owners_refl|done].
Qed.

Lemma weak_release_same_owners (K : Z) (h : slot) (x : handle) (st st' : State) :
  sound K st →
  (K < count_modulus)%Z →
  storage st !! h = Some (weak_ptr x) →
  weak_release x st = Some (tt, st') →
  same_owners st st' ∧ storage st' = storage st.
Proof.
  intros Hs HK Hh. unfold weak_release. destruct (owner x) as [c|] eqn:Hc.
  - destruct (attached_owner st x c (sound_attached K st Hs h _ Hh) Hc)
      as (b0 & Hb0 & _).
    rewrite (weak_release_block_spec c b0 st Hb0). intros [= <-].
    pose proof (count_member (observes c) h _ _ Hh (observes_weak c x Hc)) as Hobs.
    pose proof (sound_weaks K st Hs c b0 Hb0) as Hweak.
    pose proof (share_bounds b0) as Hshare.
    assert (decrement (weaks b0) = weaks b0 - 1)%Z as Hdecw
      by (apply decrement_small; lia).
    rewrite Hdecw.
    destruct (Z.eqb_spec (weaks b0 - 1) 0) as [Hzero|Hrest].
    + split; [|done]. apply (same_owners_free st c b0 Hb0).
      destruct (decide (uses b0 = 0%Z)) as [|Hlive]; [done|].
      rewrite (share_live b0 Hlive) in Hweak. lia.
    + split; [|done]. by apply same_owners_reweak.
  - intros [= <-]. split; [apply same_owners_refl|done].
Qed.

Lemma perform_same_owners (T : instance) (K : Z) (c : call) (st st' : State) :
  sound K st →
  (K < count_modulus)%Z →
  observer_call c = true →
  (∀ ptr x, target c = Some ptr → storage st !! ptr ≠ Some (shared_ptr x)) →
  perform T c st = Some (tt, st') →
  same_owners st st'.
Proof.
  intros Hs HK Hobs Htarget. rewrite perform_instance.
  destruct c as [ptr|ptr|self ptr|self|self|ptr|self ptr|sh wk|wk sh|self];
    try done; cbn [perform].
  - (* weak null *)
    intros [= <-]. apply same_owners_store_weak. intros x. by apply Htarget.
  - (* weak clone *)
    unfold cxxbridge1_weak_ptr_RE_Calendar_clone, weak_ptr_new_copy.
    intros (x & st0 & Hx & Hrest)%bind_inv.
    apply bind_inv in Hrest as ([] & st1 & Hadd & Hmod).
    unfold weak_at in Hx.
    destruct (storage st !! self) as [[x0|x0]|] eqn:Hself; try done.
    injection Hx as <- <-. injection Hmod as <-.
    destruct (weak_add_ref_same_owners x0 st st1 Hadd) as [Hsame Hsto].
    apply (same_owners_trans _ st1); [done|].
    apply same_owners_store_weak. intros x. rewrite Hsto. by apply Htarget.
  - (* downgrade *)
    unfold cxxbridge1_weak_ptr_RE_Calendar_downgrade, weak_ptr_new_from_shared.
    intros (x & st0 & Hx & Hrest)%bind_inv.
    apply bind_inv in Hrest as ([] & st1 & Hadd & Hmod).
    unfold shared_at in Hx.
    destruct (storage st !! sh) as [[x0|x0]|] eqn:Hself; try done.
    injection Hx as <- <-. injection Hmod as <-.
    destruct (weak_add_ref_same_owners x0 st st1 Hadd) as [Hsame Hsto].
    apply (same_owners_trans _ st1); [done|].
    apply same_owners_store_weak. intros x. rewrite Hsto. by apply Htarget.
  - (* weak drop *)
    unfold cxxbridge1_weak_ptr_RE_Calendar_drop, weak_ptr_destroy.
    intros (x & st0 & Hx & Hrest)%bind_inv.
    apply bind_inv in Hrest as ([] & st1 & Hrel & Hmod).
    unfold weak_at in Hx.
    destruct (storage st !! self) as [[x0|x0]|] eqn:Hself; try done.
    injection Hx as <- <-. injection Hmod as <-.
    destruct (weak_release_same_owners K self x0 st st1 Hs HK Hself Hrel)
      as [Hsame Hsto].
    apply (same_owners_trans _ st1); [done|].
    apply (same_owners_forget_weak st1 self x0). by rewrite Hsto.
Qed.

(** X8: observers do not own. Take a sound heap and a script of observer
    calls ([null], [clone], [downgrade] and [drop] on observers, of either
    instance) that is defined, short enough for the words not to wrap, and
    constructs its observers in locations that hold no shared handle. The
    script destroys no referent, leaves every shared handle where it is and
    as it is, and keeps every control block whose use word is not zero,
    with its target and its use word. *)
Theorem X8_observer_calls_do_not_own (T : instance) (K : Z) (script : list call)
    (st st' : State) :
  sound K st →
  (K + Z.of_nat (length script) < count_modulus)%Z →
  forallb observer_call script = true →
  no_shared_at (constructed script) st →
  run T script st = Some (tt, st') →
  same_owners st st'.
Proof.
  revert K st. induction script as [|c rest IH]; intros K st Hs HK Hobs Hno;
    cbn [run].
  - intros [= <-]. apply same_owners_refl.
  - intros ([] & st1 & Hc & Hrest)%bind_inv.
    cbn [forallb length] in *. apply andb_prop in Hobs as [Hobs1 Hobs2].
    assert (same_owners st st1) as Hsame.
    { apply (perform_same_owners T K c st st1 Hs ltac:(lia) Hobs1); [|done].
      intros ptr x Hptr. apply Hno. apply list_elem_of_omap.
      exists c. split; [by left|done]. }
    apply (same_owners_trans _ st1); [done|].
    apply (IH (K + 1)%Z st1); [|lia|done| |done].
    + by apply (perform_sound T K c st st1 Hs ltac:(lia)).
    + intros h x Hh. destruct Hsame as (_ & Hshared & _). rewrite Hshared.
      apply Hno. apply list_elem_of_omap in Hh as (y & Hy & Hfy).
      apply list_elem_of_omap. exists y. split; [by right|done].
Qed.

Lemma X8_witness :
  sound 1 one_handle ∧
  forallb observer_call
    [Downgrade 0 6; WeakClone 6 7; WeakDrop 6; WeakNull 5; WeakDrop 7] = true ∧
  ∃ st',
    run tm [Downgrade 0 6; WeakClone 6 7; WeakDrop 6; WeakNull 5; WeakDrop 7]
      one_handle = Some (tt, st') ∧
    same_owners one_handle st'.
Proof.
  split; [exact sound_one_handle|]. split; [reflexivity|].
  assert (no_shared_at
            (constructed [Downgrade 0 6; WeakClone 6 7; WeakDrop 6; WeakNull 5;
                          WeakDrop 7]) one_handle) as Hno.
  { intros h x Hin. cbn in Hin.
    repeat (apply elem_of_cons in Hin as [->|Hin]; [done|]).
    by apply elem_of_nil in Hin. }
  destruct (run tm [Downgrade 0 6; WeakClone 6 7; WeakDrop 6; WeakNull 5;
                    WeakDrop 7] one_handle) as [[[] st']|] eqn:Hrun.
  - exists st'. split; [reflexivity|].
    exact (X8_observer_calls_do_not_own tm 1
             [Downgrade 0 6; WeakClone 6 7; WeakDrop 6; WeakNull 5; WeakDrop 7]
             one_handle st' sound_one_handle eq_refl eq_refl Hno Hrun).
  - exfalso. vm_compute in Hrun. discriminate Hrun.
Defined.

End RefCountSoundness.
